(** * Task orchestrator: plan building, topological layering, plan execution

    A shallow embedding of [src/services/task-orchestrator.ts].

    - JavaScript [Map<string, V>] objects are insertion-ordered association
      lists ([JMap]): iteration order is the order of first insertion, and a
      [set] on an existing key updates the entry in place.
    - [TaskStep] and [ExecutionPlan] are records; a step object referenced
      from [plan.steps] and from the local [stepMap] is identified with its
      position in [plan.steps], so mutation through either reference is an
      update at that position.
    - Exceptions are an explicit [Completion] type; the [while] loop of
      [topologicalSort] runs on fuel [length steps], and the theorems show
      that this fuel is never exhausted.
    - The module-level stores and counters are a [World] that every
      operation takes and returns; [Date.now()] is an oracle giving the
      value of the n-th reading of the clock.
    - The injected executor is a function from the step it receives to the
      way its promise settles; the order in which the promises of one layer
      settle is a parameter, and the calls made are recorded as events.
    - Of a value the executor throws, the orchestrator uses only
      [error instanceof Error], [error.message] and [String(error)]; a
      thrown value is given by what these three yield, and [String(error)]
      may itself throw.  Then the callback, [Promise.all] and the call are
      rejected, while the other callbacks of the layer go on; the world a
      rejected call leaves is the store when its rejection is delivered, and
      what those callbacks write later is not part of the call. *)

From Stdlib Require Import String Ascii ZArith Lia Bool Arith.
From Stdlib Require Import List.
From Stdlib Require Import Permutation Relations.
From Stdlib Require Import DecimalString DecimalNat Decimal.
Import ListNotations.
Open Scope string_scope.
Open Scope list_scope.

(* ================================================================== *)
(** ** JavaScript [Map] with string keys *)
(* ================================================================== *)

Module JMap.
Section Defs.
Context {V : Type}.

Definition t := list (string * V).

Definition empty : t := [].

Fixpoint get (m : t) (k : string) : option V :=
  match m with
  | [] => None
  | (k', v) :: m' => if String.eqb k' k then Some v else get m' k
  end.

Definition has (m : t) (k : string) : bool :=
  match get m k with Some _ => true | None => false end.

Fixpoint set (m : t) (k : string) (v : V) : t :=
  match m with
  | [] => [(k, v)]
  | (k', v') :: m' =>
      if String.eqb k' k then (k', v) :: m' else (k', v') :: set m' k v
  end.

Definition keys (m : t) : list string := map fst m.
End Defs.
Arguments t : clear implicits.
End JMap.

(** [Set<string>]: insertion-ordered, no duplicates. *)
Module JSet.
Definition t := list string.
Definition empty : t := [].
Definition has (s : t) (x : string) : bool := existsb (String.eqb x) s.
Definition add (s : t) (x : string) : t := if has s x then s else s ++ [x].
End JSet.

(* ================================================================== *)
(** ** Data model (the type declarations) *)
(* ================================================================== *)

(** JavaScript values stored in parameter bags and results. *)
#[warnings="-register-all"]
Inductive Value : Type :=
| VUndefined
| VNull
| VBool (b : bool)
| VNum (n : Z)
| VStr (s : string)
| VObj (fields : list (string * Value)).

(** [TaskType] is a union of string literals; at run time it is a string,
    and [getPlanTemplate] has a [default] branch for any other string. *)
Definition TaskType := string.

Inductive TaskStatus := pending | running | completed | failed.
Definition PlanStatus := TaskStatus.

Definition TaskStatus_eqb (a b : TaskStatus) : bool :=
  match a, b with
  | pending, pending | running, running
  | completed, completed | failed, failed => true
  | _, _ => false
  end.

Record TaskStep := mkTaskStep {
  id : string;
  type : TaskType;
  dependencies : list string;
  parameters : JMap.t Value;
  status : TaskStatus;
  result : option Value
}.

Record ExecutionPlan := mkExecutionPlan {
  plan_id : string;
  steps : list TaskStep;
  plan_status : PlanStatus;
  createdAt : Z
}.

(** The fields of [ParsedIntent] that the orchestrator reads ([confidence],
    a fraction, is not among them). *)
Record ParsedIntent := mkParsedIntent {
  taskType : TaskType;
  platform : string;
  category : string;
  intent_parameters : JMap.t Value
}.

(** A value thrown by the executor, as line 381 of [executePlan] sees it:
    an [Error] with its [message]; another value that [String] converts to
    [text] ([throw 'x'] gives ["x"], [throw 1e21] gives ["1e+21"]); or a
    value for which [String] itself throws [raised] ([throw Symbol()] or
    [throw { toString: 1 }], where [raised] is a [TypeError]). *)
Inductive Thrown :=
| ThrownError (message : string)
| ThrownConvertible (text : string)
| ThrownUnconvertible (raised : Thrown).

(** Errors thrown by the orchestrator. *)
Inductive OrchestratorError :=
| DependencyNotFound (depId : string)
    (* Dependency step ... not found in plan *)
| CircularDependency
    (* Circular dependency detected in execution plan *)
| PlanNotFound (planId : string)
    (* Plan ... not found *)
| TaskStepNotFound (taskId : string)
    (* Task step ... not found *)
| UndefinedDereference
    (* TypeError from using the result of a failed lookup *)
| Raised (reason : Thrown).
    (* what [String(error)] threw in the [catch] block of [executePlan] *)

(** How a call ends: normally, by a thrown error, or (model only) by
    running out of loop fuel. *)
Inductive Completion (A : Type) :=
| Normal (a : A)
| Throw (e : OrchestratorError)
| NoFuel.
Arguments Normal {A} a.
Arguments Throw {A} e.
Arguments NoFuel {A}.

(* ================================================================== *)
(** ** topologicalSort *)
(* ================================================================== *)

Record Graph := mkGraph {
  stepMap : JMap.t TaskStep;
  inDegree : JMap.t Z;
  adjacency : JMap.t (list string)
}.

Definition empty_graph : Graph := mkGraph JMap.empty JMap.empty JMap.empty.

(** First loop: register every step. *)
Fixpoint init_graph (ss : list TaskStep) (g : Graph) : Graph :=
  match ss with
  | [] => g
  | step :: rest =>
      init_graph rest
        (mkGraph (JMap.set (stepMap g) (id step) step)
                 (JMap.set (inDegree g) (id step) 0%Z)
                 (JMap.set (adjacency g) (id step) []))
  end.

(** Inner loop of the second pass: the dependencies of one step. *)
Fixpoint add_dependencies (sid : string) (deps : list string) (g : Graph)
  : Completion Graph :=
  match deps with
  | [] => Normal g
  | depId :: rest =>
      if negb (JMap.has (stepMap g) depId) then Throw (DependencyNotFound depId)
      else
        match JMap.get (adjacency g) depId with
        | None => Throw UndefinedDereference
        | Some adj =>
            add_dependencies sid rest
              (mkGraph (stepMap g)
                 (JMap.set (inDegree g) sid
                    (match JMap.get (inDegree g) sid with
                     | Some d => d
                     | None => 0
                     end + 1)%Z)
                 (JMap.set (adjacency g) depId (adj ++ [sid])))
        end
  end.

(** Second loop: adjacency lists and in-degrees. *)
Fixpoint build_edges (ss : list TaskStep) (g : Graph) : Completion Graph :=
  match ss with
  | [] => Normal g
  | step :: rest =>
      match add_dependencies (id step) (dependencies step) g with
      | Normal g' => build_edges rest g'
      | Throw e => Throw e
      | NoFuel => NoFuel
      end
  end.

(** Everything [topologicalSort] does before the layering starts. *)
Definition build_graph (ss : list TaskStep) : Completion Graph :=
  build_edges ss (init_graph ss empty_graph).

(** [for (const [id, degree] of inDegree) if (degree === 0) queue.push(id)] *)
Definition initial_queue (deg : JMap.t Z) : list string :=
  map fst (filter (fun kv => Z.eqb (snd kv) 0) deg).

(** Inner [for] over the successors of one node. *)
Fixpoint relax (successors : list string) (deg : JMap.t Z)
  (nextQueue : list string) : JMap.t Z * list string :=
  match successors with
  | [] => (deg, nextQueue)
  | succId :: rest =>
      let newDegree :=
        (match JMap.get deg succId with Some d => d | None => 1 end - 1)%Z in
      relax rest (JMap.set deg succId newDegree)
        (if Z.eqb newDegree 0 then nextQueue ++ [succId] else nextQueue)
  end.

(** [for (const nodeId of queue)] *)
Fixpoint drain (queue : list string) (adj : JMap.t (list string))
  (deg : JMap.t Z) (nextQueue : list string) : JMap.t Z * list string :=
  match queue with
  | [] => (deg, nextQueue)
  | nodeId :: rest =>
      let successors :=
        match JMap.get adj nodeId with Some l => l | None => [] end in
      let '(deg', nq') := relax successors deg nextQueue in
      drain rest adj deg' nq'
  end.

(** [while (queue.length > 0)] *)
Fixpoint bfs (fuel : nat) (adj : JMap.t (list string)) (deg : JMap.t Z)
  (queue : list string) (layers : list (list string)) (processedCount : nat)
  : option (list (list string) * nat) :=
  match queue with
  | [] => Some (layers, processedCount)
  | _ :: _ =>
      match fuel with
      | O => None
      | S fuel' =>
          let '(deg', nextQueue) := drain queue adj deg [] in
          bfs fuel' adj deg' nextQueue (layers ++ [queue])
            (processedCount + length queue)
      end
  end.

(** The frontier loop and the final count check; [n] is [steps.length],
    which also bounds the number of rounds. *)
Definition layering (n : nat) (g : Graph) : Completion (list (list string)) :=
  match bfs n (adjacency g) (inDegree g) (initial_queue (inDegree g)) [] 0 with
  | None => NoFuel
  | Some (layers, processedCount) =>
      if Nat.eqb processedCount n then Normal layers
      else Throw CircularDependency
  end.

Definition topologicalSort (ss : list TaskStep) : Completion (list (list string)) :=
  match build_graph ss with
  | Normal g => layering (length ss) g
  | Throw e => Throw e
  | NoFuel => NoFuel
  end.

(* ================================================================== *)
(** ** Plan templates *)
(* ================================================================== *)

Module StepTemplate.
Record t := mk { type : TaskType; descriptionKey : string }.
End StepTemplate.

(** [dependencies] is a [Record<number, number[]>]: a table from step index
    to the indices it depends on. *)
Module PlanTemplate.
Record t := mk {
  steps : list StepTemplate.t;
  dependencies : list (nat * list nat)
}.
End PlanTemplate.

Definition getPlanTemplate (taskType : TaskType) : PlanTemplate.t :=
  if String.eqb taskType "strategy_generation" then
    PlanTemplate.mk
      [ StepTemplate.mk "competitor_analysis" "collect_competitor_data";
        StepTemplate.mk "trending_tracking" "collect_trending_data";
        StepTemplate.mk "strategy_generation" "generate_strategy";
        StepTemplate.mk "content_generation" "generate_strategy_content" ]
      [ (0, []); (1, []); (2, [0; 1]); (3, [2]) ]
  else if String.eqb taskType "content_publish" then
    PlanTemplate.mk
      [ StepTemplate.mk "content_generation" "prepare_content";
        StepTemplate.mk "content_publish" "publish_content" ]
      [ (0, []); (1, [0]) ]
  else if String.eqb taskType "operation_summary" then
    PlanTemplate.mk
      [ StepTemplate.mk "comment_analysis" "analyze_comments";
        StepTemplate.mk "operation_summary" "generate_summary" ]
      [ (0, []); (1, [0]) ]
  else
    PlanTemplate.mk
      [ StepTemplate.mk taskType ("execute_" ++ taskType)%string ]
      [ (0, []) ].

(** [template.dependencies[i] ?? []] *)
Fixpoint lookup_index (table : list (nat * list nat)) (i : nat) : list nat :=
  match table with
  | [] => []
  | (k, v) :: rest => if Nat.eqb k i then v else lookup_index rest i
  end.

(* ================================================================== *)
(** ** Identifier generation and plan building *)
(* ================================================================== *)

(** Module-level state of [task-orchestrator.ts].  [clockReads] counts the
    calls to [Date.now()] / [new Date()] made so far; the value of the n-th
    reading is given by an oracle [Date_now : nat -> Z]. *)
Record World := mkWorld {
  planStore : JMap.t ExecutionPlan;
  stepIndex : JMap.t string;
  planCounter : nat;
  stepCounter : nat;
  clockReads : nat
}.

Definition initial_world : World := mkWorld JMap.empty JMap.empty 0 0 0.

(** Template-literal interpolation of numbers. *)
Definition string_of_nat (n : nat) : string :=
  NilZero.string_of_uint (Nat.to_uint n).
Definition string_of_Z (z : Z) : string :=
  NilZero.string_of_int (Z.to_int z).

(** The template literals [`plan-${Date.now()}-${planCounter}`] and
    [`step-${Date.now()}-${stepCounter}`]. *)
Definition plan_id_text (t : Z) (c : nat) : string :=
  ("plan-" ++ string_of_Z t ++ "-" ++ string_of_nat c)%string.

Definition step_id_text (t : Z) (c : nat) : string :=
  ("step-" ++ string_of_Z t ++ "-" ++ string_of_nat c)%string.

Arguments plan_id_text : simpl never.
Arguments step_id_text : simpl never.

Section Orchestrator.

Variable Date_now : nat -> Z.

Definition generatePlanId (w : World) : string * World :=
  let planCounter' := S (planCounter w) in
  (plan_id_text (Date_now (clockReads w)) planCounter',
   mkWorld (planStore w) (stepIndex w) planCounter' (stepCounter w)
     (S (clockReads w))).

Definition generateStepId (w : World) : string * World :=
  let stepCounter' := S (stepCounter w) in
  (step_id_text (Date_now (clockReads w)) stepCounter',
   mkWorld (planStore w) (stepIndex w) (planCounter w) stepCounter'
     (S (clockReads w))).

(** First pass of [buildSteps]: one step per template entry, fresh id each. *)
Fixpoint create_steps (intent : ParsedIntent) (tpl : list StepTemplate.t)
  (stepIds : list string) (acc : list TaskStep) (w : World)
  : list string * list TaskStep * World :=
  match tpl with
  | [] => (stepIds, acc, w)
  | stepTemplate :: rest =>
      let '(i, w') := generateStepId w in
      create_steps intent rest (stepIds ++ [i])
        (acc ++ [mkTaskStep i (StepTemplate.type stepTemplate) []
           (JMap.set
              (JMap.set
                 (JMap.set (intent_parameters intent)
                    "platform" (VStr (platform intent)))
                 "category" (VStr (category intent)))
              "descriptionKey" (VStr (StepTemplate.descriptionKey stepTemplate)))
           pending None])
        w'
  end.

(** [depIndices.map(depIdx => stepIds[depIdx])].  An index outside [stepIds]
    would store [undefined], which is not a step id: [None]. *)
Fixpoint resolve_indices (stepIds : list string) (depIndices : list nat)
  : option (list string) :=
  match depIndices with
  | [] => Some []
  | depIdx :: rest =>
      match nth_error stepIds depIdx, resolve_indices stepIds rest with
      | Some i, Some l => Some (i :: l)
      | _, _ => None
      end
  end.

Definition with_dependencies (s : TaskStep) (deps : list string) : TaskStep :=
  mkTaskStep (id s) (type s) deps (parameters s) (status s) (result s).

(** Second pass of [buildSteps], from index [i] on. *)
Fixpoint fill_dependencies (table : list (nat * list nat))
  (stepIds : list string) (i : nat) (ss : list TaskStep)
  : option (list TaskStep) :=
  match ss with
  | [] => Some []
  | s :: rest =>
      match resolve_indices stepIds (lookup_index table i),
            fill_dependencies table stepIds (S i) rest with
      | Some deps, Some rest' => Some (with_dependencies s deps :: rest')
      | _, _ => None
      end
  end.

Definition buildSteps (intent : ParsedIntent) (template : PlanTemplate.t)
  (w : World) : option (list TaskStep) * World :=
  let '(stepIds, ss, w') :=
    create_steps intent (PlanTemplate.steps template) [] [] w in
  (fill_dependencies (PlanTemplate.dependencies template) stepIds 0 ss, w').

(** [for (const step of steps) stepIndex.set(step.id, planId)] *)
Fixpoint index_steps (ss : list TaskStep) (planId : string)
  (idx : JMap.t string) : JMap.t string :=
  match ss with
  | [] => idx
  | step :: rest => index_steps rest planId (JMap.set idx (id step) planId)
  end.

(** [createPlan].  [None] only if [buildSteps] left the typed model. *)
Definition createPlan (intent : ParsedIntent) (w : World)
  : option ExecutionPlan * World :=
  let template := getPlanTemplate (taskType intent) in
  match buildSteps intent template w with
  | (None, w1) => (None, w1)
  | (Some ss, w1) =>
      let '(planId, w2) := generatePlanId w1 in
      let plan :=
        mkExecutionPlan planId ss pending (Date_now (clockReads w2)) in
      (Some plan,
       mkWorld (JMap.set (planStore w2) planId plan)
         (index_steps ss planId (stepIndex w2))
         (planCounter w2) (stepCounter w2) (S (clockReads w2)))
  end.

End Orchestrator.

Definition clearAllPlans (w : World) : World :=
  mkWorld JMap.empty JMap.empty 0 0 (clockReads w).

(* ================================================================== *)
(** ** Plan execution *)
(* ================================================================== *)

(** What an executor's promise can do. *)
Inductive Settlement := Resolved (v : Value) | Rejected (t : Thrown).
Definition StepExecutor := TaskStep -> Settlement.

(** [error instanceof Error ? error.message : String(error)]: the text, or
    what [String] throws. *)
Definition error_text (t : Thrown) : string + Thrown :=
  match t with
  | ThrownError m => inl m
  | ThrownConvertible text => inl text
  | ThrownUnconvertible raised => inr raised
  end.

Definition error_result (msg : string) : Value := VObj [("error", VStr msg)].

(** Observable actions of the executor loop on a step. *)
Inductive Event :=
| Invoked (stepId : string)     (* [executor(step)] was called *)
| Cascaded (stepId : string).   (* marked failed without calling it *)

Definition event_step (e : Event) : string :=
  match e with Invoked i | Cascaded i => i end.


Definition with_status (s : TaskStep) (st : TaskStatus) : TaskStep :=
  mkTaskStep (id s) (type s) (dependencies s) (parameters s) st (result s).

Definition with_outcome (s : TaskStep) (st : TaskStatus) (r : Value)
  : TaskStep :=
  mkTaskStep (id s) (type s) (dependencies s) (parameters s) st (Some r).

(** Write through an object reference: update position [i] of [plan.steps]. *)
Fixpoint update_at (ss : list TaskStep) (i : nat) (f : TaskStep -> TaskStep)
  : list TaskStep :=
  match ss, i with
  | [], _ => []
  | s :: rest, O => f s :: rest
  | s :: rest, S i' => s :: update_at rest i' f
  end.

(** [for (const step of plan.steps) stepMap.set(step.id, step)], the step
    object being its position in [plan.steps]. *)
Fixpoint index_by_id (ss : list TaskStep) (i : nat) (m : JMap.t nat)
  : JMap.t nat :=
  match ss with
  | [] => m
  | step :: rest => index_by_id rest (S i) (JMap.set m (id step) i)
  end.

(** State of the executor loop. *)
Record ExecState := mkExecState {
  ex_steps : list TaskStep;
  failedStepIds : JSet.t;
  events : list Event
}.

(** The synchronous part of the async callback for every step of a layer,
    in layer order: the dependency check, and for a step that passes it the
    transition to [running] and the call of the executor.  The promises of
    the executors called are collected in [inflight]. *)
Fixpoint dispatch_layer (executor : StepExecutor) (refs : JMap.t nat)
  (layer : list string) (st : ExecState)
  (inflight : list (nat * string * Settlement))
  : Completion (ExecState * list (nat * string * Settlement)) :=
  match layer with
  | [] => Normal (st, inflight)
  | stepId :: rest =>
      match JMap.get refs stepId with
      | None => Throw UndefinedDereference
      | Some i =>
          match nth_error (ex_steps st) i with
          | None => Throw UndefinedDereference
          | Some step =>
              if existsb (JSet.has (failedStepIds st)) (dependencies step)
              then
                dispatch_layer executor refs rest
                  (mkExecState
                     (update_at (ex_steps st) i (fun s =>
                        with_outcome s failed
                          (error_result "Dependency step failed")))
                     (JSet.add (failedStepIds st) stepId)
                     (events st ++ [Cascaded stepId]))
                  inflight
              else
                let step' := with_status step running in
                dispatch_layer executor refs rest
                  (mkExecState
                     (update_at (ex_steps st) i (fun s => with_status s running))
                     (failedStepIds st)
                     (events st ++ [Invoked stepId]))
                  (inflight ++ [(i, stepId, executor step')])
          end
      end
  end.

(** The continuation after [await executor(step)] of one callback: the
    rest of the [try] block for a promise that resolved, the [catch] block
    for one that rejected.  The [catch] block writes the status before it
    evaluates [String(error)]; if that throws, the step is [failed] with
    its result as it was, its id is not added to [failedStepIds], and the
    callback's promise rejects with what was thrown. *)
Definition settle_call (c : nat * string * Settlement) (st : ExecState)
  : ExecState * option Thrown :=
  let '(i, stepId, o) := c in
  match o with
  | Resolved v =>
      (mkExecState
         (update_at (ex_steps st) i (fun s => with_outcome s completed v))
         (failedStepIds st) (events st),
       None)
  | Rejected t =>
      match error_text t with
      | inl msg =>
          (mkExecState
             (update_at (ex_steps st) i (fun s =>
                with_outcome s failed (error_result msg)))
             (JSet.add (failedStepIds st) stepId) (events st),
           None)
      | inr raised =>
          (mkExecState
             (update_at (ex_steps st) i (fun s => with_status s failed))
             (failedStepIds st) (events st),
           Some raised)
      end
  end.

(** The continuations of a layer in the order in which the promises
    settle, up to the first callback that rejects: [Promise.all] rejects
    with its reason.  The calls still in flight are returned with it. *)
Fixpoint settle_layer (inflight : list (nat * string * Settlement))
  (st : ExecState)
  : ExecState * option (Thrown * list (nat * string * Settlement)) :=
  match inflight with
  | [] => (st, None)
  | c :: rest =>
      match settle_call c st with
      | (st', None) => settle_layer rest st'
      | (st', Some raised) => (st', Some (raised, rest))
      end
  end.

(** Continuations that run although [Promise.all] has rejected; a further
    rejection among them has no effect on [Promise.all]. *)
Fixpoint settle_late (n : nat) (inflight : list (nat * string * Settlement))
  (st : ExecState) : ExecState :=
  match n, inflight with
  | S n', c :: rest => settle_late n' rest (fst (settle_call c st))
  | _, _ => st
  end.

(** What the program does not fix: the order in which the promises of one
    layer settle, and, when a callback rejects, how many of the other
    callbacks of the layer run before the rejection of [executePlan] is
    delivered.  A fair order neither drops nor invents a call. *)
Record Settling := mkSettling {
  settle_order :
    list (nat * string * Settlement) -> list (nat * string * Settlement);
  stragglers : nat
}.

Definition fair (order : Settling) : Prop :=
  forall l, Permutation (settle_order order l) l.

Definition in_call_order : Settling := mkSettling (fun l => l) 0.
Definition in_reverse_order : Settling := mkSettling (fun l => List.rev l) 0.

(** [for (const layer of layers)], with [await Promise.all(layerPromises)]
    as the barrier between layers; a rejection of [Promise.all] ends the
    loop and the call. *)
Fixpoint run_layers (executor : StepExecutor) (order : Settling)
  (refs : JMap.t nat) (layers : list (list string)) (st : ExecState)
  : Completion unit * ExecState :=
  match layers with
  | [] => (Normal tt, st)
  | layer :: rest =>
      match dispatch_layer executor refs layer st [] with
      | Normal (st', inflight) =>
          match settle_layer (settle_order order inflight) st' with
          | (st'', None) => run_layers executor order refs rest st''
          | (st'', Some (raised, unsettled)) =>
              (Throw (Raised raised),
               settle_late (stragglers order) unsettled st'')
          end
      | Throw e => (Throw e, st)
      | NoFuel => (NoFuel, st)
      end
  end.

(** The plan status after all layers. *)
Definition final_status (ss : list TaskStep) (current : PlanStatus)
  : PlanStatus :=
  let hasFailedSteps :=
    existsb (fun s => TaskStatus_eqb (status s) failed) ss in
  let allCompleted :=
    forallb (fun s => TaskStatus_eqb (status s) completed) ss in
  if allCompleted then completed
  else if hasFailedSteps then failed
  else current.

Definition store_plan (w : World) (planId : string) (plan : ExecutionPlan)
  : World :=
  mkWorld (JMap.set (planStore w) planId plan) (stepIndex w)
    (planCounter w) (stepCounter w) (clockReads w).

(** [executePlan]: the way the call ends, the world it leaves, and the
    executor-loop events in order. *)
Definition executePlan (planId : string) (executor : StepExecutor)
  (order : Settling) (w : World) : Completion unit * World * list Event :=
  match JMap.get (planStore w) planId with
  | None => (Throw (PlanNotFound planId), w, [])
  | Some plan =>
      let w1 :=
        store_plan w planId
          (mkExecutionPlan (plan_id plan) (steps plan) running
             (createdAt plan)) in
      let refs := index_by_id (steps plan) 0 JMap.empty in
      match topologicalSort (steps plan) with
      | Throw e => (Throw e, w1, [])
      | NoFuel => (NoFuel, w1, [])
      | Normal layers =>
          match run_layers executor order refs layers
                  (mkExecState (steps plan) JSet.empty []) with
          | (Normal _, st) =>
              (Normal tt,
               store_plan w planId
                 (mkExecutionPlan (plan_id plan) (ex_steps st)
                    (final_status (ex_steps st) running) (createdAt plan)),
               events st)
          | (Throw e, st) =>
              (Throw e,
               store_plan w planId
                 (mkExecutionPlan (plan_id plan) (ex_steps st) running
                    (createdAt plan)),
               events st)
          | (NoFuel, st) =>
              (NoFuel,
               store_plan w planId
                 (mkExecutionPlan (plan_id plan) (ex_steps st) running
                    (createdAt plan)),
               events st)
          end
      end
  end.

(** [getPlan] and [getTaskStatus]. *)
Definition getPlan (w : World) (planId : string) : option ExecutionPlan :=
  JMap.get (planStore w) planId.

(** [plan.steps.find(s => s.id === taskId)] *)
Definition find_step (plan : ExecutionPlan) (taskId : string)
  : option TaskStep :=
  find (fun s => String.eqb (id s) taskId) (steps plan).

Definition getTaskStatus (w : World) (taskId : string)
  : Completion TaskStatus :=
  match JMap.get (stepIndex w) taskId with
  | None => Throw (TaskStepNotFound taskId)
  | Some planId =>
      match JMap.get (planStore w) planId with
      | None => Throw (PlanNotFound planId)
      | Some plan =>
          match find_step plan taskId with
          | None => Throw (TaskStepNotFound taskId)
          | Some step => Normal (status step)
          end
      end
  end.

(* ================================================================== *)
(** ** Vocabulary of the specification *)
(* ================================================================== *)

Definition step_ids (ss : list TaskStep) : list string := map id ss.

(** [depends_on ss x d]: some step with id [x] lists [d] as a dependency. *)
Definition depends_on (ss : list TaskStep) (x d : string) : Prop :=
  exists s, In s ss /\ id s = x /\ In d (dependencies s).

(** Every dependency id names a step of the list. *)
Definition deps_resolve (ss : list TaskStep) : Prop :=
  forall s d, In s ss -> In d (dependencies s) -> In d (step_ids ss).

Definition has_cycle (ss : list TaskStep) : Prop :=
  exists x, clos_trans string (depends_on ss) x x.

Definition acyclic (ss : list TaskStep) : Prop :=
  forall x, ~ clos_trans string (depends_on ss) x x.

(** [x] occurs before [y] in [l]. *)
Definition before (l : list string) (x y : string) : Prop :=
  exists l1 l2 l3, l = l1 ++ x :: l2 ++ y :: l3.

(** [x] lies in a layer strictly earlier than the layer of [y]. *)
Definition earlier_layer (layers : list (list string)) (x y : string) : Prop :=
  exists L1 lx L2 ly L3,
    layers = L1 ++ lx :: L2 ++ ly :: L3 /\ In x lx /\ In y ly.

(** The step as [executor(step)] receives it: [running], everything else
    as it was. *)
Definition handed_over (s0 : TaskStep) : TaskStep :=
  mkTaskStep (id s0) (type s0) (dependencies s0) (parameters s0) running
    (result s0).

(** Whatever the executor throws for a step of [ss] can be turned into a
    message: it is an [Error], or [String] converts it. *)
Definition throws_messages (executor : StepExecutor) (ss : list TaskStep)
  : Prop :=
  forall s0 raised, In s0 ss ->
    executor (handed_over s0) <> Rejected (ThrownUnconvertible raised).

(** The three ways a step ends: [completed] with the value of the promise,
    [failed] with an error message, and [failed] by the [catch] block
    before [String(error)] threw; nothing else of the step [s0] changes. *)
Definition completed_with (s0 : TaskStep) (v : Value) : TaskStep :=
  mkTaskStep (id s0) (type s0) (dependencies s0) (parameters s0) completed
    (Some v).

Definition failed_with (s0 : TaskStep) (msg : string) : TaskStep :=
  mkTaskStep (id s0) (type s0) (dependencies s0) (parameters s0) failed
    (Some (VObj [("error", VStr msg)])).

Definition failed_bare (s0 : TaskStep) : TaskStep :=
  mkTaskStep (id s0) (type s0) (dependencies s0) (parameters s0) failed
    (result s0).

(** What the [try]/[catch] around [await executor(step)] leaves of the
    step [s0] when the promise has settled as [o]. *)
Definition settled_as (o : Settlement) (s0 : TaskStep) : TaskStep :=
  match o with
  | Resolved v => completed_with s0 v
  | Rejected (ThrownError message) => failed_with s0 message
  | Rejected (ThrownConvertible text) => failed_with s0 text
  | Rejected (ThrownUnconvertible _) => failed_bare s0
  end.

(* ================================================================== *)
(** ** Notions used in the proofs *)
(* ================================================================== *)

(** Dependency edges [(dependency, dependent)] in the order in which the
    second loop of [topologicalSort] visits them. *)
Definition edges (ss : list TaskStep) : list (string * string) :=
  flat_map (fun s => map (fun d => (d, id s)) (dependencies s)) ss.

Definition mem (x : string) (l : list string) : bool :=
  existsb (String.eqb x) l.

(** Successor occurrences of [q], in edge order. *)
Definition succs (es : list (string * string)) (q : string) : list string :=
  map snd (filter (fun e => String.eqb (fst e) q) es).

(** Number of edges into [x]. *)
Definition indeg (es : list (string * string)) (x : string) : nat :=
  length (filter (fun e => String.eqb (snd e) x) es).

(** Number of edges into [x] whose source is not in [P]. *)
Definition rem (es : list (string * string)) (P : list string) (x : string)
  : nat :=
  length (filter (fun e => String.eqb (snd e) x && negb (mem (fst e) P)) es).

(** Number of edges into [x] whose source is in [Q]. *)
Definition inq (es : list (string * string)) (Q : list string) (x : string)
  : nat :=
  length (filter (fun e => String.eqb (snd e) x && mem (fst e) Q) es).

(** One iteration of the inner loop of the second pass. *)
Definition add_edge (g : Graph) (e : string * string) : Completion Graph :=
  add_dependencies (snd e) [fst e] g.

Fixpoint add_edges (es : list (string * string)) (g : Graph)
  : Completion Graph :=
  match es with
  | [] => Normal g
  | e :: rest =>
      match add_edge g e with
      | Normal g' => add_edges rest g'
      | Throw x => Throw x
      | NoFuel => NoFuel
      end
  end.

(** The graph maps describe the edge list [es] over the key list [K]. *)
Record graph_for (K : list string) (es : list (string * string)) (g : Graph)
  : Prop := {
  gf_keys : JMap.keys (inDegree g) = K;
  gf_nodup : NoDup K;
  gf_has : forall k, JMap.has (stepMap g) k = true <-> In k K;
  gf_adj : forall k, In k K -> JMap.get (adjacency g) k = Some (succs es k);
  gf_deg : forall k, In k K ->
             JMap.get (inDegree g) k = Some (Z.of_nat (indeg es k))
}.

(** Loop invariant of the frontier loop: [P] is the concatenation of the
    layers emitted so far, [queue] the current frontier. *)
Record bfs_inv (K : list string) (es : list (string * string))
  (deg : JMap.t Z) (P queue : list string) : Prop := {
  bi_deg : forall x, In x K ->
             JMap.get deg x = Some (Z.of_nat (rem es P x));
  bi_nodup : NoDup (P ++ queue);
  bi_incl : forall x, In x (P ++ queue) -> In x K;
  bi_zero : forall x, In x K -> (In x (P ++ queue) <-> rem es P x = 0%nat)
}.

(** Every edge into a member of a layer starts in an earlier layer. *)
Definition layered (es : list (string * string)) (layers : list (list string))
  : Prop :=
  forall L1 l L2 x d,
    layers = L1 ++ l :: L2 -> In x l -> In (d, x) es -> In d (concat L1).

(** [chain R x l]: a walk that starts at [x] and visits [l] in order. *)
Fixpoint chain (R : string -> string -> Prop) (x : string) (l : list string)
  : Prop :=
  match l with
  | [] => True
  | y :: l' => R x y /\ chain R y l'
  end.


(** A step is terminal once it is [completed] or [failed]. *)
Definition terminal (s : TaskStep) : Prop :=
  status s = completed \/ status s = failed.

(** [refs] sends every id of [ids] to the one position that holds it. *)
Definition refs_for (ids : list string) (refs : JMap.t nat) : Prop :=
  forall x, In x ids ->
    exists i, JMap.get refs x = Some i /\ nth_error ids i = Some x
              /\ forall j, nth_error ids j = Some x -> j = i.

(** [n] successive calls of [generateStepId]. *)
Fixpoint generate_ids (Date_now : nat -> Z) (n : nat) (w : World)
  : list string * World :=
  match n with
  | O => ([], w)
  | S k =>
      let '(i, w1) := generateStepId Date_now w in
      let '(l, w2) := generate_ids Date_now k w1 in
      (i :: l, w2)
  end.

(** No character of the string is a hyphen. *)
Fixpoint dash_free (s : string) : Prop :=
  match s with
  | EmptyString => True
  | String c s' => c <> "-"%char /\ dash_free s'
  end.

(* ================================================================== *)
(** ** Fixtures of the orchestrator's unit tests *)
(* ================================================================== *)

Definition test_step (i : string) (deps : list string) : TaskStep :=
  mkTaskStep i "competitor_analysis" deps [] pending None.

Definition diamond_steps : list TaskStep :=
  [test_step "a" []; test_step "b" ["a"];
   test_step "c" ["a"]; test_step "d" ["b"; "c"]].

Definition two_cycle_steps : list TaskStep :=
  [test_step "a" ["b"]; test_step "b" ["a"]].

Definition missing_dep_steps : list TaskStep :=
  [test_step "a" ["nonexistent"]].

(** Two steps that share one id. *)
Definition duplicate_id_steps : list TaskStep :=
  [test_step "a" []; test_step "a" []].

(** A stored diamond plan and an executor that rejects for step [b]. *)
Definition diamond_plan : ExecutionPlan :=
  mkExecutionPlan "plan-1" diamond_steps pending 0.

Definition diamond_world : World :=
  mkWorld [("plan-1", diamond_plan)]
    [("a", "plan-1"); ("b", "plan-1"); ("c", "plan-1"); ("d", "plan-1")]
    1 4 0.

Definition fail_b : StepExecutor :=
  fun s => if String.eqb (id s) "b" then Rejected (ThrownError "boom")
           else Resolved (VStr (id s)).

(** A stored plan with a two-step cycle. *)
Definition cycle_world : World :=
  mkWorld [("plan-1", mkExecutionPlan "plan-1" two_cycle_steps pending 0)]
    [("a", "plan-1"); ("b", "plan-1")] 1 2 0.




(** An executor that throws for step "a" a value that [String] cannot
    convert, as [throw { toString: 1 }] does. *)
Definition type_error : Thrown :=
  ThrownError "Cannot convert object to primitive value".

Definition defeat_a : StepExecutor :=
  fun s => if String.eqb (id s) "a"
           then Rejected (ThrownUnconvertible type_error)
           else Resolved (VStr (id s)).

(** The intent of [createTestIntent] with a task type, and a clock that
    stands still. *)
Definition test_intent (taskType : TaskType) : ParsedIntent :=
  mkParsedIntent taskType "xiaohongshu" "beauty"
    [("rawInput", VStr "analyse the competitors")].

Definition frozen_clock : nat -> Z := fun _ => 1700000000000%Z.

(* ================================================================== *)
(** ** The remaining accessors, and notions for the extended properties *)
(* ================================================================== *)

(** [getAllPlans]: [Array.from(planStore.values())] *)
Definition getAllPlans (w : World) : list ExecutionPlan :=
  map snd (planStore w).

(** Two versions of a step that differ at most in [status] and [result]. *)
Definition static_eq (s s' : TaskStep) : Prop :=
  id s' = id s /\ type s' = type s /\
  dependencies s' = dependencies s /\ parameters s' = parameters s.

(** Consistency of the two stores and the plan counter. *)
Record store_wf (w : World) : Prop := {
  sw_plans : forall k, In k (JMap.keys (planStore w)) ->
               exists t c, k = plan_id_text t c /\ c <= planCounter w;
  sw_index : forall x p, JMap.get (stepIndex w) x = Some p ->
               exists plan, JMap.get (planStore w) p = Some plan
                            /\ In x (step_ids (steps plan))
}.

(** Worlds reached from the initial one through the exported operations. *)
Inductive reachable (Date_now : nat -> Z) : World -> Prop :=
| reach_initial : reachable Date_now initial_world
| reach_createPlan w intent :
    reachable Date_now w ->
    reachable Date_now (snd (createPlan Date_now intent w))
| reach_executePlan w planId executor order :
    reachable Date_now w ->
    reachable Date_now (snd (fst (executePlan planId executor order w)))
| reach_clearAllPlans w :
    reachable Date_now w -> reachable Date_now (clearAllPlans w)
| reach_generatePlanId w :
    reachable Date_now w ->
    reachable Date_now (snd (generatePlanId Date_now w))
| reach_generateStepId w :
    reachable Date_now w ->
    reachable Date_now (snd (generateStepId Date_now w)).

(** Worlds reached from [w] through the exported operations other than
    [clearAllPlans]. *)
Inductive advances (Date_now : nat -> Z) (w : World) : World -> Prop :=
| adv_here : advances Date_now w w
| adv_createPlan w' intent :
    advances Date_now w w' ->
    advances Date_now w (snd (createPlan Date_now intent w'))
| adv_executePlan w' planId executor order :
    advances Date_now w w' ->
    advances Date_now w (snd (fst (executePlan planId executor order w')))
| adv_generatePlanId w' :
    advances Date_now w w' ->
    advances Date_now w (snd (generatePlanId Date_now w'))
| adv_generateStepId w' :
    advances Date_now w w' ->
    advances Date_now w (snd (generateStepId Date_now w')).

(** What the first pass of [buildSteps] puts into a step made from the
    template entry [st]. *)
Definition built_from (intent : ParsedIntent) (st : StepTemplate.t)
  (s : TaskStep) : Prop :=
  type s = StepTemplate.type st /\
  result s = None /\
  JMap.get (parameters s) "platform" = Some (VStr (platform intent)) /\
  JMap.get (parameters s) "category" = Some (VStr (category intent)) /\
  JMap.get (parameters s) "descriptionKey"
    = Some (VStr (StepTemplate.descriptionKey st)) /\
  forall k, k <> "platform" -> k <> "category" -> k <> "descriptionKey" ->
    JMap.get (parameters s) k = JMap.get (intent_parameters intent) k.

(** Every member of a layer has an edge from the layer just before it. *)
Definition tight (es : list (string * string)) (Ls : list (list string))
  : Prop :=
  forall L1 p l L2 x,
    Ls = L1 ++ p :: l :: L2 -> In x l -> exists d, In d p /\ In (d, x) es.

(* ================================================================== *)
(** ** The outcome of a step in terms of its dependencies *)
(* ================================================================== *)

(** The settlement of the executor's promise for a step, as the step was
    before the run started. *)
Definition settlement_for (executor : StepExecutor) (s0 : TaskStep)
  : Settlement :=
  executor (with_status s0 running).

(** The [try]/[catch] after [await executor(step)]. *)
Definition settle_step (o : Settlement) (s : TaskStep) : TaskStep :=
  match o with
  | Resolved v => with_outcome s completed v
  | Rejected t =>
      match error_text t with
      | inl msg => with_outcome s failed (error_result msg)
      | inr _ => with_status s failed
      end
  end.

(** [String] can convert what the promise rejects with, if it rejects. *)
Definition converts (o : Settlement) : Prop :=
  match o with
  | Rejected (ThrownUnconvertible _) => False
  | _ => True
  end.

(** The [hasFailedDependency] branch. *)
Definition cascade_step (s : TaskStep) : TaskStep :=
  with_outcome s failed (error_result "Dependency step failed").

(** [step.dependencies.some(depId => failedStepIds.has(depId))] *)
Definition dep_failed (fs : JSet.t) (s0 : TaskStep) : bool :=
  existsb (JSet.has fs) (dependencies s0).

Definition dep_failed_id (ss0 : list TaskStep) (fs : JSet.t) (x : string)
  : bool :=
  existsb (fun s0 => String.eqb (id s0) x && dep_failed fs s0) ss0.

(** What a step becomes once it has had its turn. *)
Definition verdict (executor : StepExecutor) (fs : JSet.t) (s0 : TaskStep)
  : TaskStep :=
  if dep_failed fs s0 then cascade_step s0
  else settle_step (settlement_for executor s0) s0.

(** A step between two layers: decided if its id is in [Pd], else as it
    was. *)
Definition view (executor : StepExecutor) (fs : JSet.t) (Pd : list string)
  (s0 : TaskStep) : TaskStep :=
  if mem (id s0) Pd then verdict executor fs s0 else s0.

(** A step while the layer is being dispatched: [l1] is the part of the
    layer already dispatched. *)
Definition dview (executor : StepExecutor) (fs : JSet.t)
  (Pd l1 : list string) (s0 : TaskStep) : TaskStep :=
  if mem (id s0) Pd then verdict executor fs s0
  else if mem (id s0) l1 then
    (if dep_failed fs s0 then cascade_step s0 else with_status s0 running)
  else s0.

Definition event_for (cascaded : bool) (x : string) : Event :=
  if cascaded then Cascaded x else Invoked x.

Definition is_rejected (o : Settlement) : bool :=
  match o with Rejected _ => true | Resolved _ => false end.

Definition entry_id (e : nat * string * Settlement) : string := snd (fst e).

(** The calls in flight are those of the dispatched steps of the layer
    that have no failed dependency. *)
Definition inflight_ok (executor : StepExecutor) (ss0 : list TaskStep)
  (fs : JSet.t) (l : list string)
  (infl : list (nat * string * Settlement)) : Prop :=
  (forall e, In e infl ->
     exists i s0, nth_error ss0 i = Some s0 /\ In (id s0) l /\
                  dep_failed fs s0 = false /\
                  e = (i, id s0, settlement_for executor s0)) /\
  (forall s0, In s0 ss0 -> In (id s0) l -> dep_failed fs s0 = false ->
     In (id s0) (map entry_id infl)).

(** Invariant of the executor loop between layers; [Pd] is the
    concatenation of the layers already run. *)
Record run_inv (executor : StepExecutor) (ss0 : list TaskStep)
  (Pd : list string) (st : ExecState) : Prop := {
  ri_steps : ex_steps st = map (view executor (failedStepIds st) Pd) ss0;
  ri_sub : forall x, JSet.has (failedStepIds st) x = true -> In x Pd;
  ri_failed : forall s0, In s0 ss0 -> In (id s0) Pd ->
    (JSet.has (failedStepIds st) (id s0) = true <->
     status (verdict executor (failedStepIds st) s0) = failed);
  ri_deps : forall s0 d, In s0 ss0 -> In (id s0) Pd ->
    In d (dependencies s0) -> In d Pd;
  ri_events : events st
    = map (fun x => event_for (dep_failed_id ss0 (failedStepIds st) x) x) Pd
}.

(** Phrased on the steps a run leaves behind: the step with id [d] ended
    [failed]; some dependency of [s0] ended [failed]. *)
Definition ended_failed (final : list TaskStep) (d : string) : bool :=
  existsb (fun s => String.eqb (id s) d && TaskStatus_eqb (status s) failed)
    final.

Definition has_failed_dependency (final : list TaskStep) (s0 : TaskStep)
  : bool :=
  existsb (ended_failed final) (dependencies s0).

(** A step after the run, given the steps the run leaves behind. *)
Definition outcome (executor : StepExecutor) (final : list TaskStep)
  (s0 : TaskStep) : TaskStep :=
  if has_failed_dependency final s0 then cascade_step s0
  else settle_step (settlement_for executor s0) s0.

(** The same, spelled out on the fields of the step: [s] is what the run
    leaves of the step [s0]. *)
Definition step_outcome (executor : StepExecutor) (final : list TaskStep)
  (s0 s : TaskStep) : Prop :=
  if has_failed_dependency final s0
  then s = failed_with s0 "Dependency step failed"
  else s = settled_as (executor (handed_over s0)) s0.

(** The step with id [x] had a dependency that ended [failed]. *)
Definition cascaded_id (ss0 final : list TaskStep) (x : string) : bool :=
  existsb (fun s0 => String.eqb (id s0) x && has_failed_dependency final s0)
    ss0.

(* ================================================================== *)
(** * Properties *)
(* ================================================================== *)

(* ------------------------------------------------------------------ *)
(** *** Facts about [JMap] *)
(* ------------------------------------------------------------------ *)

Section JMapFacts.
Context {V : Type}.
Implicit Types (m : JMap.t V) (k : string) (v : V).

Lemma get_set_same m k v : JMap.get (JMap.set m k v) k = Some v.
Proof.
  induction m as [|[k' v'] m IH]; simpl.
  - now rewrite String.eqb_refl.
  - destruct (String.eqb k' k) eqn:E; simpl; rewrite E; auto.
Qed.

Lemma get_set_other m k k' v :
  k <> k' -> JMap.get (JMap.set m k v) k' = JMap.get m k'.
Proof.
  intros Hne. induction m as [|[k0 v0] m IH]; simpl.
  - destruct (String.eqb_spec k k'); congruence.
  - destruct (String.eqb_spec k0 k) as [->|Hk]; simpl.
    + destruct (String.eqb_spec k k'); congruence.
    + now rewrite IH.
Qed.

Lemma get_set m k k' v :
  JMap.get (JMap.set m k v) k' =
  if String.eqb k k' then Some v else JMap.get m k'.
Proof.
  destruct (String.eqb_spec k k') as [<-|Hne].
  - apply get_set_same.
  - now apply get_set_other.
Qed.

Lemma in_keys_get m k : In k (JMap.keys m) <-> JMap.get m k <> None.
Proof.
  induction m as [|[k' v'] m IH]; simpl.
  - split; [tauto | congruence].
  - destruct (String.eqb_spec k' k) as [->|Hne].
    + split; [congruence | auto].
    + rewrite <- IH. split; [intros [?|?]; [congruence | auto] | auto].
Qed.

Lemma has_true_iff m k : JMap.has m k = true <-> In k (JMap.keys m).
Proof.
  rewrite in_keys_get. unfold JMap.has.
  destruct (JMap.get m k); split; congruence.
Qed.

Lemma keys_set_present m k v :
  In k (JMap.keys m) -> JMap.keys (JMap.set m k v) = JMap.keys m.
Proof.
  induction m as [|[k' v'] m IH]; simpl; [tauto|].
  intros H. destruct (String.eqb_spec k' k) as [->|Hne]; simpl; auto.
  f_equal. apply IH. destruct H; congruence.
Qed.

Lemma keys_set_absent m k v :
  ~ In k (JMap.keys m) -> JMap.keys (JMap.set m k v) = JMap.keys m ++ [k].
Proof.
  induction m as [|[k' v'] m IH]; simpl; auto.
  intros H. destruct (String.eqb_spec k' k) as [->|Hne]; simpl.
  - tauto.
  - f_equal. apply IH. tauto.
Qed.

Lemma keys_set_NoDup m k v :
  NoDup (JMap.keys m) -> NoDup (JMap.keys (JMap.set m k v)).
Proof.
  intros Hnd. destruct (in_dec string_dec k (JMap.keys m)) as [Hin|Hnin].
  - now rewrite keys_set_present.
  - rewrite keys_set_absent by assumption.
    apply NoDup_app; auto.
    + constructor; [simpl; tauto | constructor].
    + intros a Ha [<-|[]]. contradiction.
Qed.

Lemma in_keys_set m k v k' :
  In k' (JMap.keys (JMap.set m k v)) <-> k' = k \/ In k' (JMap.keys m).
Proof.
  rewrite !in_keys_get, get_set.
  destruct (String.eqb_spec k k') as [->|Hne].
  - split; [auto | congruence].
  - split; [auto | intros [->|]; [congruence | auto]].
Qed.

Lemma in_map_get m k v :
  NoDup (JMap.keys m) -> (In (k, v) m <-> JMap.get m k = Some v).
Proof.
  induction m as [|[k' v'] m IH]; simpl.
  - split; [tauto | congruence].
  - intros Hnd. inversion Hnd as [|? ? Hnin Hnd']; subst.
    destruct (String.eqb_spec k' k) as [->|Hne].
    + split.
      * intros [H|H]; [congruence|].
        exfalso. apply Hnin. change k with (fst (k, v)). now apply in_map.
      * intros H. left. congruence.
    + rewrite <- IH by assumption.
      split; [intros [H|H]; [congruence | auto] | auto].
Qed.
End JMapFacts.

(** Test vectors of the orchestrator's unit tests. *)
Example topologicalSort_single :
  topologicalSort [test_step "a" []] = Normal [["a"]].
Proof. reflexivity. Qed.

Example topologicalSort_diamond :
  topologicalSort [test_step "a" []; test_step "b" ["a"];
                   test_step "c" ["a"]; test_step "d" ["b"; "c"]]
  = Normal [["a"]; ["b"; "c"]; ["d"]].
Proof. reflexivity. Qed.

Example topologicalSort_two_cycle :
  topologicalSort [test_step "a" ["b"]; test_step "b" ["a"]]
  = Throw CircularDependency.
Proof. reflexivity. Qed.

Example topologicalSort_missing :
  topologicalSort [test_step "a" ["nonexistent"]]
  = Throw (DependencyNotFound "nonexistent").
Proof. reflexivity. Qed.

Example topologicalSort_empty : topologicalSort [] = Normal [].
Proof. reflexivity. Qed.

(* ------------------------------------------------------------------ *)
(** *** The graph built by the first two loops *)
(* ------------------------------------------------------------------ *)

Lemma mem_In x l : mem x l = true <-> In x l.
Proof.
  unfold mem. rewrite existsb_exists. split.
  - intros [y [Hy E]]. apply String.eqb_eq in E. now subst.
  - intros H. exists x. split; [assumption | apply String.eqb_refl].
Qed.

Lemma mem_false x l : mem x l = false <-> ~ In x l.
Proof.
  rewrite <- mem_In. destruct (mem x l); split; congruence.
Qed.

Lemma mem_cons x a l : mem x (a :: l) = String.eqb x a || mem x l.
Proof. reflexivity. Qed.

Lemma add_edges_app es1 es2 g :
  add_edges (es1 ++ es2) g =
  match add_edges es1 g with
  | Normal g' => add_edges es2 g'
  | Throw x => Throw x
  | NoFuel => NoFuel
  end.
Proof.
  revert g. induction es1 as [|e es1 IH]; intros g; simpl; auto.
  destruct (add_edge g e); auto.
Qed.

Lemma add_dependencies_edges sid deps g :
  add_dependencies sid deps g = add_edges (map (fun d => (d, sid)) deps) g.
Proof.
  revert g. induction deps as [|d deps IH]; intros g; simpl; auto.
  unfold add_edge; simpl.
  destruct (negb (JMap.has (stepMap g) d)); auto.
  destruct (JMap.get (adjacency g) d); auto.
Qed.

Lemma build_edges_flat ss g : build_edges ss g = add_edges (edges ss) g.
Proof.
  revert g. induction ss as [|s ss IH]; intros g; simpl; auto.
  unfold edges; simpl. fold (edges ss).
  rewrite add_edges_app, add_dependencies_edges.
  destruct (add_edges _ g); auto.
Qed.

Lemma succs_snoc es e q :
  succs (es ++ [e]) q =
  succs es q ++ (if String.eqb (fst e) q then [snd e] else []).
Proof.
  unfold succs. rewrite filter_app, map_app. simpl.
  destruct (String.eqb (fst e) q); reflexivity.
Qed.

Lemma indeg_snoc es e x :
  indeg (es ++ [e]) x =
  (indeg es x + (if String.eqb (snd e) x then 1 else 0))%nat.
Proof.
  unfold indeg. rewrite filter_app, length_app. simpl.
  destruct (String.eqb (snd e) x); reflexivity.
Qed.

Lemma add_edge_graph_for K es g d x :
  graph_for K es g -> In d K -> In x K ->
  exists g', add_edge g (d, x) = Normal g' /\ graph_for K (es ++ [(d, x)]) g'.
Proof.
  intros [Hk Hnd Hhas Hadj Hdeg] Hd Hx.
  unfold add_edge; simpl.
  apply Hhas in Hd as Hd'. rewrite Hd'; simpl.
  rewrite (Hadj d Hd), (Hdeg x Hx).
  eexists; split; [reflexivity|].
  constructor; simpl; auto.
  - rewrite keys_set_present; auto. now rewrite Hk.
  - intros k Hkin. rewrite get_set, succs_snoc; simpl.
    destruct (String.eqb_spec d k) as [->|Hne].
    + reflexivity.
    + now rewrite app_nil_r, Hadj.
  - intros k Hkin. rewrite get_set, indeg_snoc; simpl.
    destruct (String.eqb_spec x k) as [->|Hne].
    + f_equal. lia.
    + rewrite Hdeg by assumption. f_equal. lia.
Qed.

Lemma add_edges_graph_for K es acc g :
  graph_for K acc g ->
  (forall e, In e es -> In (fst e) K /\ In (snd e) K) ->
  exists g', add_edges es g = Normal g' /\ graph_for K (acc ++ es) g'.
Proof.
  revert acc g. induction es as [|[d x] es IH]; intros acc g Hg Hes; simpl.
  - exists g. now rewrite app_nil_r.
  - destruct (Hes (d, x) (or_introl eq_refl)) as [Hd Hx]; simpl in *.
    destruct (add_edge_graph_for K acc g d x Hg Hd Hx) as [g1 [E1 Hg1]].
    rewrite E1.
    destruct (IH (acc ++ [(d, x)]) g1 Hg1) as [g2 [E2 Hg2]].
    + intros e He. apply Hes. now right.
    + exists g2. split; [assumption|]. now rewrite <- app_assoc in Hg2.
Qed.

Lemma add_edges_not_found K es acc g :
  graph_for K acc g ->
  (forall e, In e es -> In (snd e) K) ->
  (exists e, In e es /\ ~ In (fst e) K) ->
  exists d, add_edges es g = Throw (DependencyNotFound d)
            /\ ~ In d K /\ In d (map fst es).
Proof.
  revert acc g. induction es as [|[d x] es IH]; intros acc g Hg Hsnd Hex.
  - destruct Hex as [e [[] _]].
  - simpl. destruct (in_dec string_dec d K) as [Hd|Hd].
    + assert (Hx : In x K) by (apply (Hsnd (d, x)); now left).
      destruct (add_edge_graph_for K acc g d x Hg Hd Hx) as [g1 [E1 Hg1]].
      rewrite E1.
      destruct (IH (acc ++ [(d, x)]) g1 Hg1) as [d' [E2 [Hn Hin]]].
      * intros e He. apply Hsnd. now right.
      * destruct Hex as [e [[<-|He] Hne]]; [contradiction|]. now exists e.
      * exists d'. auto.
    + exists d. unfold add_edge; simpl.
      assert (Hh : JMap.has (stepMap g) d = false).
      { destruct (JMap.has (stepMap g) d) eqn:E; auto.
        apply (gf_has _ _ _ Hg) in E. contradiction. }
      rewrite Hh; simpl. auto.
Qed.

(** The first loop registers exactly the step ids, each once, in order of
    first occurrence. *)
Lemma init_graph_keys ss g :
  JMap.keys (stepMap g) = JMap.keys (inDegree g) ->
  JMap.keys (adjacency g) = JMap.keys (inDegree g) ->
  let g' := init_graph ss g in
  JMap.keys (stepMap g') = JMap.keys (inDegree g') /\
  JMap.keys (adjacency g') = JMap.keys (inDegree g') /\
  (forall k, In k (JMap.keys (inDegree g')) <->
             In k (JMap.keys (inDegree g)) \/ In k (step_ids ss)) /\
  (NoDup (JMap.keys (inDegree g)) -> NoDup (JMap.keys (inDegree g'))) /\
  (forall k, JMap.get (adjacency g') k =
             if mem k (step_ids ss) then Some [] else JMap.get (adjacency g) k) /\
  (forall k, JMap.get (inDegree g') k =
             if mem k (step_ids ss) then Some 0%Z else JMap.get (inDegree g) k).
Proof.
  revert g. induction ss as [|s ss IH]; intros g H1 H2; simpl.
  - repeat split; auto; tauto.
  - set (g1 := mkGraph _ _ _).
    assert (K1 : JMap.keys (stepMap g1) = JMap.keys (inDegree g1)).
    { simpl. destruct (in_dec string_dec (id s) (JMap.keys (inDegree g))).
      - rewrite !keys_set_present; congruence.
      - rewrite !keys_set_absent; congruence. }
    assert (K2 : JMap.keys (adjacency g1) = JMap.keys (inDegree g1)).
    { simpl. destruct (in_dec string_dec (id s) (JMap.keys (inDegree g))).
      - rewrite !keys_set_present; congruence.
      - rewrite !keys_set_absent; congruence. }
    destruct (IH g1 K1 K2) as [A [B [C [D [E F]]]]].
    change (step_ids (s :: ss)) with (id s :: step_ids ss).
    repeat split; auto.
    + intros H. apply C in H. simpl in H. rewrite in_keys_set in H.
      simpl. destruct H as [[->|H]|H]; auto.
    + intros H. apply C. simpl. rewrite in_keys_set.
      simpl in H. destruct H as [H|[H|H]]; auto.
    + intros H. apply D. simpl. now apply keys_set_NoDup.
    + intros k. rewrite E. simpl adjacency. rewrite get_set.
      rewrite (String.eqb_sym k (id s)).
      destruct (mem k (step_ids ss)); [now rewrite orb_true_r|].
      now rewrite orb_false_r.
    + intros k. rewrite F. simpl inDegree. rewrite get_set.
      rewrite (String.eqb_sym k (id s)).
      destruct (mem k (step_ids ss)); [now rewrite orb_true_r|].
      now rewrite orb_false_r.
Qed.

Lemma init_graph_for ss :
  exists K, graph_for K [] (init_graph ss empty_graph)
            /\ (forall k, In k K <-> In k (step_ids ss)).
Proof.
  destruct (init_graph_keys ss empty_graph eq_refl eq_refl)
    as [A [B [C [D [E F]]]]].
  exists (JMap.keys (inDegree (init_graph ss empty_graph))).
  assert (HK : forall k,
             In k (JMap.keys (inDegree (init_graph ss empty_graph)))
             <-> In k (step_ids ss)).
  { intros k. rewrite C. simpl. tauto. }
  split; [|exact HK].
  constructor; auto.
  - apply D. constructor.
  - intros k. rewrite has_true_iff, A. tauto.
  - intros k Hk. rewrite E. apply HK, mem_In in Hk. now rewrite Hk.
  - intros k Hk. rewrite F. apply HK, mem_In in Hk. now rewrite Hk.
Qed.

Lemma in_edges ss d x :
  In (d, x) (edges ss) <-> depends_on ss x d.
Proof.
  unfold edges, depends_on. rewrite in_flat_map. split.
  - intros [s [Hs H]]. apply in_map_iff in H as [d' [E Hd]].
    inversion E; subst. now exists s.
  - intros [s [Hs [<- Hd]]]. exists s. split; auto.
    apply in_map_iff. now exists d.
Qed.

Lemma edges_snd_in ss e : In e (edges ss) -> In (snd e) (step_ids ss).
Proof.
  destruct e as [d x]. rewrite in_edges. intros [s [Hs [<- _]]].
  simpl. unfold step_ids. now apply in_map.
Qed.

Lemma build_graph_ok ss :
  deps_resolve ss ->
  exists K g, build_graph ss = Normal g /\ graph_for K (edges ss) g
              /\ (forall k, In k K <-> In k (step_ids ss)).
Proof.
  intros Hres. destruct (init_graph_for ss) as [K [Hg HK]].
  unfold build_graph. rewrite build_edges_flat.
  destruct (add_edges_graph_for K (edges ss) [] _ Hg) as [g [E Hg']].
  - intros [d x] He. simpl. split.
    + apply HK. apply in_edges in He as [s [Hs [_ Hd]]]. eapply Hres; eauto.
    + apply HK. now apply (edges_snd_in ss (d, x)).
  - exists K, g. auto.
Qed.

Lemma build_graph_not_found ss :
  (exists s d, In s ss /\ In d (dependencies s) /\ ~ In d (step_ids ss)) ->
  exists d, build_graph ss = Throw (DependencyNotFound d)
            /\ ~ In d (step_ids ss)
            /\ exists s, In s ss /\ In d (dependencies s).
Proof.
  intros [s [d [Hs [Hd Hn]]]]. destruct (init_graph_for ss) as [K [Hg HK]].
  unfold build_graph. rewrite build_edges_flat.
  destruct (add_edges_not_found K (edges ss) [] _ Hg) as [d' [E [Hn' Hin]]].
  - intros e He. apply HK. now apply edges_snd_in.
  - exists (d, id s). split.
    + apply in_edges. now exists s.
    + simpl. now rewrite HK.
  - exists d'. split; [assumption|]. split; [now rewrite <- HK|].
    apply in_map_iff in Hin as [[d0 x] [E0 He]]. simpl in E0. subst d0.
    apply in_edges in He as [s' [Hs' [_ Hd']]]. now exists s'.
Qed.

Lemma deps_resolve_dec ss :
  deps_resolve ss \/
  (exists s d, In s ss /\ In d (dependencies s) /\ ~ In d (step_ids ss)).
Proof.
  unfold deps_resolve.
  assert (G : forall l,
    (forall s d, In s l -> In d (dependencies s) -> In d (step_ids ss)) \/
    (exists s d, In s l /\ In d (dependencies s) /\ ~ In d (step_ids ss))).
  { induction l as [|s l [IH|[s' [d [H1 [H2 H3]]]]]].
    - left. intros s d [].
    - assert (D : (forall d, In d (dependencies s) -> In d (step_ids ss)) \/
                  (exists d, In d (dependencies s) /\ ~ In d (step_ids ss))).
      { induction (dependencies s) as [|d ds [IHd|[d' [H1 H2]]]].
        - left. intros d [].
        - destruct (in_dec string_dec d (step_ids ss)) as [Hd|Hd].
          + left. intros d' [<-|H]; auto.
          + right. exists d. split; [now left | assumption].
        - right. exists d'. split; [now right | assumption]. }
      destruct D as [D|[d [H1 H2]]].
      + left. intros s' d [<-|H] Hd; eauto.
      + right. exists s, d. split; [now left | auto].
    - right. exists s', d. split; [now right | auto]. }
  apply G.
Qed.

(* ------------------------------------------------------------------ *)
(** *** Counting edges *)
(* ------------------------------------------------------------------ *)

Abbreviation occ := (count_occ string_dec).

Lemma filter_length_split {A} (f g h : A -> bool) (l : list A) :
  (forall e, In e l -> f e = g e || h e) ->
  (forall e, In e l -> g e && h e = false) ->
  length (filter f l) = (length (filter g l) + length (filter h l))%nat.
Proof.
  induction l as [|a l IH]; intros H1 H2; simpl; auto.
  assert (Ha1 := H1 a (or_introl eq_refl)).
  assert (Ha2 := H2 a (or_introl eq_refl)).
  assert (IH' := IH (fun e He => H1 e (or_intror He))
                     (fun e He => H2 e (or_intror He))).
  rewrite Ha1.
  destruct (g a), (h a); simpl in *; try discriminate; lia.
Qed.

Lemma occ_succs es q x :
  occ (succs es q) x =
  length (filter (fun e => String.eqb (fst e) q && String.eqb (snd e) x) es).
Proof.
  unfold succs. induction es as [|[d y] es IH]; simpl; auto.
  destruct (String.eqb_spec d q) as [->|Hne]; simpl; auto.
  destruct (string_dec y x) as [->|Hyx].
  - rewrite String.eqb_refl. simpl. now rewrite IH.
  - destruct (String.eqb_spec y x); [contradiction | assumption].
Qed.

Lemma occ_flat_succs es Q x :
  NoDup Q -> occ (flat_map (succs es) Q) x = inq es Q x.
Proof.
  induction Q as [|q Q IH]; intros Hnd; simpl.
  - unfold inq. simpl. induction es; simpl; auto.
    now rewrite andb_false_r.
  - inversion Hnd as [|? ? Hq HQ]; subst.
    rewrite count_occ_app, IH, occ_succs by assumption.
    unfold inq. symmetry. apply filter_length_split.
    + intros e _. rewrite mem_cons.
      rewrite (String.eqb_sym (fst e) q).
      destruct (String.eqb (snd e) x), (String.eqb q (fst e)),
        (mem (fst e) Q); reflexivity.
    + intros e _. destruct (String.eqb_spec (fst e) q) as [->|]; simpl; auto.
      apply mem_false in Hq. rewrite Hq. now rewrite !andb_false_r.
Qed.

Lemma mem_app x P Q : mem x (P ++ Q) = mem x P || mem x Q.
Proof. apply existsb_app. Qed.

Lemma rem_split es P Q x :
  (forall q, In q Q -> ~ In q P) ->
  rem es P x = (rem es (P ++ Q) x + inq es Q x)%nat.
Proof.
  intros Hdisj. unfold rem, inq. apply filter_length_split.
  - intros e _. rewrite mem_app.
    destruct (mem (fst e) Q) eqn:EQ, (mem (fst e) P) eqn:EP,
      (String.eqb (snd e) x); simpl; auto.
    apply mem_In in EQ, EP. now apply Hdisj in EQ.
  - intros e _. rewrite mem_app.
    destruct (mem (fst e) Q), (mem (fst e) P), (String.eqb (snd e) x); auto.
Qed.

Lemma rem_nil es x : rem es [] x = indeg es x.
Proof.
  unfold rem, indeg. f_equal. apply filter_ext.
  intros e. simpl. now rewrite andb_true_r.
Qed.

Lemma rem_zero es P x :
  rem es P x = 0%nat <-> (forall d, In (d, x) es -> In d P).
Proof.
  unfold rem. rewrite length_zero_iff_nil. split.
  - intros H d Hd.
    destruct (mem d P) eqn:E; [now apply mem_In|].
    assert (Hin : In (d, x) (filter (fun e =>
                String.eqb (snd e) x && negb (mem (fst e) P)) es)).
    { apply filter_In. split; auto. simpl.
      now rewrite String.eqb_refl, E. }
    rewrite H in Hin. destruct Hin.
  - intros H.
    destruct (filter _ es) as [|[d y] l] eqn:E; auto.
    assert (Hin : In (d, y) (filter (fun e =>
                String.eqb (snd e) x && negb (mem (fst e) P)) es))
      by (rewrite E; now left).
    apply filter_In in Hin as [Hin Hb]. simpl in Hb.
    apply andb_true_iff in Hb as [Hy Hm].
    apply String.eqb_eq in Hy. subst y.
    apply H, mem_In in Hin. rewrite Hin in Hm. discriminate.
Qed.

Lemma in_flat_succs es Q x :
  In x (flat_map (succs es) Q) -> exists d, In (d, x) es /\ In d Q.
Proof.
  rewrite in_flat_map. intros [q [Hq Hx]].
  unfold succs in Hx. apply in_map_iff in Hx as [[d y] [E He]].
  simpl in E. subst y. apply filter_In in He as [He Hd]. simpl in Hd.
  apply String.eqb_eq in Hd. subst d. now exists q.
Qed.

(* ------------------------------------------------------------------ *)
(** *** One round of the frontier loop *)
(* ------------------------------------------------------------------ *)

Lemma relax_app l1 l2 deg nq :
  relax (l1 ++ l2) deg nq =
  let '(d, n) := relax l1 deg nq in relax l2 d n.
Proof.
  revert deg nq. induction l1 as [|y l1 IH]; intros deg nq; simpl; auto.
Qed.

Lemma drain_flat queue adj deg nq :
  drain queue adj deg nq =
  relax (flat_map (fun q => match JMap.get adj q with
                            | Some l => l
                            | None => []
                            end) queue) deg nq.
Proof.
  revert deg nq. induction queue as [|q queue IH]; intros deg nq; simpl; auto.
  rewrite relax_app. destruct (relax _ deg nq) as [d n]. apply IH.
Qed.

Lemma relax_spec L : forall deg nq,
  (forall x, In x L ->
     exists d, JMap.get deg x = Some d /\ (Z.of_nat (occ L x) <= d)%Z) ->
  exists deg' new,
    relax L deg nq = (deg', nq ++ new) /\
    (forall x, JMap.get deg' x =
               option_map (fun d => (d - Z.of_nat (occ L x))%Z)
                 (JMap.get deg x)) /\
    NoDup new /\
    (forall x, In x new <->
               In x L /\ JMap.get deg x = Some (Z.of_nat (occ L x))).
Proof.
  induction L as [|y L IH]; intros deg nq H.
  - exists deg, []. simpl. rewrite app_nil_r.
    split; [reflexivity|]. split; [|split].
    + intros x. destruct (JMap.get deg x); simpl; auto. f_equal. lia.
    + constructor.
    + intros x. tauto.
  - destruct (H y (or_introl eq_refl)) as [dy [Ey Hy]].
    rewrite count_occ_cons_eq in Hy by reflexivity.
    simpl relax. rewrite Ey.
    set (deg1 := JMap.set deg y (dy - 1)%Z).
    assert (H1 : forall x, In x L ->
              exists d, JMap.get deg1 x = Some d
                        /\ (Z.of_nat (occ L x) <= d)%Z).
    { intros x Hx. unfold deg1. rewrite get_set.
      destruct (String.eqb_spec y x) as [<-|Hne].
      - exists (dy - 1)%Z. split; [reflexivity | lia].
      - destruct (H x (or_intror Hx)) as [d [Ed Hd]].
        rewrite count_occ_cons_neq in Hd by assumption. eauto. }
    assert (Hget : forall deg' x,
              JMap.get deg' x =
                option_map (fun d => (d - Z.of_nat (occ L x))%Z)
                  (JMap.get deg1 x) ->
              JMap.get deg' x =
                option_map (fun d => (d - Z.of_nat (occ (y :: L) x))%Z)
                  (JMap.get deg x)).
    { intros deg' x ->. unfold deg1. rewrite get_set.
      destruct (String.eqb_spec y x) as [<-|Hne].
      - rewrite Ey, count_occ_cons_eq by reflexivity. simpl. f_equal. lia.
      - now rewrite count_occ_cons_neq by assumption. }
    destruct (Z.eqb_spec (dy - 1) 0) as [Hz|Hz].
    + destruct (IH deg1 (nq ++ [y]) H1) as [deg' [new [E [G [Hnd Hin]]]]].
      assert (HyL : ~ In y L).
      { intros HyL. apply (count_occ_In string_dec) in HyL. lia. }
      exists deg', (y :: new). rewrite E, <- app_assoc. simpl.
      split; [reflexivity|]. split; [|split].
      * intros x. apply Hget, G.
      * constructor; auto. rewrite Hin. tauto.
      * intros x. split.
        -- intros [<-|H0].
           ++ split; [now left|].
              destruct (string_dec y y); [|contradiction].
              apply (count_occ_not_In string_dec) in HyL.
              rewrite Ey. f_equal. lia.
           ++ apply Hin in H0 as [HxL Hx].
              assert (Hne : y <> x) by (intros ->; contradiction).
              unfold deg1 in Hx. rewrite get_set in Hx.
              destruct (String.eqb_spec y x); [contradiction|].
              split; [now right|].
              destruct (string_dec y x); [contradiction | assumption].
        -- intros [Hx1 Hx2].
           destruct (string_dec y x) as [<-|Hne]; [now left|].
           right. apply Hin. destruct Hx1 as [->|Hx1]; [contradiction|].
           split; auto. unfold deg1. rewrite get_set.
           destruct (String.eqb_spec y x); [contradiction | assumption].
    + destruct (IH deg1 nq H1) as [deg' [new [E [G [Hnd Hin]]]]].
      exists deg', new. rewrite E.
      split; [reflexivity|]. split; [|split].
      * intros x. apply Hget, G.
      * assumption.
      * intros x. rewrite Hin. unfold deg1. rewrite get_set.
        destruct (String.eqb_spec y x) as [<-|Hne].
        -- rewrite Ey, count_occ_cons_eq by reflexivity. split.
           ++ intros [HxL Hx]. split; [now right|].
              inversion Hx. f_equal. lia.
           ++ intros [_ Hx]. inversion Hx; subst dy.
              split; [|f_equal; lia].
              apply (count_occ_In string_dec). lia.
        -- rewrite count_occ_cons_neq by assumption. simpl.
           split; [tauto|]. intros [[->|Hx1] Hx2]; [contradiction | auto].
Qed.


Lemma flat_map_ext_in {A B} (f g : A -> list B) l :
  (forall a, In a l -> f a = g a) -> flat_map f l = flat_map g l.
Proof.
  induction l as [|a l IH]; intros H; simpl; auto.
  rewrite (H a (or_introl eq_refl)), IH; auto.
  intros; apply H; now right.
Qed.

Lemma NoDup_app_parts {A} (l1 l2 : list A) :
  NoDup (l1 ++ l2) ->
  NoDup l1 /\ NoDup l2 /\ (forall x, In x l2 -> ~ In x l1).
Proof.
  induction l1 as [|a l1 IH]; simpl; intros H.
  - split; [constructor | split; auto].
  - inversion H as [|? ? Ha Hnd]; subst.
    destruct (IH Hnd) as [H1 [H2 H3]].
    split; [|split; auto].
    + constructor; auto. intros Hin. apply Ha. apply in_or_app. now left.
    + intros x Hx [<-|Hin].
      * apply Ha. apply in_or_app. now right.
      * now apply (H3 x).
Qed.

Lemma bfs_unfold fuel adj deg q queue layers pc :
  bfs (S fuel) adj deg (q :: queue) layers pc =
  let '(deg', nextQueue) := drain (q :: queue) adj deg [] in
  bfs fuel adj deg' nextQueue (layers ++ [q :: queue])
    (pc + length (q :: queue)).
Proof. reflexivity. Qed.

Section Frontier.

Variables (K : list string) (es : list (string * string)).
Variable adj : JMap.t (list string).
Hypothesis es_closed : forall e, In e es -> In (fst e) K /\ In (snd e) K.
Hypothesis adj_ok : forall k, In k K -> JMap.get adj k = Some (succs es k).

Lemma drain_step deg P queue deg' nq :
  bfs_inv K es deg P queue ->
  drain queue adj deg [] = (deg', nq) ->
  bfs_inv K es deg' (P ++ queue) nq.
Proof.
  intros [Hdeg Hnd Hincl Hzero] Hdrain.
  destruct (NoDup_app_parts _ _ Hnd) as [HndP [HndQ Hdisj]].
  rewrite drain_flat in Hdrain.
  rewrite (flat_map_ext_in _ (succs es)) in Hdrain.
  2:{ intros q Hq. rewrite adj_ok; auto. apply Hincl, in_or_app. now right. }
  set (L := flat_map (succs es) queue) in *.
  assert (HL : forall x, occ L x = inq es queue x)
    by (intros; now apply occ_flat_succs).
  assert (Hsplit : forall x,
            rem es P x = (rem es (P ++ queue) x + inq es queue x)%nat)
    by (intros; now apply rem_split).
  assert (HLK : forall x, In x L -> In x K).
  { intros x Hx. apply in_flat_succs in Hx as [d [He _]].
    now apply (es_closed (d, x)). }
  destruct (relax_spec L deg []) as [deg1 [new [E [G [Hndn Hin]]]]].
  { intros x Hx. exists (Z.of_nat (rem es P x)). split.
    - apply Hdeg. auto.
    - rewrite HL, (Hsplit x). lia. }
  rewrite E in Hdrain. simpl in Hdrain. inversion Hdrain; subst deg1 new.
  clear Hdrain E.
  assert (Hnq : forall x, In x K ->
            (In x nq <-> In x L /\ rem es (P ++ queue) x = 0%nat)).
  { intros x Hx. rewrite Hin, (Hdeg x Hx), HL, (Hsplit x). split.
    - intros [H1 H2]. split; auto. inversion H2. lia.
    - intros [H1 H2]. split; auto. rewrite H2. reflexivity. }
  constructor.
  - intros x Hx. rewrite G, (Hdeg x Hx), HL, (Hsplit x). simpl.
    f_equal. lia.
  - apply NoDup_app; auto.
    intros x Hx Hx'.
    assert (HxK : In x K) by auto.
    apply (Hnq x HxK) in Hx' as [HxL _].
    apply (Hzero x HxK) in Hx.
    apply (count_occ_In string_dec) in HxL.
    rewrite HL in HxL. rewrite (Hsplit x) in Hx. lia.
  - intros x Hx. apply in_app_or in Hx as [Hx|Hx]; auto.
    apply Hin in Hx as [Hx _]. auto.
  - intros x Hx. split.
    + intros H. apply in_app_or in H as [H|H].
      * apply (Hzero x Hx) in H. rewrite (Hsplit x) in H. lia.
      * now apply (Hnq x Hx) in H.
    + intros H. destruct (in_dec string_dec x L) as [HxL|HxL].
      * apply in_or_app. right. now apply (Hnq x Hx).
      * apply in_or_app. left. apply (Hzero x Hx).
        apply (count_occ_not_In string_dec) in HxL.
        rewrite HL in HxL. rewrite (Hsplit x). lia.
Qed.

Lemma layered_snoc layers queue :
  layered es layers ->
  (forall x d, In x queue -> In (d, x) es -> In d (concat layers)) ->
  layered es (layers ++ [queue]).
Proof.
  intros Hl Hq L1 l L2 x d Heq Hx He.
  destruct L2 as [|a L2] using rev_ind; [|clear IHL2; rename a into q].
  - apply app_inj_tail in Heq as [<- <-]. eauto.
  - change (L1 ++ l :: L2 ++ [q]) with (L1 ++ (l :: L2) ++ [q]) in Heq.
    rewrite app_assoc in Heq.
    apply app_inj_tail in Heq as [-> _]. eapply Hl; eauto.
Qed.

Lemma bfs_spec n :
  length K <= n -> NoDup K ->
  forall fuel deg queue layers,
    bfs_inv K es deg (concat layers) queue ->
    layered es layers ->
    n <= fuel + length (concat layers) ->
    exists deg' layers',
      bfs fuel adj deg queue layers (length (concat layers))
        = Some (layers', length (concat layers'))
      /\ bfs_inv K es deg' (concat layers') []
      /\ layered es layers'.
Proof.
  intros HKn HKnd.
  induction fuel as [|fuel IH]; intros deg queue layers Hinv Hlay Hfuel.
  - destruct queue as [|q queue].
    + exists deg, layers. simpl. auto.
    + exfalso.
      assert (Hlen : length (concat layers ++ q :: queue) <= length K).
      { apply NoDup_incl_length.
        - apply (bi_nodup _ _ _ _ _ Hinv).
        - intros x. apply (bi_incl _ _ _ _ _ Hinv). }
      rewrite length_app in Hlen. simpl in Hlen, Hfuel. lia.
  - destruct queue as [|q queue].
    + exists deg, layers. simpl. auto.
    + rewrite bfs_unfold.
      destruct (drain (q :: queue) adj deg []) as [deg1 nq] eqn:Hd.
      assert (Hinv1 := drain_step _ _ _ _ _ Hinv Hd).
      assert (Hc : concat (layers ++ [q :: queue])
                   = concat layers ++ q :: queue).
      { rewrite concat_app. simpl. now rewrite app_nil_r. }
      assert (Hpc : (length (concat layers) + length (q :: queue))%nat
                    = length (concat (layers ++ [q :: queue]))).
      { rewrite Hc, length_app. reflexivity. }
      rewrite Hpc. apply IH.
      * now rewrite Hc.
      * apply layered_snoc; auto.
        intros x d Hx He.
        assert (HxK : In x K) by (apply (es_closed (d, x) He)).
        assert (Hz : rem es (concat layers) x = 0%nat).
        { apply (bi_zero _ _ _ _ _ Hinv x HxK). apply in_or_app. now right. }
        eapply rem_zero; eauto.
      * rewrite Hc, length_app. simpl. simpl in Hfuel. lia.
Qed.

End Frontier.

Lemma NoDup_map_fst_filter {A B} (f : A * B -> bool) (l : list (A * B)) :
  NoDup (map fst l) -> NoDup (map fst (filter f l)).
Proof.
  induction l as [|a l IH]; simpl; intros H; [constructor|].
  inversion H as [|? ? Ha Hl]; subst.
  destruct (f a); simpl; auto.
  constructor; auto.
  intros Hin. apply Ha.
  apply in_map_iff in Hin as [b [E Hb]]. apply filter_In in Hb as [Hb _].
  rewrite <- E. now apply in_map.
Qed.

Lemma initial_queue_spec deg :
  NoDup (JMap.keys deg) ->
  NoDup (initial_queue deg) /\
  (forall x, In x (initial_queue deg) <-> JMap.get deg x = Some 0%Z).
Proof.
  intros Hnd. split.
  - now apply NoDup_map_fst_filter.
  - intros x. unfold initial_queue. rewrite in_map_iff. split.
    + intros [[k v] [E H]]. simpl in E. subst k.
      apply filter_In in H as [H Hv]. simpl in Hv.
      apply Z.eqb_eq in Hv. subst v. now apply in_map_get.
    + intros H. exists (x, 0%Z). split; auto.
      apply filter_In. split; auto. now apply in_map_get.
Qed.

Lemma initial_inv K es g :
  graph_for K es g ->
  bfs_inv K es (inDegree g) [] (initial_queue (inDegree g)).
Proof.
  intros [Hk Hnd Hhas Hadj Hdeg].
  destruct (initial_queue_spec (inDegree g)) as [Q1 Q2];
    [now rewrite Hk|].
  constructor; simpl.
  - intros x Hx. now rewrite rem_nil, Hdeg.
  - assumption.
  - intros x Hx. apply Q2 in Hx. rewrite <- Hk. apply in_keys_get. congruence.
  - intros x Hx. rewrite Q2, rem_nil, (Hdeg x Hx). split.
    + intros H. inversion H. lia.
    + intros ->. reflexivity.
Qed.

(** The outcome of [topologicalSort] on a list whose dependencies all
    resolve: the frontier loop stops within its fuel, and the processed
    ids [concat layers] are exactly the ids with no edge from outside. *)
Lemma topologicalSort_run ss :
  deps_resolve ss ->
  exists K g layers,
    NoDup K /\ (forall k, In k K <-> In k (step_ids ss)) /\
    NoDup (concat layers) /\
    (forall x, In x (concat layers) -> In x K) /\
    (forall x, In x K ->
       (In x (concat layers) <-> rem (edges ss) (concat layers) x = 0%nat)) /\
    layered (edges ss) layers /\
    topologicalSort ss =
      (if Nat.eqb (length (concat layers)) (length ss)
       then Normal layers else Throw CircularDependency) /\
    build_graph ss = Normal g /\
    bfs (length ss) (adjacency g) (inDegree g) (initial_queue (inDegree g))
      [] 0 = Some (layers, length (concat layers)).
Proof.
  intros Hres.
  destruct (build_graph_ok ss Hres) as [K [g [Hb [Hg HK]]]].
  assert (Hclosed : forall e, In e (edges ss) -> In (fst e) K /\ In (snd e) K).
  { intros [d x] He. simpl. split.
    - apply HK. apply in_edges in He as [s [Hs [_ Hd]]]. eapply Hres; eauto.
    - apply HK. now apply (edges_snd_in ss (d, x)). }
  assert (HKlen : length K <= length ss).
  { replace (length ss) with (length (step_ids ss))
      by (unfold step_ids; apply length_map).
    apply NoDup_incl_length; [apply (gf_nodup _ _ _ Hg)|].
    intros k. apply HK. }
  destruct (bfs_spec K (edges ss) (adjacency g) Hclosed (gf_adj _ _ _ Hg)
              (length ss) HKlen (gf_nodup _ _ _ Hg)
              (length ss) (inDegree g) (initial_queue (inDegree g)) [])
    as [deg' [layers [E [Hinv Hlay]]]].
  - simpl. now apply initial_inv.
  - intros L1 l L2 x d Heq. destruct L1; discriminate.
  - simpl. lia.
  - exists K, g, layers.
    destruct Hinv as [Hdeg Hnd Hincl Hzero]. rewrite app_nil_r in *.
    split; [apply (gf_nodup _ _ _ Hg)|].
    split; [exact HK|].
    split; [exact Hnd|].
    split; [exact Hincl|].
    split; [exact Hzero|].
    split; [exact Hlay|].
    simpl in E.
    split; [|split; [exact Hb | exact E]].
    unfold topologicalSort, layering. rewrite Hb, E. reflexivity.
Qed.

(* ------------------------------------------------------------------ *)
(** *** Walks in a finite graph *)
(* ------------------------------------------------------------------ *)

Section Walks.

Variable R : string -> string -> Prop.

Lemma chain_reaches x l y : chain R x l -> In y l -> clos_trans string R x y.
Proof.
  revert x. induction l as [|a l IH]; intros x Hc Hy; [destruct Hy|].
  destruct Hc as [Hxa Hc]. destruct Hy as [->|Hy].
  - now apply t_step.
  - apply t_trans with a; [now apply t_step | now apply IH].
Qed.

Lemma chain_repeat x l :
  chain R x l -> ~ NoDup (x :: l) -> exists z, clos_trans string R z z.
Proof.
  revert x. induction l as [|a l IH]; intros x Hc Hnd.
  - exfalso. apply Hnd. constructor; [intros [] | constructor].
  - destruct (in_dec string_dec x (a :: l)) as [Hin|Hnin].
    + exists x. eapply chain_reaches; eauto.
    + destruct Hc as [_ Hc]. apply (IH a Hc).
      intros H. apply Hnd. now constructor.
Qed.

Lemma chain_exists (U : list string) :
  (forall x, In x U -> exists y, In y U /\ R x y) ->
  forall n x, In x U ->
    exists l, length l = n /\ chain R x l /\ (forall y, In y l -> In y U).
Proof.
  intros Hsucc. induction n as [|n IH]; intros x Hx.
  - exists []. simpl. repeat split; auto. intros y [].
  - destruct (Hsucc x Hx) as [y [Hy Hxy]].
    destruct (IH y Hy) as [l [Hlen [Hc Hincl]]].
    exists (y :: l). simpl. repeat split; auto.
    intros z [<-|Hz]; auto.
Qed.

(** A non-empty finite set in which every element has a successor inside
    the set contains a cycle. *)
Lemma no_sink_cycle (U : list string) x0 :
  In x0 U ->
  (forall x, In x U -> exists y, In y U /\ R x y) ->
  exists z, clos_trans string R z z.
Proof.
  intros Hx0 Hsucc.
  destruct (chain_exists U Hsucc (length U) x0 Hx0) as [l [Hlen [Hc Hincl]]].
  apply (chain_repeat x0 l Hc).
  intros Hnd.
  assert (Hle : length (x0 :: l) <= length U).
  { apply NoDup_incl_length; auto. intros y [<-|Hy]; auto. }
  simpl in Hle. lia.
Qed.

Lemma clos_trans_first x y :
  clos_trans string R x y -> exists z, R x z.
Proof. induction 1; eauto. Qed.

End Walks.

(* ------------------------------------------------------------------ *)
(** *** Order of the layers *)
(* ------------------------------------------------------------------ *)

Lemma layered_trans ss layers x y :
  layered (edges ss) layers ->
  clos_trans string (depends_on ss) x y ->
  forall L1 l L2, layers = L1 ++ l :: L2 -> In x l -> In y (concat L1).
Proof.
  intros Hlay. induction 1 as [x y Hxy | x y z _ IH1 _ IH2];
    intros L1 l L2 Heq Hx.
  - apply in_edges in Hxy. eapply Hlay; eauto.
  - assert (Hy := IH1 L1 l L2 Heq Hx).
    apply in_concat in Hy as [ly [Hly Hy]].
    apply in_split in Hly as [A [B ->]].
    rewrite <- app_assoc in Heq. simpl in Heq.
    assert (Hz := IH2 A ly _ Heq Hy).
    rewrite concat_app. apply in_or_app. now left.
Qed.

Lemma layered_no_loop ss layers x :
  layered (edges ss) layers -> NoDup (concat layers) ->
  In x (concat layers) -> ~ clos_trans string (depends_on ss) x x.
Proof.
  intros Hlay Hnd Hx Hcyc.
  apply in_concat in Hx as [l [Hl Hx]].
  apply in_split in Hl as [L1 [L2 Heq]].
  assert (Hx1 := layered_trans ss layers x x Hlay Hcyc L1 l L2 Heq Hx).
  rewrite Heq, concat_app in Hnd. simpl in Hnd.
  destruct (NoDup_app_parts _ _ Hnd) as [_ [_ Hdisj]].
  apply (Hdisj x); auto. apply in_or_app. now left.
Qed.

Lemma layered_earlier layers es d x :
  layered es layers -> In x (concat layers) -> In (d, x) es ->
  earlier_layer layers d x.
Proof.
  intros Hlay Hx He.
  apply in_concat in Hx as [l [Hl Hx]].
  apply in_split in Hl as [L1 [L2 Heq]].
  assert (Hd := Hlay L1 l L2 x d Heq Hx He).
  apply in_concat in Hd as [ld [Hld Hd]].
  apply in_split in Hld as [A [B ->]].
  exists A, ld, B, l, L2. rewrite <- app_assoc in Heq. auto.
Qed.

Lemma earlier_layer_before layers d x :
  earlier_layer layers d x -> before (concat layers) d x.
Proof.
  intros [L1 [ld [L2 [lx [L3 [-> [Hd Hx]]]]]]].
  apply in_split in Hd as [a [b ->]].
  apply in_split in Hx as [a' [b' ->]].
  exists (concat L1 ++ a), (b ++ concat L2 ++ a'), (b' ++ concat L3).
  rewrite concat_app. simpl. rewrite concat_app. simpl.
  repeat (rewrite <- ?app_assoc; simpl). reflexivity.
Qed.

(* ------------------------------------------------------------------ *)
(** *** What a normal return of [topologicalSort] means *)
(* ------------------------------------------------------------------ *)

Lemma topologicalSort_normal ss layers :
  topologicalSort ss = Normal layers ->
  deps_resolve ss /\ NoDup (step_ids ss) /\
  Permutation (concat layers) (step_ids ss) /\
  layered (edges ss) layers.
Proof.
  intros Hts.
  destruct (deps_resolve_dec ss) as [Hres|Hbad].
  2:{ destruct (build_graph_not_found ss Hbad) as [d [E _]].
      unfold topologicalSort in Hts. rewrite E in Hts. discriminate. }
  destruct (topologicalSort_run ss Hres)
    as [K [g [layers0 [HKnd [HK [Hnd [Hincl [Hzero [Hlay [E [Hbg Hbfs]]]]]]]]]]].
  rewrite E in Hts.
  destruct (Nat.eqb_spec (length (concat layers0)) (length ss)) as [Hlen|];
    [|discriminate].
  inversion Hts; subst layers0. clear Hts E.
  assert (Hids : length (step_ids ss) = length ss)
    by (unfold step_ids; apply length_map).
  assert (HKle : length K <= length (step_ids ss)).
  { apply NoDup_incl_length; auto. intros k. apply HK. }
  assert (HPle : length (concat layers) <= length K)
    by (apply NoDup_incl_length; auto).
  assert (HPK : Permutation (concat layers) K).
  { apply NoDup_Permutation_bis; auto. lia. }
  assert (HKids : Permutation K (step_ids ss)).
  { apply NoDup_Permutation_bis; auto; [lia|]. intros k. apply HK. }
  split; [assumption|]. split; [|split]; auto.
  - eapply Permutation_NoDup; eauto.
  - now transitivity K.
Qed.

(** With pairwise distinct ids, resolving dependencies and no cycle, the
    frontier loop processes every step. *)
Lemma topologicalSort_complete ss :
  NoDup (step_ids ss) -> deps_resolve ss -> acyclic ss ->
  exists layers, topologicalSort ss = Normal layers.
Proof.
  intros Hids Hres Hac.
  destruct (topologicalSort_run ss Hres)
    as [K [g [layers [HKnd [HK [Hnd [Hincl [Hzero [Hlay [E [Hbg Hbfs]]]]]]]]]]].
  exists layers. rewrite E.
  set (P := concat layers) in *.
  set (U := filter (fun k => negb (mem k P)) K).
  assert (HU : forall x, In x U <-> In x K /\ ~ In x P).
  { intros x. unfold U. rewrite filter_In, negb_true_iff, mem_false. tauto. }
  destruct U as [|u U'] eqn:EU.
  - assert (HKP : forall x, In x K -> In x P).
    { intros x Hx. destruct (in_dec string_dec x P) as [|Hn]; auto.
      exfalso. apply (proj2 (HU x)); auto. }
    assert (Hlen : length P = length ss).
    { assert (length K <= length P) by (apply NoDup_incl_length; auto).
      assert (length P <= length K) by (apply NoDup_incl_length; auto).
      assert (length K = length (step_ids ss)).
      { apply Permutation_length. apply NoDup_Permutation; auto. }
      unfold step_ids in *. rewrite length_map in *. lia. }
    rewrite Hlen, Nat.eqb_refl. reflexivity.
  - exfalso.
    destruct (no_sink_cycle (depends_on ss) (u :: U') u) as [z Hz];
      [now left | | exact (Hac z Hz)].
    intros x Hx. apply HU in Hx as [HxK HxP].
    assert (Hr : rem (edges ss) P x <> 0%nat).
    { intros H0. apply HxP. now apply (Hzero x HxK). }
    unfold rem in Hr.
    destruct (filter _ (edges ss)) as [|[d y] l] eqn:Ef; [now elim Hr|].
    assert (Hin : In (d, y) (filter (fun e =>
              String.eqb (snd e) x && negb (mem (fst e) P)) (edges ss)))
      by (rewrite Ef; now left).
    apply filter_In in Hin as [Hin Hb]. simpl in Hb.
    apply andb_true_iff in Hb as [Hy Hd].
    apply String.eqb_eq in Hy. subst y.
    apply negb_true_iff, mem_false in Hd.
    exists d. split.
    + apply HU. split; auto. apply HK.
      apply in_edges in Hin as [s [Hs [_ Hds]]]. eapply Hres; eauto.
    + now apply in_edges.
Qed.

Lemma topologicalSort_cycle ss :
  deps_resolve ss -> has_cycle ss ->
  topologicalSort ss = Throw CircularDependency.
Proof.
  intros Hres [x Hcyc].
  destruct (topologicalSort_run ss Hres)
    as [K [g [layers [HKnd [HK [Hnd [Hincl [Hzero [Hlay [E [Hbg Hbfs]]]]]]]]]]].
  rewrite E.
  destruct (Nat.eqb_spec (length (concat layers)) (length ss)) as [Hlen|];
    [exfalso | reflexivity].
  assert (HxK : In x K).
  { apply HK. destruct (clos_trans_first _ _ _ Hcyc) as [d [s [Hs [<- _]]]].
    unfold step_ids. now apply in_map. }
  assert (HKle : length K <= length (concat layers)).
  { rewrite Hlen. replace (length ss) with (length (step_ids ss))
      by (unfold step_ids; apply length_map).
    apply NoDup_incl_length; auto. intros k. apply HK. }
  assert (HKP : incl K (concat layers)).
  { apply NoDup_length_incl; auto. }
  apply (layered_no_loop ss layers x Hlay Hnd); auto.
Qed.

(** The fuel [length steps] of the frontier loop always suffices, and the
    lookup guarded by [adjacency.get(depId)!] never fails. *)
Lemma topologicalSort_outcomes ss :
  (exists layers, topologicalSort ss = Normal layers) \/
  topologicalSort ss = Throw CircularDependency \/
  (exists d, topologicalSort ss = Throw (DependencyNotFound d)).
Proof.
  destruct (deps_resolve_dec ss) as [Hres|Hbad].
  - destruct (topologicalSort_run ss Hres)
      as [K [g [layers [_ [_ [_ [_ [_ [_ [E _]]]]]]]]]].
    rewrite E. destruct (Nat.eqb _ _); eauto.
  - destruct (build_graph_not_found ss Hbad) as [d [E _]].
    right. right. exists d. unfold topologicalSort. now rewrite E.
Qed.

(* ================================================================== *)
(** ** Claims about [topologicalSort] *)
(* ================================================================== *)

Lemma topologicalSort_normal_acyclic ss layers :
  topologicalSort ss = Normal layers -> acyclic ss.
Proof.
  intros Hts x Hx.
  destruct (topologicalSort_normal ss layers Hts) as [Hres _].
  rewrite (topologicalSort_cycle ss Hres) in Hts; [discriminate|].
  now exists x.
Qed.

(** C1, counterexample.  A list with two steps of the same id and no
    dependencies has resolving dependencies and no cycle, yet
    [topologicalSort] throws the circular-dependency error: the processed
    count (one key) differs from [steps.length] (two). *)
Lemma topologicalSort_duplicate_ids_rejected :
  deps_resolve duplicate_id_steps /\ acyclic duplicate_id_steps /\
  topologicalSort duplicate_id_steps = Throw CircularDependency.
Proof.
  split; [|split].
  - intros s d [<-|[<-|[]]] [].
  - intros x Hx. apply clos_trans_first in Hx as [d [s [Hs [_ Hd]]]].
    destruct Hs as [<-|[<-|[]]]; destruct Hd.
  - reflexivity.
Qed.

(** C1 (amended).  For every list of steps with pairwise distinct ids whose
    dependency ids all refer to steps of the list and whose dependency
    relation is acyclic, [topologicalSort] returns layers; in their
    concatenation no id is repeated and every dependency of a step occurs
    before the id of that step. *)
Theorem topologicalSort_layering_correct ss :
  NoDup (step_ids ss) -> deps_resolve ss -> acyclic ss ->
  exists layers,
    topologicalSort ss = Normal layers /\
    NoDup (concat layers) /\
    forall s d, In s ss -> In d (dependencies s) ->
                before (concat layers) d (id s).
Proof.
  intros Hids Hres Hac.
  destruct (topologicalSort_complete ss Hids Hres Hac) as [layers Hts].
  exists layers. split; [assumption|].
  destruct (topologicalSort_normal ss layers Hts) as [_ [_ [Hperm Hlay]]].
  split.
  - eapply Permutation_NoDup; [symmetry; exact Hperm | assumption].
  - intros s d Hs Hd.
    apply earlier_layer_before. apply (layered_earlier _ (edges ss)); auto.
    + eapply Permutation_in; [symmetry; exact Hperm|].
      unfold step_ids. now apply in_map.
    + apply in_edges. now exists s.
Qed.

Lemma topologicalSort_layering_correct_witness :
  exists layers,
    topologicalSort diamond_steps = Normal layers /\
    NoDup (concat layers) /\
    forall s d, In s diamond_steps -> In d (dependencies s) ->
                before (concat layers) d (id s).
Proof.
  assert (E : topologicalSort diamond_steps
              = Normal [["a"]; ["b"; "c"]; ["d"]]) by reflexivity.
  apply (topologicalSort_layering_correct diamond_steps).
  - apply (topologicalSort_normal _ _ E).
  - apply (topologicalSort_normal _ _ E).
  - apply (topologicalSort_normal_acyclic _ _ E).
Defined.

(** C4.  If all dependency ids resolve and the dependency relation has a
    cycle, the first two loops succeed, the frontier loop terminates having
    processed fewer ids than there are steps, and [topologicalSort] throws
    the circular-dependency error instead of returning layers. *)
Theorem topologicalSort_detects_cycle ss :
  deps_resolve ss -> has_cycle ss ->
  exists g layers processedCount,
    build_graph ss = Normal g /\
    bfs (length ss) (adjacency g) (inDegree g) (initial_queue (inDegree g))
      [] 0 = Some (layers, processedCount) /\
    processedCount < length ss /\
    topologicalSort ss = Throw CircularDependency.
Proof.
  intros Hres Hcyc.
  assert (Hts := topologicalSort_cycle ss Hres Hcyc).
  destruct (topologicalSort_run ss Hres)
    as [K [g [layers [HKnd [HK [Hnd [Hincl [Hzero [Hlay [E [Hbg Hbfs]]]]]]]]]]].
  exists g, layers, (length (concat layers)).
  split; [assumption|]. split; [assumption|]. split; [|assumption].
  rewrite E in Hts.
  destruct (Nat.eqb_spec (length (concat layers)) (length ss)) as [|Hne];
    [discriminate|].
  assert (length (concat layers) <= length K)
    by (apply NoDup_incl_length; auto).
  assert (length K <= length (step_ids ss)).
  { apply NoDup_incl_length; auto. intros k. apply HK. }
  unfold step_ids in *. rewrite length_map in *. lia.
Qed.

Lemma topologicalSort_detects_cycle_witness :
  exists g layers processedCount,
    build_graph two_cycle_steps = Normal g /\
    bfs (length two_cycle_steps) (adjacency g) (inDegree g)
      (initial_queue (inDegree g)) [] 0 = Some (layers, processedCount) /\
    processedCount < length two_cycle_steps /\
    topologicalSort two_cycle_steps = Throw CircularDependency.
Proof.
  apply (topologicalSort_detects_cycle two_cycle_steps).
  - intros s d [<-|[<-|[]]] [<-|[]]; simpl; auto.
  - exists "a". apply t_trans with "b"; apply t_step.
    + exists (test_step "a" ["b"]). simpl. auto.
    + exists (test_step "b" ["a"]). simpl. auto.
Defined.

(** C5.  If some step declares a dependency id that is the id of no step
    of the list, the second loop throws the not-found error for such an id,
    so [topologicalSort] throws it and the frontier loop is never entered. *)
Theorem topologicalSort_unknown_dependency ss :
  (exists s d, In s ss /\ In d (dependencies s) /\ ~ In d (step_ids ss)) ->
  exists d,
    ~ In d (step_ids ss) /\
    (exists s, In s ss /\ In d (dependencies s)) /\
    build_graph ss = Throw (DependencyNotFound d) /\
    topologicalSort ss = Throw (DependencyNotFound d).
Proof.
  intros Hbad.
  destruct (build_graph_not_found ss Hbad) as [d [E [Hd Hs]]].
  exists d. repeat split; auto.
  unfold topologicalSort. now rewrite E.
Qed.

Lemma topologicalSort_unknown_dependency_witness :
  exists d,
    ~ In d (step_ids missing_dep_steps) /\
    (exists s, In s missing_dep_steps /\ In d (dependencies s)) /\
    build_graph missing_dep_steps = Throw (DependencyNotFound d) /\
    topologicalSort missing_dep_steps = Throw (DependencyNotFound d).
Proof.
  apply (topologicalSort_unknown_dependency missing_dep_steps).
  exists (test_step "a" ["nonexistent"]), "nonexistent".
  simpl. repeat split; auto.
  intros [H|[]]. discriminate.
Defined.

(* ================================================================== *)
(** ** The executor loop *)
(* ================================================================== *)

Lemma nth_error_update_at ss i f j :
  nth_error (update_at ss i f) j =
  if Nat.eqb i j then option_map f (nth_error ss j) else nth_error ss j.
Proof.
  revert i j. induction ss as [|s ss IH]; intros i j.
  - destruct i, j; simpl; auto; destruct (Nat.eqb i j); auto.
  - destruct i, j; simpl; auto.
Qed.

Lemma nth_error_step_ids ss j x :
  nth_error (step_ids ss) j = Some x <->
  exists s, nth_error ss j = Some s /\ id s = x.
Proof.
  unfold step_ids. rewrite nth_error_map.
  destruct (nth_error ss j) as [s|]; simpl; split.
  - intros H. inversion H. eauto.
  - intros [s' [H <-]]. now inversion H.
  - discriminate.
  - intros [s' [H _]]. discriminate.
Qed.

Lemma index_by_id_get ss : forall i m,
  NoDup (step_ids ss) ->
  (forall x, ~ In x (step_ids ss) ->
     JMap.get (index_by_id ss i m) x = JMap.get m x) /\
  (forall j x, nth_error (step_ids ss) j = Some x ->
     JMap.get (index_by_id ss i m) x = Some (i + j)).
Proof.
  induction ss as [|s ss IH]; intros i m Hnd; simpl.
  - split; auto. intros [|j] x H; discriminate.
  - inversion Hnd as [|? ? Hs Hnd']; subst.
    destruct (IH (S i) (JMap.set m (id s) i) Hnd') as [IH1 IH2].
    split.
    + intros x Hx. rewrite IH1 by tauto.
      apply get_set_other. intros E. apply Hx. now left.
    + intros [|j] x H; simpl in H.
      * inversion H; subst x. rewrite IH1 by assumption.
        rewrite get_set_same. f_equal. lia.
      * rewrite (IH2 j x H). f_equal. lia.
Qed.

Lemma index_by_id_refs ss :
  NoDup (step_ids ss) ->
  refs_for (step_ids ss) (index_by_id ss 0 JMap.empty).
Proof.
  intros Hnd x Hx.
  apply In_nth_error in Hx as [i Hi]. exists i.
  destruct (index_by_id_get ss 0 JMap.empty Hnd) as [_ H2].
  split; [now rewrite (H2 i x Hi)|]. split; [assumption|].
  intros j Hj.
  apply (proj1 (NoDup_nth_error (step_ids ss)) Hnd); [|congruence].
  apply nth_error_Some. congruence.
Qed.

Lemma fair_nil order : fair order -> settle_order order [] = [].
Proof. intros H. apply Permutation_nil. symmetry. apply H. Qed.

Lemma fair_single order x : fair order -> settle_order order [x] = [x].
Proof. intros H. apply Permutation_length_1_inv. symmetry. apply H. Qed.

Lemma fair_in_call_order : fair in_call_order.
Proof. intros l. apply Permutation_refl. Qed.

Lemma fair_in_reverse_order : fair in_reverse_order.
Proof. intros l. symmetry. apply Permutation_rev. Qed.

(* ================================================================== *)
(** ** Claims about [executePlan] *)
(* ================================================================== *)

Lemma TaskStatus_eqb_eq a b : TaskStatus_eqb a b = true <-> a = b.
Proof. destruct a, b; simpl; split; congruence. Qed.

Lemma forallb_false_witness {A} (f : A -> bool) l :
  forallb f l = false -> exists x, In x l /\ f x = false.
Proof.
  induction l as [|a l IH]; simpl; [discriminate|].
  destruct (f a) eqn:E; simpl.
  - intros H. destruct (IH H) as [x [Hx Hf]]. eauto.
  - intros _. eauto.
Qed.

Lemma final_status_spec ss current :
  (forall s, In s ss -> terminal s) ->
  (final_status ss current = completed <->
     forall s, In s ss -> status s = completed) /\
  (final_status ss current = failed <->
     exists s, In s ss /\ status s = failed).
Proof.
  intros Hterm. unfold final_status.
  destruct (forallb _ ss) eqn:Eall.
  - assert (Hall : forall s, In s ss -> status s = completed).
    { intros s Hs. rewrite forallb_forall in Eall.
      now apply TaskStatus_eqb_eq, Eall. }
    split; split; auto; try discriminate.
    intros [s [Hs Hf]]. rewrite (Hall s Hs) in Hf. discriminate.
  - destruct (forallb_false_witness _ _ Eall) as [s [Hs Hn]].
    assert (Hf : status s = failed).
    { destruct (Hterm s Hs) as [Hc|Hf]; auto.
      rewrite Hc in Hn. discriminate. }
    assert (Hex : existsb (fun s => TaskStatus_eqb (status s) failed) ss
                  = true).
    { apply existsb_exists. exists s. split; auto.
      now apply TaskStatus_eqb_eq. }
    rewrite Hex. split; split; try discriminate; eauto.
    intros Hall. rewrite (Hall s Hs) in Hf. discriminate.
Qed.

Lemma getPlan_store_plan w planId plan :
  getPlan (store_plan w planId plan) planId = Some plan.
Proof. unfold getPlan, store_plan; simpl. apply get_set_same. Qed.

Lemma executePlan_normal_inv w planId plan executor order w' evs :
  getPlan w planId = Some plan ->
  executePlan planId executor order w = (Normal tt, w', evs) ->
  exists layers, topologicalSort (steps plan) = Normal layers.
Proof.
  intros Hget Hex. unfold executePlan in Hex. unfold getPlan in Hget.
  rewrite Hget in Hex.
  destruct (topologicalSort (steps plan)) as [layers|e|]; try discriminate.
  eauto.
Qed.

(** C6.  For a stored plan with an unknown dependency id or a cycle,
    [executePlan] throws the not-found or the circular-dependency error, the
    executor is never called (no event), and the stored steps are the same
    as before: if they were all [pending] without result, they still are. *)
Theorem executePlan_structural_error w planId plan executor order :
  getPlan w planId = Some plan ->
  (exists s d, In s (steps plan) /\ In d (dependencies s)
               /\ ~ In d (step_ids (steps plan)))
  \/ has_cycle (steps plan) ->
  exists e w',
    executePlan planId executor order w = (Throw e, w', []) /\
    ((exists d, e = DependencyNotFound d) \/ e = CircularDependency) /\
    exists plan',
      getPlan w' planId = Some plan' /\
      steps plan' = steps plan /\
      ((forall s, In s (steps plan) -> status s = pending /\ result s = None)
       -> forall s, In s (steps plan') ->
                    status s = pending /\ result s = None).
Proof.
  intros Hget Hbad.
  assert (Hts : exists e, topologicalSort (steps plan) = Throw e /\
            ((exists d, e = DependencyNotFound d) \/ e = CircularDependency)).
  { destruct (deps_resolve_dec (steps plan)) as [Hres|Hunk].
    - destruct Hbad as [[s [d [Hs [Hd Hn]]]]|Hcyc].
      + elim Hn. eapply Hres; eauto.
      + exists CircularDependency. split; auto.
        now apply topologicalSort_cycle.
    - destruct (build_graph_not_found _ Hunk) as [d [E _]].
      exists (DependencyNotFound d). split; eauto.
      unfold topologicalSort. now rewrite E. }
  destruct Hts as [e [Hts He]].
  exists e. eexists. unfold executePlan. unfold getPlan in Hget.
  rewrite Hget, Hts.
  split; [reflexivity|]. split; [assumption|].
  eexists. split; [apply getPlan_store_plan|]. simpl. auto.
Qed.

Lemma executePlan_structural_error_witness :
  exists e w',
    executePlan "plan-1" fail_b in_call_order cycle_world
    = (Throw e, w', []) /\
    ((exists d, e = DependencyNotFound d) \/ e = CircularDependency) /\
    exists plan',
      getPlan w' "plan-1" = Some plan' /\
      steps plan' = two_cycle_steps /\
      ((forall s, In s two_cycle_steps ->
                  status s = pending /\ result s = None)
       -> forall s, In s (steps plan') ->
                    status s = pending /\ result s = None).
Proof.
  apply (executePlan_structural_error cycle_world "plan-1"
           (mkExecutionPlan "plan-1" two_cycle_steps pending 0) fail_b
           in_call_order).
  - reflexivity.
  - right. exists "a". apply t_trans with "b"; apply t_step.
    + exists (test_step "a" ["b"]). simpl. auto.
    + exists (test_step "b" ["a"]). simpl. auto.
Defined.




(** Evaluation of the orchestrator on steps whose ids are variables: the
    comparisons between ids are rewritten with the hypotheses in scope. *)
Ltac eval_ids :=
  repeat (progress (
    unfold JMap.has, layering, initial_queue, JSet.has, JSet.add,
      JSet.empty, JMap.empty, getPlan, find_step, store_plan;
    cbn;
    repeat match goal with
    | |- context [String.eqb ?x ?x] => rewrite (String.eqb_refl x)
    | H : String.eqb ?x ?y = false |- context [String.eqb ?x ?y] =>
        rewrite H
    | H : _ = Rejected _ |- _ => rewrite H
    | H : fair ?o |- context [settle_order ?o []] => rewrite (fair_nil o H)
    | H : fair ?o |- context [settle_order ?o [?x]] =>
        rewrite (fair_single o x H)
    end)).

(* ================================================================== *)
(** ** Step identifiers *)
(* ================================================================== *)

Lemma dash_free_uint d : dash_free (NilEmpty.string_of_uint d).
Proof. induction d; simpl; auto; split; auto; discriminate. Qed.

Lemma to_uint_nonnil n : Nat.to_uint n <> Nil.
Proof.
  intros H. assert (E := Unsigned.to_of (Nat.to_uint n)).
  rewrite Unsigned.of_to in E. rewrite H in E. discriminate.
Qed.

Lemma dash_free_string_of_nat n : dash_free (string_of_nat n).
Proof.
  unfold string_of_nat, NilZero.string_of_uint.
  destruct (Nat.to_uint n) eqn:E; try apply dash_free_uint.
  simpl. split; [discriminate | exact I].
Qed.

Lemma string_of_nat_inj n m : string_of_nat n = string_of_nat m -> n = m.
Proof.
  unfold string_of_nat. intros H.
  apply Unsigned.to_uint_inj.
  assert (H1 := NilZero.usu (Nat.to_uint n) (to_uint_nonnil n)).
  assert (H2 := NilZero.usu (Nat.to_uint m) (to_uint_nonnil m)).
  rewrite H in H1. rewrite H1 in H2. now inversion H2.
Qed.

Lemma dash_free_no_dash x n : ~ dash_free (x ++ String "-" n)%string.
Proof.
  induction x as [|c x IH]; simpl.
  - intros [H _]. now apply H.
  - intros [_ H]. auto.
Qed.

(** The text after the last hyphen is determined by the whole string. *)
Lemma last_dash_split x1 : forall x2 n1 n2,
  dash_free n1 -> dash_free n2 ->
  (x1 ++ String "-" n1)%string = (x2 ++ String "-" n2)%string -> n1 = n2.
Proof.
  induction x1 as [|c x1 IH]; intros [|c' x2] n1 n2 H1 H2 E; simpl in E.
  - now inversion E.
  - inversion E; subst. now apply dash_free_no_dash in H1.
  - inversion E; subst. now apply dash_free_no_dash in H2.
  - inversion E. eapply IH; eauto.
Qed.

Lemma step_id_text_inj t1 c1 t2 c2 :
  step_id_text t1 c1 = step_id_text t2 c2 -> c1 = c2.
Proof.
  unfold step_id_text. intros E. simpl in E. inversion E as [E'].
  apply string_of_nat_inj.
  apply (last_dash_split _ _ _ _ (dash_free_string_of_nat c1)
           (dash_free_string_of_nat c2) E').
Qed.

Lemma generateStepId_eq Date_now w :
  generateStepId Date_now w =
  (step_id_text (Date_now (clockReads w)) (S (stepCounter w)),
   mkWorld (planStore w) (stepIndex w) (planCounter w) (S (stepCounter w))
     (S (clockReads w))).
Proof. reflexivity. Qed.

Lemma generate_ids_range Date_now n : forall w i,
  In i (fst (generate_ids Date_now n w)) ->
  exists t c, i = step_id_text t c /\ stepCounter w < c.
Proof.
  induction n as [|n IH]; intros w i; [simpl; tauto|].
  cbn [generate_ids]. rewrite generateStepId_eq.
  destruct (generate_ids Date_now n _) as [l w2] eqn:E. simpl.
  intros [<-|Hi].
  - eauto.
  - assert (Hl : In i (fst (generate_ids Date_now n
                  (mkWorld (planStore w) (stepIndex w) (planCounter w)
                     (S (stepCounter w)) (S (clockReads w))))))
      by now rewrite E.
    apply IH in Hl as [t [c [-> Hc]]]. simpl in Hc.
    exists t, c. split; auto. lia.
Qed.

Lemma generate_ids_NoDup Date_now n w :
  NoDup (fst (generate_ids Date_now n w)).
Proof.
  revert w. induction n as [|n IH]; intros w; [constructor|].
  cbn [generate_ids]. rewrite generateStepId_eq.
  destruct (generate_ids Date_now n _) as [l w2] eqn:E. simpl.
  set (w1 := mkWorld _ _ _ _ _) in E.
  assert (Hl : l = fst (generate_ids Date_now n w1)) by now rewrite E.
  constructor.
  - intros Hin. rewrite Hl in Hin.
    apply generate_ids_range in Hin as [t [c [Heq Hc]]].
    apply step_id_text_inj in Heq. simpl in Hc. lia.
  - rewrite Hl. apply IH.
Qed.

(** The ids assigned by the first pass of [buildSteps] are those of
    successive [generateStepId] calls. *)
Lemma create_steps_ids Date_now intent tpl : forall stepIds acc w,
  step_ids acc = stepIds ->
  let '(stepIds', acc', w') := create_steps Date_now intent tpl stepIds acc w in
  step_ids acc' = stepIds' /\
  stepIds' = stepIds ++ fst (generate_ids Date_now (length tpl) w) /\
  (forall s, In s acc' -> In s acc \/ status s = pending).
Proof.
  induction tpl as [|st tpl IH]; intros stepIds acc w Hacc.
  - simpl. rewrite app_nil_r. auto.
  - cbn [create_steps generate_ids length]. rewrite generateStepId_eq.
    set (w1 := mkWorld _ _ _ _ _).
    set (i := step_id_text _ _).
    set (new := mkTaskStep i _ _ _ _ _).
    specialize (IH (stepIds ++ [i]) (acc ++ [new]) w1).
    destruct (create_steps Date_now intent tpl (stepIds ++ [i]) (acc ++ [new]) w1)
      as [[ids' acc'] w'].
    destruct (generate_ids Date_now (length tpl) w1) as [l w2] eqn:E.
    simpl in *.
    destruct IH as [H1 [H2 H3]].
    { unfold step_ids in *. rewrite map_app, Hacc. reflexivity. }
    split; [assumption|]. split.
    + rewrite H2, <- app_assoc. reflexivity.
    + intros s Hs. apply H3 in Hs as [Hs|Hs]; auto.
      apply in_app_or in Hs as [Hs|[<-|[]]]; auto.
Qed.

Lemma fill_dependencies_ids table stepIds ss : forall i ss',
  fill_dependencies table stepIds i ss = Some ss' ->
  step_ids ss' = step_ids ss /\
  (forall s', In s' ss' -> exists s, In s ss /\ status s' = status s).
Proof.
  induction ss as [|s ss IH]; intros i ss'; simpl.
  - intros H. inversion H. split; auto. intros s' [].
  - destruct (resolve_indices stepIds (lookup_index table i)) as [deps|];
      [|discriminate].
    destruct (fill_dependencies table stepIds (S i) ss) as [rest|] eqn:E;
      [|discriminate].
    intros H. inversion H; subst ss'. clear H.
    destruct (IH (S i) rest E) as [H1 H2].
    split.
    + unfold step_ids in *. simpl. now rewrite H1.
    + intros s' [<-|Hs'].
      * exists s. auto.
      * destruct (H2 s' Hs') as [s0 [Hs0 Hst]]. eauto.
Qed.

(* ================================================================== *)
(** ** Claims about the plan builder *)
(* ================================================================== *)

Lemma strategy_layers s0 s1 s2 s3 :
  NoDup [id s0; id s1; id s2; id s3] ->
  dependencies s0 = [] -> dependencies s1 = [] ->
  dependencies s2 = [id s0; id s1] -> dependencies s3 = [id s2] ->
  topologicalSort [s0; s1; s2; s3]
  = Normal [[id s0; id s1]; [id s2]; [id s3]].
Proof.
  intros Hnd H0 H1 H2 H3.
  destruct s0 as [a t0 d0 p0 st0 r0], s1 as [b t1 d1 p1 st1 r1],
           s2 as [c t2 d2 p2 st2 r2], s3 as [d t3 d3 p3 st3 r3].
  simpl in *. subst d0 d1 d2 d3.
  inversion Hnd as [|? ? Na Hnd1]; subst.
  inversion Hnd1 as [|? ? Nb Hnd2]; subst.
  inversion Hnd2 as [|? ? Nc _]; subst.
  simpl in Na, Nb, Nc.
  assert (Eab : String.eqb a b = false) by (apply String.eqb_neq; intuition congruence).
  assert (Eac : String.eqb a c = false) by (apply String.eqb_neq; intuition congruence).
  assert (Ead : String.eqb a d = false) by (apply String.eqb_neq; intuition congruence).
  assert (Ebc : String.eqb b c = false) by (apply String.eqb_neq; intuition congruence).
  assert (Ebd : String.eqb b d = false) by (apply String.eqb_neq; intuition congruence).
  assert (Ecd : String.eqb c d = false) by (apply String.eqb_neq; intuition congruence).
  assert (Eba : String.eqb b a = false) by (now rewrite String.eqb_sym).
  assert (Eca : String.eqb c a = false) by (now rewrite String.eqb_sym).
  assert (Eda : String.eqb d a = false) by (now rewrite String.eqb_sym).
  assert (Ecb : String.eqb c b = false) by (now rewrite String.eqb_sym).
  assert (Edb : String.eqb d b = false) by (now rewrite String.eqb_sym).
  assert (Edc : String.eqb d c = false) by (now rewrite String.eqb_sym).
  unfold topologicalSort, build_graph. eval_ids. reflexivity.
Qed.

Lemma step_id_text_neq t1 c1 t2 c2 :
  c1 <> c2 -> step_id_text t1 c1 <> step_id_text t2 c2.
Proof. intros Hne E. now apply step_id_text_inj in E. Qed.

(** C7.  For a [strategy_generation] intent [createPlan] builds four steps;
    the first two have no dependencies, the third depends on the first two
    and the fourth on the third; [topologicalSort] on these steps returns
    the three layers {0, 1}, {2}, {3}. *)
Theorem createPlan_strategy_layers Date_now intent w :
  taskType intent = "strategy_generation" ->
  exists plan w' s0 s1 s2 s3,
    createPlan Date_now intent w = (Some plan, w') /\
    steps plan = [s0; s1; s2; s3] /\
    dependencies s0 = [] /\ dependencies s1 = [] /\
    dependencies s2 = [id s0; id s1] /\ dependencies s3 = [id s2] /\
    topologicalSort (steps plan)
    = Normal [[id s0; id s1]; [id s2]; [id s3]].
Proof.
  intros Ht. unfold createPlan, buildSteps, getPlanTemplate.
  rewrite Ht. cbn.
  do 6 eexists. split; [reflexivity|]. cbn.
  split; [reflexivity|]. repeat (split; [reflexivity|]).
  apply strategy_layers; try reflexivity. cbn.
  repeat constructor; simpl; intros H;
    repeat (destruct H as [H|H]; [apply step_id_text_inj in H; lia|]);
    exact H.
Qed.

Lemma createPlan_strategy_layers_witness :
  exists plan w' s0 s1 s2 s3,
    createPlan frozen_clock (test_intent "strategy_generation") initial_world
      = (Some plan, w') /\
    steps plan = [s0; s1; s2; s3] /\
    dependencies s0 = [] /\ dependencies s1 = [] /\
    dependencies s2 = [id s0; id s1] /\ dependencies s3 = [id s2] /\
    topologicalSort (steps plan)
    = Normal [[id s0; id s1]; [id s2]; [id s3]].
Proof.
  apply (createPlan_strategy_layers frozen_clock
           (test_intent "strategy_generation") initial_world).
  reflexivity.
Defined.

(** C8.  [createPlan] returns a plan for every intent; the plan and all of
    its steps are [pending]; for a task type other than
    [strategy_generation], [content_publish] and [operation_summary] the
    plan has exactly one step, without dependencies. *)
Theorem createPlan_total_pending Date_now intent w :
  exists plan w',
    createPlan Date_now intent w = (Some plan, w') /\
    plan_status plan = pending /\
    (forall s, In s (steps plan) -> status s = pending) /\
    (taskType intent <> "strategy_generation" ->
     taskType intent <> "content_publish" ->
     taskType intent <> "operation_summary" ->
     exists s, steps plan = [s] /\ dependencies s = []).
Proof.
  unfold createPlan, buildSteps, getPlanTemplate.
  destruct (String.eqb_spec (taskType intent) "strategy_generation") as [E1|E1];
  [|destruct (String.eqb_spec (taskType intent) "content_publish") as [E2|E2];
  [|destruct (String.eqb_spec (taskType intent) "operation_summary")
      as [E3|E3]]];
  cbn; do 2 eexists; (split; [reflexivity|]); cbn;
  (split; [reflexivity|]);
  (split; [intros s Hs; repeat destruct Hs as [<-|Hs]; try reflexivity;
           destruct Hs|]);
  intros N1 N2 N3; try contradiction.
  eexists. split; reflexivity.
Qed.

(** C9, counterexample.  With the clock standing still, the id generated
    before [clearAllPlans] is generated again after it. *)
Lemma generateStepId_repeats_after_clear :
  let '(first, w1) := generateStepId frozen_clock initial_world in
  let '(second, _) := generateStepId frozen_clock (clearAllPlans w1) in
  first = "step-1700000000000-1" /\ second = first.
Proof. vm_compute. split; reflexivity. Qed.

(* ================================================================== *)
(** * Further properties of the module *)
(* ================================================================== *)

(* ------------------------------------------------------------------ *)
(** *** What [executePlan] leaves alone *)
(* ------------------------------------------------------------------ *)

Lemma static_eq_refl s : static_eq s s.
Proof. unfold static_eq. auto. Qed.

Lemma static_eq_trans s1 s2 s3 :
  static_eq s1 s2 -> static_eq s2 s3 -> static_eq s1 s3.
Proof. unfold static_eq. intuition congruence. Qed.

Lemma Forall2_static_refl ss : Forall2 static_eq ss ss.
Proof. induction ss; constructor; auto using static_eq_refl. Qed.

Lemma Forall2_static_trans ss1 : forall ss2 ss3,
  Forall2 static_eq ss1 ss2 -> Forall2 static_eq ss2 ss3 ->
  Forall2 static_eq ss1 ss3.
Proof.
  induction ss1 as [|s ss1 IH]; intros ss2 ss3 H12 H23;
    inversion H12; subst; inversion H23; subst; constructor.
  - eapply static_eq_trans; eauto.
  - eapply IH; eauto.
Qed.

Lemma Forall2_static_ids ss ss' :
  Forall2 static_eq ss ss' -> step_ids ss' = step_ids ss.
Proof.
  induction 1 as [|s s' ss ss' H _ IH]; simpl; auto.
  destruct H as [H _]. now rewrite H, IH.
Qed.

Lemma update_at_static ss i f :
  (forall s, static_eq s (f s)) -> Forall2 static_eq ss (update_at ss i f).
Proof.
  intros Hf. revert i. induction ss as [|s ss IH]; intros i.
  - destruct i; constructor.
  - destruct i; simpl; constructor; auto using static_eq_refl,
      Forall2_static_refl.
Qed.

Lemma dispatch_layer_static executor refs layer : forall st infl st' infl',
  dispatch_layer executor refs layer st infl = Normal (st', infl') ->
  Forall2 static_eq (ex_steps st) (ex_steps st').
Proof.
  induction layer as [|x layer IH]; intros st infl st' infl' H; simpl in H.
  - inversion H; subst. apply Forall2_static_refl.
  - destruct (JMap.get refs x) as [i|]; [|discriminate].
    destruct (nth_error (ex_steps st) i) as [step|]; [|discriminate].
    destruct (existsb _ (dependencies step)); apply IH in H; simpl in H;
      (eapply Forall2_static_trans; [|exact H]);
      apply update_at_static; intros s; unfold static_eq; simpl; auto.
Qed.

Lemma settle_call_static c st :
  Forall2 static_eq (ex_steps st) (ex_steps (fst (settle_call c st))).
Proof.
  destruct c as [[i x] [v|t]]; simpl;
    [|destruct (error_text t) as [msg|raised]]; simpl;
    apply update_at_static; intros s; unfold static_eq; simpl; auto.
Qed.

Lemma settle_layer_static infl : forall st,
  Forall2 static_eq (ex_steps st) (ex_steps (fst (settle_layer infl st))).
Proof.
  induction infl as [|c infl IH]; intros st; simpl.
  - apply Forall2_static_refl.
  - assert (H := settle_call_static c st).
    destruct (settle_call c st) as [st1 [raised|]]; simpl in *; auto.
    eapply Forall2_static_trans; [exact H|apply IH].
Qed.

Lemma settle_late_static n : forall infl st,
  Forall2 static_eq (ex_steps st) (ex_steps (settle_late n infl st)).
Proof.
  induction n as [|n IH]; intros infl st; simpl.
  - apply Forall2_static_refl.
  - destruct infl as [|c infl]; [apply Forall2_static_refl|].
    eapply Forall2_static_trans; [apply settle_call_static|apply IH].
Qed.

Lemma run_layers_static executor order refs layers : forall st,
  Forall2 static_eq (ex_steps st)
    (ex_steps (snd (run_layers executor order refs layers st))).
Proof.
  induction layers as [|l layers IH]; intros st; simpl.
  - apply Forall2_static_refl.
  - destruct (dispatch_layer executor refs l st []) as [[st1 infl]|e|] eqn:E;
      try apply Forall2_static_refl.
    apply dispatch_layer_static in E.
    eapply Forall2_static_trans; [exact E|].
    assert (H := settle_layer_static (settle_order order infl) st1).
    destruct (settle_layer (settle_order order infl) st1)
      as [st2 [[raised rest]|]]; simpl in *.
    + eapply Forall2_static_trans; [exact H|apply settle_late_static].
    + eapply Forall2_static_trans; [exact H|apply IH].
Qed.

Lemma executePlan_effect planId executor order w :
  let '(_, w', _) := executePlan planId executor order w in
  stepIndex w' = stepIndex w /\
  planCounter w' = planCounter w /\ stepCounter w' = stepCounter w /\
  (forall p, p <> planId -> getPlan w' p = getPlan w p) /\
  match getPlan w planId with
  | None => w' = w
  | Some plan =>
      exists plan',
        getPlan w' planId = Some plan' /\
        plan_id plan' = plan_id plan /\ createdAt plan' = createdAt plan /\
        Forall2 static_eq (steps plan) (steps plan')
  end.
Proof.
  unfold executePlan, getPlan.
  destruct (JMap.get (planStore w) planId) as [plan|] eqn:Hget.
  - assert (Hother : forall pl p, p <> planId ->
              JMap.get (planStore (store_plan w planId pl)) p
              = JMap.get (planStore w) p).
    { intros pl p Hp. simpl. apply get_set_other. congruence. }
    destruct (topologicalSort (steps plan)) as [layers|e|].
    + assert (Hrun := run_layers_static executor order
                        (index_by_id (steps plan) 0 JMap.empty) layers
                        (mkExecState (steps plan) JSet.empty [])).
      destruct (run_layers executor order _ layers _) as [[u|e|] st];
        simpl in Hrun;
        repeat (split; [reflexivity || apply Hother|]);
        (eexists; split; [apply get_set_same|]); simpl;
        repeat split; exact Hrun.
    + repeat (split; [reflexivity || apply Hother|]).
      eexists. split; [apply get_set_same|]. simpl.
      repeat split. apply Forall2_static_refl.
    + repeat (split; [reflexivity || apply Hother|]).
      eexists. split; [apply get_set_same|]. simpl.
      repeat split. apply Forall2_static_refl.
  - repeat split; reflexivity.
Qed.

(** X1.  Whatever the outcome, [executePlan] writes only the plan it was
    called for: the step index, both counters and every other stored plan
    are as before; the plan itself keeps its id, creation time and number
    of steps, and each step keeps its id, type, dependencies and
    parameters.  For an unknown plan id the world is unchanged. *)
Theorem executePlan_frame planId executor order w :
  let '(_, w', _) := executePlan planId executor order w in
  stepIndex w' = stepIndex w /\
  planCounter w' = planCounter w /\ stepCounter w' = stepCounter w /\
  (forall p, p <> planId -> getPlan w' p = getPlan w p) /\
  match getPlan w planId with
  | None => w' = w
  | Some plan =>
      exists plan',
        getPlan w' planId = Some plan' /\
        plan_id plan' = plan_id plan /\ createdAt plan' = createdAt plan /\
        Forall2 static_eq (steps plan) (steps plan')
  end.
Proof. apply executePlan_effect. Qed.


(* ------------------------------------------------------------------ *)
(** *** The stores after [createPlan] *)
(* ------------------------------------------------------------------ *)

Lemma plan_id_text_inj t1 c1 t2 c2 :
  plan_id_text t1 c1 = plan_id_text t2 c2 -> c1 = c2.
Proof.
  unfold plan_id_text. intros E. simpl in E. inversion E as [E'].
  apply string_of_nat_inj.
  apply (last_dash_split _ _ _ _ (dash_free_string_of_nat c1)
           (dash_free_string_of_nat c2) E').
Qed.

Lemma create_steps_world Date_now intent tpl : forall stepIds acc w,
  let '(_, _, w') := create_steps Date_now intent tpl stepIds acc w in
  planStore w' = planStore w /\ stepIndex w' = stepIndex w /\
  planCounter w' = planCounter w /\
  stepCounter w' = stepCounter w + length tpl /\
  clockReads w' = clockReads w + length tpl.
Proof.
  induction tpl as [|st tpl IH]; intros stepIds acc w.
  - simpl. repeat split; lia.
  - cbn [create_steps length]. rewrite generateStepId_eq.
    match goal with
    | |- context [create_steps _ _ _ ?a ?b ?c] => specialize (IH a b c)
    end.
    destruct (create_steps _ _ _ _ _ _) as [[ids' acc'] w'].
    simpl in IH. destruct IH as [A [B [C [D E]]]].
    repeat split; auto; lia.
Qed.

Lemma fill_dependencies_length table stepIds ss : forall i ss',
  fill_dependencies table stepIds i ss = Some ss' -> length ss' = length ss.
Proof.
  intros i ss' H. apply fill_dependencies_ids in H as [H _].
  unfold step_ids in H. apply (f_equal (@length string)) in H.
  now rewrite !length_map in H.
Qed.

(** What a successful [createPlan] returns and stores. *)
Lemma createPlan_some Date_now intent w plan w' :
  createPlan Date_now intent w = (Some plan, w') ->
  (exists t, plan_id plan = plan_id_text t (S (planCounter w))) /\
  plan_status plan = pending /\
  NoDup (step_ids (steps plan)) /\
  (forall s, In s (steps plan) -> status s = pending) /\
  planStore w' = JMap.set (planStore w) (plan_id plan) plan /\
  stepIndex w' = index_steps (steps plan) (plan_id plan) (stepIndex w) /\
  planCounter w' = S (planCounter w) /\
  stepCounter w' = stepCounter w + length (steps plan).
Proof.
  intros H. unfold createPlan, buildSteps in H.
  set (tpl := getPlanTemplate (taskType intent)) in *.
  assert (C := create_steps_ids Date_now intent (PlanTemplate.steps tpl)
                 [] [] w eq_refl).
  assert (W := create_steps_world Date_now intent (PlanTemplate.steps tpl)
                 [] [] w).
  destruct (create_steps Date_now intent (PlanTemplate.steps tpl) [] [] w)
    as [[ids ss] w1].
  destruct C as [C1 [C2 C3]]. destruct W as [W1 [W2 [W3 [W4 W5]]]].
  destruct (fill_dependencies (PlanTemplate.dependencies tpl) ids 0 ss)
    as [ss'|] eqn:F; [|discriminate].
  unfold generatePlanId in H. inversion H; subst plan w'. clear H. simpl.
  destruct (fill_dependencies_ids _ _ _ _ _ F) as [F1 F2].
  rewrite W1, W2, W3.
  split; [eauto|]. split; [reflexivity|]. split; [|split].
  - rewrite F1, C1, C2. apply generate_ids_NoDup.
  - intros s Hs. destruct (F2 s Hs) as [s0 [Hs0 ->]].
    destruct (C3 s0 Hs0) as [[]|Hp]. exact Hp.
  - repeat split; auto.
    rewrite (fill_dependencies_length _ _ _ _ _ F).
    assert (L : length ss = length (PlanTemplate.steps tpl)).
    { apply (f_equal (@length string)) in C1.
      unfold step_ids in C1. rewrite length_map in C1.
      rewrite C1, C2. simpl.
      clear. generalize w. induction (PlanTemplate.steps tpl) as [|a l IH];
        intros w0; [reflexivity|].
      cbn [generate_ids length]. rewrite generateStepId_eq.
      specialize (IH (mkWorld (planStore w0) (stepIndex w0) (planCounter w0)
                        (S (stepCounter w0)) (S (clockReads w0)))).
      destruct (generate_ids Date_now (length l) _) as [l' w2].
      simpl in *. now rewrite IH. }
    lia.
Qed.

(** [createPlan] always returns a plan. *)
Lemma createPlan_returns Date_now intent w :
  exists plan w', createPlan Date_now intent w = (Some plan, w').
Proof.
  unfold createPlan, buildSteps, getPlanTemplate.
  destruct (String.eqb (taskType intent) "strategy_generation");
  [|destruct (String.eqb (taskType intent) "content_publish");
  [|destruct (String.eqb (taskType intent) "operation_summary")]];
  cbn; eauto.
Qed.

Lemma index_steps_get ss planId : forall idx x,
  JMap.get (index_steps ss planId idx) x =
  if mem x (step_ids ss) then Some planId else JMap.get idx x.
Proof.
  induction ss as [|s ss IH]; intros idx x; simpl; auto.
  rewrite IH, get_set. fold (mem x (step_ids ss)).
  rewrite (String.eqb_sym x (id s)).
  destruct (mem x (step_ids ss)); [now rewrite orb_true_r|].
  now rewrite orb_false_r.
Qed.

Lemma find_step_NoDup plan s :
  NoDup (step_ids (steps plan)) -> In s (steps plan) ->
  find_step plan (id s) = Some s.
Proof.
  unfold find_step. induction (steps plan) as [|a l IH]; intros Hnd Hs;
    [destruct Hs|].
  simpl in *. inversion Hnd as [|? ? Ha Hl]; subst.
  destruct Hs as [->|Hs].
  - now rewrite String.eqb_refl.
  - destruct (String.eqb_spec (id a) (id s)) as [E|_]; auto.
    exfalso. apply Ha. rewrite E. unfold step_ids. now apply in_map.
Qed.

Lemma find_step_in plan x :
  In x (step_ids (steps plan)) ->
  exists s, find_step plan x = Some s /\ In s (steps plan) /\ id s = x.
Proof.
  unfold find_step, step_ids. intros H.
  destruct (find _ (steps plan)) as [s|] eqn:F.
  - apply find_some in F as [F1 F2]. apply String.eqb_eq in F2. eauto.
  - exfalso. apply in_map_iff in H as [s [E Hs]].
    apply (find_none _ _ F) in Hs. rewrite E, String.eqb_refl in Hs.
    discriminate.
Qed.

(** X2.  [createPlan] followed by the queries: the returned plan is the one
    stored under its id, every step of it is found by its id, and
    [getTaskStatus] reports [pending] for each of its steps, whatever the
    stores held before. *)
Theorem createPlan_then_query Date_now intent w :
  exists plan w',
    createPlan Date_now intent w = (Some plan, w') /\
    getPlan w' (plan_id plan) = Some plan /\
    forall s, In s (steps plan) ->
      find_step plan (id s) = Some s /\
      getTaskStatus w' (id s) = Normal pending.
Proof.
  destruct (createPlan_returns Date_now intent w) as [plan [w' H]].
  exists plan, w'. split; [assumption|].
  destruct (createPlan_some _ _ _ _ _ H)
    as [_ [_ [Hnd [Hpend [Hstore [Hidx _]]]]]].
  assert (Hget : getPlan w' (plan_id plan) = Some plan).
  { unfold getPlan. rewrite Hstore. apply get_set_same. }
  split; [assumption|].
  intros s Hs.
  assert (Hf := find_step_NoDup plan s Hnd Hs).
  split; [assumption|].
  unfold getTaskStatus. rewrite Hidx, index_steps_get.
  assert (Hm : mem (id s) (step_ids (steps plan)) = true).
  { apply mem_In. unfold step_ids. now apply in_map. }
  rewrite Hm. unfold getPlan in Hget. rewrite Hget, Hf.
  now rewrite (Hpend s Hs).
Qed.

(* ------------------------------------------------------------------ *)
(** *** Consistency of the stores in reachable worlds *)
(* ------------------------------------------------------------------ *)

Lemma values_set_absent {V} (m : JMap.t V) k v :
  ~ In k (JMap.keys m) -> map snd (JMap.set m k v) = map snd m ++ [v].
Proof.
  induction m as [|[k' v'] m IH]; simpl; auto.
  intros H. destruct (String.eqb_spec k' k) as [->|Hne]; simpl.
  - tauto.
  - f_equal. apply IH. tauto.
Qed.

Lemma store_wf_initial : store_wf initial_world.
Proof. constructor; simpl; [tauto | discriminate]. Qed.

Lemma store_wf_clearAllPlans w : store_wf (clearAllPlans w).
Proof. constructor; simpl; [tauto | discriminate]. Qed.

Lemma store_wf_counters w w' :
  store_wf w -> planStore w' = planStore w -> stepIndex w' = stepIndex w ->
  planCounter w <= planCounter w' -> store_wf w'.
Proof.
  intros [H1 H2] Hs Hi Hc. constructor.
  - rewrite Hs. intros k Hk. destruct (H1 k Hk) as [t [c [-> Hle]]].
    exists t, c. split; auto. lia.
  - rewrite Hs, Hi. exact H2.
Qed.

(** In a consistent world the id of a new plan is not yet in the store. *)
Lemma createPlan_fresh Date_now intent w plan w' :
  store_wf w -> createPlan Date_now intent w = (Some plan, w') ->
  ~ In (plan_id plan) (JMap.keys (planStore w)).
Proof.
  intros [H1 _] H Hin.
  destruct (createPlan_some _ _ _ _ _ H) as [[t Hid] _].
  destruct (H1 _ Hin) as [t' [c [E Hle]]].
  rewrite Hid in E. apply plan_id_text_inj in E. lia.
Qed.

Lemma store_wf_createPlan Date_now intent w plan w' :
  store_wf w -> createPlan Date_now intent w = (Some plan, w') ->
  store_wf w'.
Proof.
  intros Hwf H.
  assert (Hfresh := createPlan_fresh _ _ _ _ _ Hwf H).
  destruct (createPlan_some _ _ _ _ _ H)
    as [[t Hid] [_ [_ [_ [Hstore [Hidx [Hpc _]]]]]]].
  destruct Hwf as [H1 H2]. constructor.
  - rewrite Hstore, Hpc. intros k Hk. apply in_keys_set in Hk as [->|Hk].
    + exists t, (S (planCounter w)). auto.
    + destruct (H1 k Hk) as [t' [c [-> Hle]]]. exists t', c. split; auto.
  - rewrite Hstore, Hidx. intros x p Hx. rewrite index_steps_get in Hx.
    destruct (mem x (step_ids (steps plan))) eqn:Hm.
    + inversion Hx; subst p. exists plan. split; [apply get_set_same|].
      now apply mem_In.
    + destruct (H2 x p Hx) as [plan0 [Hp Hin]]. exists plan0. split; auto.
      rewrite get_set_other; auto.
      intros E. apply Hfresh. apply in_keys_get. congruence.
Qed.

Lemma store_wf_executePlan planId executor order w :
  store_wf w -> store_wf (snd (fst (executePlan planId executor order w))).
Proof.
  intros [H1 H2].
  assert (E := executePlan_effect planId executor order w).
  destruct (executePlan planId executor order w) as [[out w'] evs].
  simpl. destruct E as [Ei [Ep [_ [Eo Em]]]].
  unfold getPlan in *.
  constructor.
  - rewrite Ep. intros k Hk. apply H1.
    apply in_keys_get. apply in_keys_get in Hk.
    destruct (string_dec k planId) as [->|Hne].
    + destruct (JMap.get (planStore w) planId) eqn:Eg; [discriminate|].
      subst w'. congruence.
    + now rewrite <- (Eo k Hne).
  - rewrite Ei. intros x p Hx. destruct (H2 x p Hx) as [plan0 [Hp Hin]].
    destruct (string_dec p planId) as [->|Hne].
    + rewrite Hp in Em. destruct Em as [plan' [Hg [_ [_ Hst]]]].
      exists plan'. split; auto.
      now rewrite (Forall2_static_ids _ _ Hst).
    + exists plan0. now rewrite (Eo p Hne).
Qed.

Lemma reachable_store_wf Date_now w : reachable Date_now w -> store_wf w.
Proof.
  induction 1 as [|w intent _ IH|w planId executor order _ IH|w _ IH
                  |w _ IH|w _ IH].
  - apply store_wf_initial.
  - destruct (createPlan_returns Date_now intent w) as [plan [w' E]].
    rewrite E. simpl. eapply store_wf_createPlan; eauto.
  - now apply store_wf_executePlan.
  - apply store_wf_clearAllPlans.
  - apply (store_wf_counters w); simpl; auto.
  - apply (store_wf_counters w); simpl; auto.
Qed.

(** X3.  In every world reached through the exported operations,
    [createPlan] stores the new plan under an id that was not in use: the
    list of all plans grows by exactly the new plan, at the end, and every
    plan stored before is still returned unchanged by [getPlan]. *)
Theorem createPlan_keeps_stored_plans Date_now intent w :
  reachable Date_now w ->
  exists plan w',
    createPlan Date_now intent w = (Some plan, w') /\
    getPlan w (plan_id plan) = None /\
    getAllPlans w' = getAllPlans w ++ [plan] /\
    forall p plan0, getPlan w p = Some plan0 -> getPlan w' p = Some plan0.
Proof.
  intros Hr. apply reachable_store_wf in Hr.
  destruct (createPlan_returns Date_now intent w) as [plan [w' H]].
  exists plan, w'. split; [assumption|].
  assert (Hfresh := createPlan_fresh _ _ _ _ _ Hr H).
  destruct (createPlan_some _ _ _ _ _ H)
    as [_ [_ [_ [_ [Hstore _]]]]].
  unfold getPlan, getAllPlans. rewrite Hstore.
  split; [|split].
  - destruct (JMap.get (planStore w) (plan_id plan)) eqn:E; auto.
    exfalso. apply Hfresh. apply in_keys_get. congruence.
  - now apply values_set_absent.
  - intros p plan0 Hp. rewrite get_set_other; auto.
    intros E. apply Hfresh. apply in_keys_get. congruence.
Qed.

Lemma createPlan_keeps_stored_plans_witness :
  exists plan w',
    createPlan frozen_clock (test_intent "content_publish")
      (snd (createPlan frozen_clock (test_intent "strategy_generation")
              initial_world))
    = (Some plan, w') /\
    getPlan (snd (createPlan frozen_clock (test_intent "strategy_generation")
                    initial_world)) (plan_id plan) = None /\
    getAllPlans w'
    = getAllPlans (snd (createPlan frozen_clock
                          (test_intent "strategy_generation") initial_world))
      ++ [plan] /\
    forall p plan0,
      getPlan (snd (createPlan frozen_clock
                      (test_intent "strategy_generation") initial_world)) p
      = Some plan0 ->
      getPlan w' p = Some plan0.
Proof.
  apply (createPlan_keeps_stored_plans frozen_clock
           (test_intent "content_publish")).
  apply reach_createPlan. apply reach_initial.
Defined.

(** X4.  In every world reached through the exported operations,
    [getTaskStatus] either returns the status of a step with the queried id
    that belongs to a stored plan, or throws the step-not-found error
    because the id is not in the step index; the two defensive errors
    (indexed plan missing, step missing from its plan) never occur. *)
Theorem getTaskStatus_reachable Date_now w taskId :
  reachable Date_now w ->
  match getTaskStatus w taskId with
  | Normal st =>
      exists planId plan s,
        JMap.get (stepIndex w) taskId = Some planId /\
        getPlan w planId = Some plan /\
        In s (steps plan) /\ id s = taskId /\ status s = st
  | Throw e =>
      e = TaskStepNotFound taskId /\ JMap.get (stepIndex w) taskId = None
  | NoFuel => False
  end.
Proof.
  intros Hr. apply reachable_store_wf in Hr. destruct Hr as [_ H2].
  unfold getTaskStatus.
  destruct (JMap.get (stepIndex w) taskId) as [p|] eqn:Hi; [|auto].
  destruct (H2 taskId p Hi) as [plan [Hp Hin]]. rewrite Hp.
  destruct (find_step_in plan taskId Hin) as [s [Hf [Hs Hid]]].
  rewrite Hf. exists p, plan, s. auto.
Qed.

Lemma getTaskStatus_reachable_witness :
  match getTaskStatus
          (snd (createPlan frozen_clock (test_intent "content_publish")
                  initial_world)) "step-1700000000000-2" with
  | Normal st =>
      exists planId plan s,
        JMap.get
          (stepIndex (snd (createPlan frozen_clock
                             (test_intent "content_publish") initial_world)))
          "step-1700000000000-2" = Some planId /\
        getPlan (snd (createPlan frozen_clock
                        (test_intent "content_publish") initial_world))
          planId = Some plan /\
        In s (steps plan) /\ id s = "step-1700000000000-2" /\ status s = st
  | Throw e =>
      e = TaskStepNotFound "step-1700000000000-2" /\
      JMap.get
        (stepIndex (snd (createPlan frozen_clock
                           (test_intent "content_publish") initial_world)))
        "step-1700000000000-2" = None
  | NoFuel => False
  end.
Proof.
  apply (getTaskStatus_reachable frozen_clock).
  apply reach_createPlan. apply reach_initial.
Defined.

(* ------------------------------------------------------------------ *)
(** *** The steps built from a template *)
(* ------------------------------------------------------------------ *)

Lemma built_from_new intent st i :
  built_from intent st
    (mkTaskStep i (StepTemplate.type st) []
       (JMap.set
          (JMap.set
             (JMap.set (intent_parameters intent)
                "platform" (VStr (platform intent)))
             "category" (VStr (category intent)))
          "descriptionKey" (VStr (StepTemplate.descriptionKey st)))
       pending None).
Proof.
  unfold built_from; simpl.
  split; [reflexivity|]. split; [reflexivity|].
  rewrite !get_set. simpl.
  repeat split.
  intros k H1 H2 H3.
  rewrite !get_set_other by congruence. reflexivity.
Qed.

Lemma create_steps_built Date_now intent tpl : forall done stepIds acc w,
  Forall2 (built_from intent) done acc ->
  let '(_, acc', _) := create_steps Date_now intent tpl stepIds acc w in
  Forall2 (built_from intent) (done ++ tpl) acc'.
Proof.
  induction tpl as [|st tpl IH]; intros done stepIds acc w H.
  - simpl. now rewrite app_nil_r.
  - cbn [create_steps]. rewrite generateStepId_eq.
    match goal with
    | |- context [create_steps _ _ _ ?a ?b ?c] =>
        specialize (IH (done ++ [st]) a b c)
    end.
    destruct (create_steps _ _ _ _ _ _) as [[ids' acc'] w'].
    rewrite <- app_assoc in IH. simpl in IH. apply IH.
    apply Forall2_app; auto. constructor; [|constructor].
    apply built_from_new.
Qed.

Lemma fill_dependencies_built intent table stepIds : forall tpl ss i ss',
  Forall2 (built_from intent) tpl ss ->
  fill_dependencies table stepIds i ss = Some ss' ->
  Forall2 (built_from intent) tpl ss'.
Proof.
  induction tpl as [|st tpl IH]; intros ss i ss' H F;
    inversion H as [|? s ? ss0 Hs Hrest]; subst; simpl in F.
  - inversion F. constructor.
  - destruct (resolve_indices stepIds (lookup_index table i)) as [deps|];
      [|discriminate].
    destruct (fill_dependencies table stepIds (S i) ss0) as [rest|] eqn:E;
      [|discriminate].
    inversion F; subst ss'. constructor; eauto.
Qed.

Lemma fill_dependencies_nth table stepIds ss : forall i ss' j s',
  fill_dependencies table stepIds i ss = Some ss' ->
  nth_error ss' j = Some s' ->
  resolve_indices stepIds (lookup_index table (i + j))
  = Some (dependencies s').
Proof.
  induction ss as [|s ss IH]; intros i ss' j s' F Hj; simpl in F.
  - inversion F; subst. destruct j; discriminate.
  - destruct (resolve_indices stepIds (lookup_index table i)) as [deps|] eqn:R;
      [|discriminate].
    destruct (fill_dependencies table stepIds (S i) ss) as [rest|] eqn:E;
      [|discriminate].
    inversion F; subst ss'. destruct j as [|j]; simpl in Hj.
    + inversion Hj; subst s'. simpl. now rewrite Nat.add_0_r.
    + replace (i + S j) with (S i + j) by lia. eapply IH; eauto.
Qed.

(** X5.  The plan built for an intent follows the template of its task
    type entry by entry: step k has the type of template entry k, no
    result, the platform and category of the intent and the description
    key of the entry in its parameters, and every other parameter exactly
    as the intent has it; and the dependencies of step k are the ids of the
    steps at the indices that the template's table lists for k. *)
Theorem createPlan_follows_template Date_now intent w :
  exists plan w',
    createPlan Date_now intent w = (Some plan, w') /\
    Forall2 (built_from intent)
      (PlanTemplate.steps (getPlanTemplate (taskType intent))) (steps plan) /\
    forall k s, nth_error (steps plan) k = Some s ->
      resolve_indices (step_ids (steps plan))
        (lookup_index
           (PlanTemplate.dependencies (getPlanTemplate (taskType intent))) k)
      = Some (dependencies s).
Proof.
  destruct (createPlan_returns Date_now intent w) as [plan [w' H]].
  exists plan, w'. split; [assumption|].
  unfold createPlan, buildSteps in H.
  set (tpl := getPlanTemplate (taskType intent)) in *.
  assert (C := create_steps_ids Date_now intent (PlanTemplate.steps tpl)
                 [] [] w eq_refl).
  assert (B := create_steps_built Date_now intent (PlanTemplate.steps tpl)
                 [] [] [] w (Forall2_nil _)).
  destruct (create_steps Date_now intent (PlanTemplate.steps tpl) [] [] w)
    as [[ids ss] w1].
  destruct C as [C1 _]. simpl in B.
  destruct (fill_dependencies (PlanTemplate.dependencies tpl) ids 0 ss)
    as [ss'|] eqn:F; [|discriminate].
  unfold generatePlanId in H. inversion H; subst plan w'. clear H. simpl.
  split.
  - eapply fill_dependencies_built; eauto.
  - intros k s Hk.
    destruct (fill_dependencies_ids _ _ _ _ _ F) as [F1 _].
    rewrite F1, C1.
    apply (fill_dependencies_nth _ _ _ 0 ss' k s F Hk).
Qed.

(* ------------------------------------------------------------------ *)
(** *** Shape of the layers *)
(* ------------------------------------------------------------------ *)

Lemma bfs_nonempty fuel adj : forall deg queue layers pc layers' pc',
  Forall (fun l => l <> []) layers ->
  bfs fuel adj deg queue layers pc = Some (layers', pc') ->
  Forall (fun l : list string => l <> []) layers'.
Proof.
  induction fuel as [|fuel IH]; intros deg queue layers pc layers' pc' Hne H;
    destruct queue as [|q queue]; try rewrite bfs_unfold in H;
    try (simpl in H; discriminate);
    try (simpl in H; inversion H; subst; assumption).
  destruct (drain (q :: queue) adj deg []) as [deg1 nq].
  eapply IH; [|exact H].
  apply Forall_app. split; auto. constructor; [discriminate | constructor].
Qed.

Lemma bfs_prefix fuel adj : forall deg queue layers pc layers' pc',
  bfs fuel adj deg queue layers pc = Some (layers', pc') ->
  exists rest, layers' = layers ++ rest /\ hd [] rest = queue.
Proof.
  induction fuel as [|fuel IH]; intros deg queue layers pc layers' pc' H;
    destruct queue as [|q queue]; try rewrite bfs_unfold in H;
    try (simpl in H; discriminate);
    try (simpl in H; inversion H; subst; exists []; rewrite app_nil_r;
         now auto).
  destruct (drain (q :: queue) adj deg []) as [deg1 nq].
  apply IH in H as [rest [-> _]].
  exists ((q :: queue) :: rest). rewrite <- app_assoc. auto.
Qed.

Lemma tight_snoc es Ls nq :
  tight es Ls ->
  (forall Ls0 p x, Ls = Ls0 ++ [p] -> In x nq ->
                   exists d, In d p /\ In (d, x) es) ->
  tight es (Ls ++ [nq]).
Proof.
  intros Ht Hn L1 p l L2 x Heq Hx.
  destruct L2 as [|z L2] using rev_ind; [|clear IHL2].
  - change (L1 ++ [p; l]) with (L1 ++ [p] ++ [l]) in Heq.
    rewrite app_assoc in Heq. apply app_inj_tail in Heq as [E <-].
    eapply Hn; eauto.
  - change (L1 ++ p :: l :: L2 ++ [z])
      with (L1 ++ (p :: l :: L2) ++ [z]) in Heq.
    rewrite app_assoc in Heq. apply app_inj_tail in Heq as [E _].
    eapply Ht; eauto.
Qed.

Section FrontierShape.

Variables (K : list string) (es : list (string * string)).
Variable adj : JMap.t (list string).
Hypothesis es_closed : forall e, In e es -> In (fst e) K /\ In (snd e) K.
Hypothesis adj_ok : forall k, In k K -> JMap.get adj k = Some (succs es k).

(** Whatever enters the next frontier has an edge from the current one. *)
Lemma drain_preds deg P queue deg' nq :
  bfs_inv K es deg P queue ->
  drain queue adj deg [] = (deg', nq) ->
  forall x, In x nq -> exists d, In d queue /\ In (d, x) es.
Proof.
  intros [Hdeg Hnd Hincl Hzero] Hdrain x Hx.
  destruct (NoDup_app_parts _ _ Hnd) as [HndP [HndQ Hdisj]].
  rewrite drain_flat in Hdrain.
  rewrite (flat_map_ext_in _ (succs es)) in Hdrain.
  2:{ intros q Hq. rewrite adj_ok; auto. apply Hincl, in_or_app. now right. }
  set (L := flat_map (succs es) queue) in *.
  destruct (relax_spec L deg []) as [deg1 [new [E [_ [_ Hin]]]]].
  { intros y Hy. exists (Z.of_nat (rem es P y)).
    assert (HyK : In y K).
    { apply in_flat_succs in Hy as [d [He _]].
      now apply (es_closed (d, y)). }
    split; [now apply Hdeg|].
    unfold L. rewrite occ_flat_succs by assumption.
    rewrite (rem_split es P queue y) by assumption. lia. }
  rewrite E in Hdrain. simpl in Hdrain. inversion Hdrain; subst deg1 new.
  apply Hin in Hx as [Hx _].
  apply in_flat_succs in Hx as [d [He Hd]]. eauto.
Qed.

Lemma bfs_tight : forall fuel deg queue layers pc layers' pc',
  bfs_inv K es deg (concat layers) queue ->
  tight es (layers ++ [queue]) ->
  bfs fuel adj deg queue layers pc = Some (layers', pc') ->
  tight es layers'.
Proof.
  induction fuel as [|fuel IH];
    intros deg queue layers pc layers' pc' Hinv Ht H;
    destruct queue as [|q queue]; try rewrite bfs_unfold in H;
    try (simpl in H; discriminate).
  - simpl in H. inversion H; subst. intros L1 p l L2 x Heq Hx.
    apply (Ht L1 p l (L2 ++ [[]]) x); auto.
    rewrite Heq, <- app_assoc. reflexivity.
  - simpl in H. inversion H; subst. intros L1 p l L2 x Heq Hx.
    apply (Ht L1 p l (L2 ++ [[]]) x); auto.
    rewrite Heq, <- app_assoc. reflexivity.
  - destruct (drain (q :: queue) adj deg []) as [deg1 nq] eqn:Hd.
    assert (Hinv1 := drain_step K es adj es_closed adj_ok _ _ _ _ _ Hinv Hd).
    eapply IH; [| |exact H].
    + rewrite concat_app. simpl. now rewrite app_nil_r.
    + apply tight_snoc; auto.
      intros Ls0 p x Heq Hx. apply app_inj_tail in Heq as [_ <-].
      eapply drain_preds; eauto.
Qed.

End FrontierShape.

(** The frontier-loop run behind a normal return. *)
Lemma topologicalSort_normal_run ss layers :
  topologicalSort ss = Normal layers ->
  exists K g pc,
    graph_for K (edges ss) g /\
    (forall k, In k K <-> In k (step_ids ss)) /\
    (forall e, In e (edges ss) -> In (fst e) K /\ In (snd e) K) /\
    bfs (length ss) (adjacency g) (inDegree g) (initial_queue (inDegree g))
      [] 0 = Some (layers, pc).
Proof.
  intros Hts.
  destruct (topologicalSort_normal _ _ Hts) as [Hres _].
  destruct (build_graph_ok ss Hres) as [K [g [Hb [Hg HK]]]].
  unfold topologicalSort in Hts. rewrite Hb in Hts. unfold layering in Hts.
  destruct (bfs _ _ _ _ _ _) as [[layers' pc]|] eqn:E; [|discriminate].
  destruct (Nat.eqb pc (length ss)); [|discriminate].
  inversion Hts; subst layers'.
  exists K, g, pc.
  split; [assumption|]. split; [assumption|]. split; [|exact E].
  intros [d x] He. simpl. split.
  - apply HK. apply in_edges in He as [s [Hs [_ Hd]]]. eapply Hres; eauto.
  - apply HK. now apply (edges_snd_in ss (d, x)).
Qed.

(** X6.  When [topologicalSort] returns layers: no layer is empty, there
    are at most as many layers as steps, every dependency of a step lies in
    a strictly earlier layer than the step, and so no layer contains both a
    step and one of its dependencies. *)
Theorem topologicalSort_layers_separate ss layers :
  topologicalSort ss = Normal layers ->
  (forall l, In l layers -> l <> []) /\
  length layers <= length ss /\
  (forall s d, In s ss -> In d (dependencies s) ->
               earlier_layer layers d (id s)) /\
  (forall l x y, In l layers -> In x l -> In y l -> ~ depends_on ss x y).
Proof.
  intros Hts.
  destruct (topologicalSort_normal _ _ Hts) as [Hres [Hnd [Hperm Hlay]]].
  destruct (topologicalSort_normal_run _ _ Hts) as [K [g [pc [_ [_ [_ Hb]]]]]].
  assert (Hne : Forall (fun l : list string => l <> []) layers).
  { eapply bfs_nonempty; [|exact Hb]. constructor. }
  assert (HndP : NoDup (concat layers)).
  { eapply Permutation_NoDup; [symmetry; exact Hperm | assumption]. }
  split; [|split; [|split]].
  - now apply Forall_forall.
  - assert (Hlen : length (concat layers) = length ss).
    { rewrite (Permutation_length Hperm). unfold step_ids.
      apply length_map. }
    rewrite <- Hlen. clear - Hne.
    induction Hne as [|l ls Hl _ IH]; simpl; auto.
    rewrite length_app. destruct l; [congruence | simpl; lia].
  - intros s d Hs Hd. apply (layered_earlier _ (edges ss)); auto.
    + eapply Permutation_in; [symmetry; exact Hperm|].
      unfold step_ids. now apply in_map.
    + apply in_edges. now exists s.
  - intros l x y Hl Hx Hy Hdep.
    apply in_split in Hl as [L1 [L2 Heq]].
    assert (Hy1 : In y (concat L1)).
    { apply (Hlay L1 l L2 x y Heq Hx). now apply in_edges. }
    rewrite Heq, concat_app in HndP. simpl in HndP.
    destruct (NoDup_app_parts _ _ HndP) as [_ [_ Hdisj]].
    apply (Hdisj y); auto. apply in_or_app. now left.
Qed.

Lemma topologicalSort_layers_separate_witness :
  (forall l, In l [["a"]; ["b"; "c"]; ["d"]] -> l <> []) /\
  length [["a"]; ["b"; "c"]; ["d"]] <= length diamond_steps /\
  (forall s d, In s diamond_steps -> In d (dependencies s) ->
               earlier_layer [["a"]; ["b"; "c"]; ["d"]] d (id s)) /\
  (forall l x y, In l [["a"]; ["b"; "c"]; ["d"]] -> In x l -> In y l ->
                 ~ depends_on diamond_steps x y).
Proof.
  apply (topologicalSort_layers_separate diamond_steps). reflexivity.
Defined.

(** X7.  The layering is as early as possible: the first layer consists
    of exactly the ids of steps without dependencies, and every member of a
    later layer has a dependency in the layer immediately before. *)
Theorem topologicalSort_layers_earliest ss layers :
  topologicalSort ss = Normal layers ->
  (forall x, In x (hd [] layers) <->
             In x (step_ids ss) /\ forall d, ~ depends_on ss x d) /\
  (forall L1 p l L2 x,
     layers = L1 ++ p :: l :: L2 -> In x l ->
     exists d, In d p /\ depends_on ss x d).
Proof.
  intros Hts.
  destruct (topologicalSort_normal_run _ _ Hts)
    as [K [g [pc [Hg [HK [Hcl Hb]]]]]].
  split.
  - destruct (bfs_prefix _ _ _ _ _ _ _ _ Hb) as [rest [E Hhd]].
    simpl in E. subst rest. rewrite Hhd.
    intros x.
    destruct (initial_queue_spec (inDegree g)) as [_ Q];
      [rewrite (gf_keys _ _ _ Hg); apply (gf_nodup _ _ _ Hg)|].
    rewrite Q. split.
    + intros Hx.
      assert (HxK : In x K).
      { rewrite <- (gf_keys _ _ _ Hg). apply in_keys_get. congruence. }
      split; [now apply HK|].
      rewrite (gf_deg _ _ _ Hg x HxK) in Hx.
      assert (Hz : rem (edges ss) [] x = 0%nat).
      { rewrite rem_nil. inversion Hx. lia. }
      intros d Hd. apply in_edges in Hd.
      apply (proj1 (rem_zero _ _ _) Hz) in Hd. destruct Hd.
    + intros [Hx Hnone]. apply HK in Hx.
      rewrite (gf_deg _ _ _ Hg x Hx). f_equal.
      rewrite <- rem_nil.
      replace (rem (edges ss) [] x) with 0%nat; [reflexivity|].
      symmetry. apply rem_zero. intros d Hd.
      apply in_edges in Hd. now apply Hnone in Hd.
  - intros L1 p l L2 x Heq Hx.
    assert (Ht : tight (edges ss) layers).
    { eapply (bfs_tight K (edges ss) (adjacency g) Hcl (gf_adj _ _ _ Hg));
        [| |exact Hb].
      - simpl. now apply initial_inv.
      - intros A q m B y E. destruct A as [|? [|? ?]]; discriminate. }
    destruct (Ht L1 p l L2 x Heq Hx) as [d [Hd He]].
    exists d. split; auto. now apply in_edges.
Qed.

Lemma topologicalSort_layers_earliest_witness :
  (forall x, In x (hd [] [["a"]; ["b"; "c"]; ["d"]]) <->
             In x (step_ids diamond_steps)
             /\ forall d, ~ depends_on diamond_steps x d) /\
  (forall L1 p l L2 x,
     [["a"]; ["b"; "c"]; ["d"]] = L1 ++ p :: l :: L2 -> In x l ->
     exists d, In d p /\ depends_on diamond_steps x d).
Proof.
  apply (topologicalSort_layers_earliest diamond_steps). reflexivity.
Defined.

(* ------------------------------------------------------------------ *)
(** *** The executor loop, step by step *)
(* ------------------------------------------------------------------ *)

Lemma JSet_has_add s x y :
  JSet.has (JSet.add s x) y = JSet.has s y || String.eqb y x.
Proof.
  unfold JSet.add. destruct (JSet.has s x) eqn:E.
  - destruct (String.eqb_spec y x) as [->|]; [|now rewrite orb_false_r].
    now rewrite E.
  - unfold JSet.has. rewrite existsb_app. simpl. now rewrite orb_false_r.
Qed.

Lemma step_unique ss s s' :
  NoDup (step_ids ss) -> In s ss -> In s' ss -> id s = id s' -> s = s'.
Proof.
  induction ss as [|a ss IH]; intros Hnd Hs Hs' E; [destruct Hs|].
  simpl in Hnd. inversion Hnd as [|? ? Ha Hl]; subst.
  assert (Hin : forall t, In t ss -> In (id t) (step_ids ss))
    by (intros; unfold step_ids; now apply in_map).
  destruct Hs as [->|Hs], Hs' as [->|Hs']; auto.
  - exfalso. apply Ha. rewrite E. auto.
  - exfalso. apply Ha. rewrite <- E. auto.
Qed.

Lemma update_at_map_id (g f : TaskStep -> TaskStep) ss : forall i sx,
  NoDup (step_ids ss) -> nth_error ss i = Some sx ->
  update_at (map g ss) i f
  = map (fun s => if String.eqb (id s) (id sx) then f (g s) else g s) ss.
Proof.
  induction ss as [|a ss IH]; intros i sx Hnd Hi; [destruct i; discriminate|].
  simpl in Hnd. inversion Hnd as [|? ? Ha Hl]; subst.
  destruct i as [|i]; simpl in *.
  - inversion Hi; subst a. rewrite String.eqb_refl. f_equal.
    apply map_ext_in. intros s Hs.
    destruct (String.eqb_spec (id s) (id sx)) as [E|]; auto.
    exfalso. apply Ha. rewrite <- E. unfold step_ids. now apply in_map.
  - destruct (String.eqb_spec (id a) (id sx)) as [E|].
    + exfalso. apply Ha. rewrite E. unfold step_ids. apply in_map.
      eapply nth_error_In; eauto.
    + f_equal. now apply IH.
Qed.

Lemma dep_failed_id_eq ss0 fs s0 :
  NoDup (step_ids ss0) -> In s0 ss0 ->
  dep_failed_id ss0 fs (id s0) = dep_failed fs s0.
Proof.
  intros Hnd Hs. unfold dep_failed_id.
  destruct (dep_failed fs s0) eqn:E.
  - apply existsb_exists. exists s0. now rewrite String.eqb_refl, E.
  - destruct (existsb _ ss0) eqn:X; auto.
    apply existsb_exists in X as [s [Hs' H]].
    apply andb_true_iff in H as [H1 H2]. apply String.eqb_eq in H1.
    rewrite (step_unique ss0 s s0 Hnd Hs' Hs H1) in H2. congruence.
Qed.

Lemma dep_failed_ext fs fs' s0 :
  (forall d, In d (dependencies s0) -> JSet.has fs' d = JSet.has fs d) ->
  dep_failed fs' s0 = dep_failed fs s0.
Proof.
  unfold dep_failed. induction (dependencies s0) as [|d ds IH]; intros H;
    simpl; auto.
  rewrite (H d (or_introl eq_refl)), IH; auto.
  intros; apply H; now right.
Qed.

Lemma settle_step_idem o s : settle_step o (settle_step o s) = settle_step o s.
Proof. destruct o as [v|[m|m|r]]; reflexivity. Qed.

Lemma settle_step_id o s : id (settle_step o s) = id s.
Proof. destruct o as [v|[m|m|r]]; reflexivity. Qed.

Lemma status_settle_step o s :
  status (settle_step o s) = failed <-> is_rejected o = true.
Proof. destruct o as [v|[m|m|r]]; simpl; split; congruence. Qed.

Lemma mem_snoc y l x : mem y (l ++ [x]) = mem y l || String.eqb y x.
Proof. rewrite mem_app. simpl. now rewrite orb_false_r. Qed.

Lemma event_step_event_for c P :
  map event_step (map (fun x : string => event_for (c x) x) P) = P.
Proof.
  rewrite map_map. rewrite <- (map_id P) at 2. apply map_ext.
  intros x. unfold event_for. now destruct (c x).
Qed.

(** What the continuations leave alone: the events, and the steps at the
    positions of other calls. *)
Lemma settle_call_frame c st :
  events (fst (settle_call c st)) = events st /\
  forall j, j <> fst (fst c) ->
    nth_error (ex_steps (fst (settle_call c st))) j
    = nth_error (ex_steps st) j.
Proof.
  destruct c as [[i x] [v|[m|m|r]]]; simpl; (split; [reflexivity|]);
    intros j Hj; rewrite nth_error_update_at;
    destruct (Nat.eqb_spec i j); congruence.
Qed.

Lemma settle_layer_frame L : forall st,
  events (fst (settle_layer L st)) = events st /\
  forall j, ~ In j (map (fun c => fst (fst c)) L) ->
    nth_error (ex_steps (fst (settle_layer L st))) j
    = nth_error (ex_steps st) j.
Proof.
  induction L as [|c L IH]; intros st; simpl; [auto|].
  destruct (settle_call_frame c st) as [E U].
  destruct (settle_call c st) as [st1 [raised|]]; simpl in *.
  - split; [assumption|]. intros j Hj. apply U. intros ->. apply Hj. now left.
  - destruct (IH st1) as [E1 U1]. split; [congruence|].
    intros j Hj. rewrite U1 by tauto. apply U. intros ->. apply Hj. now left.
Qed.

Lemma settle_late_frame n : forall infl st,
  events (settle_late n infl st) = events st /\
  forall j, ~ In j (map (fun c => fst (fst c)) infl) ->
    nth_error (ex_steps (settle_late n infl st)) j
    = nth_error (ex_steps st) j.
Proof.
  induction n as [|n IH]; intros infl st; simpl; [auto|].
  destruct infl as [|c infl]; [auto|].
  destruct (settle_call_frame c st) as [E U].
  destruct (IH infl (fst (settle_call c st))) as [E1 U1].
  split; [congruence|].
  intros j Hj. simpl in Hj. rewrite U1 by tauto. apply U. intros ->.
  apply Hj. now left.
Qed.

Section Verdicts.

Variable executor : StepExecutor.
Variable ss0 : list TaskStep.
Hypothesis ids_nodup : NoDup (step_ids ss0).
Variable refs : JMap.t nat.
Hypothesis refs_ok : refs_for (step_ids ss0) refs.

Lemma dispatch_layer_view (fs : JSet.t) (Pd : list string)
  (Hsub : forall x, JSet.has fs x = true -> In x Pd) :
  forall l2 l1 st infl,
    ex_steps st = map (dview executor fs Pd l1) ss0 ->
    (forall y, JSet.has (failedStepIds st) y
               = JSet.has fs y || (mem y l1 && dep_failed_id ss0 fs y)) ->
    inflight_ok executor ss0 fs l1 infl ->
    NoDup (Pd ++ l1 ++ l2) ->
    (forall x, In x l2 -> In x (step_ids ss0)) ->
    (forall s0 d, In s0 ss0 -> In (id s0) l2 ->
                  In d (dependencies s0) -> In d Pd) ->
    exists st' infl',
      dispatch_layer executor refs l2 st infl = Normal (st', infl') /\
      ex_steps st' = map (dview executor fs Pd (l1 ++ l2)) ss0 /\
      (forall y, JSet.has (failedStepIds st') y
                 = JSet.has fs y
                   || (mem y (l1 ++ l2) && dep_failed_id ss0 fs y)) /\
      inflight_ok executor ss0 fs (l1 ++ l2) infl' /\
      events st'
      = events st
        ++ map (fun x => event_for (dep_failed_id ss0 fs x) x) l2.
Proof.
  induction l2 as [|x l2 IH]; intros l1 st infl Hst Hfs Hinf Hnd Hids Hdeps.
  - exists st, infl. simpl. rewrite !app_nil_r. auto.
  - (* the step behind [x] *)
    destruct (refs_ok x (Hids x (or_introl eq_refl))) as [i [Hget [Hnth _]]].
    apply nth_error_step_ids in Hnth as [s0 [Hs0 Hid]].
    assert (Hin0 : In s0 ss0) by (eapply nth_error_In; eauto).
    destruct (NoDup_app_parts _ _ Hnd) as [_ [Hnd12 HdP]].
    destruct (NoDup_app_parts _ _ Hnd12) as [_ [_ Hd1]].
    assert (HxP : mem x Pd = false).
    { apply mem_false. apply HdP. apply in_or_app. right. now left. }
    assert (Hx1 : mem x l1 = false).
    { apply mem_false. apply Hd1. now left. }
    assert (Hcur : nth_error (ex_steps st) i = Some s0).
    { rewrite Hst, nth_error_map, Hs0. simpl. unfold dview.
      now rewrite Hid, HxP, Hx1. }
    assert (Hdf : existsb (JSet.has (failedStepIds st)) (dependencies s0)
                  = dep_failed fs s0).
    { apply (dep_failed_ext fs (failedStepIds st) s0).
      intros d Hd. rewrite Hfs.
      assert (HdPd : In d Pd).
      { apply (Hdeps s0 d Hin0); auto. rewrite Hid. now left. }
      assert (Hm : mem d l1 = false).
      { apply mem_false. intros Hd1'. apply (HdP d); auto.
        apply in_or_app. now left. }
      now rewrite Hm, orb_false_r. }
    assert (Hdfi : dep_failed_id ss0 fs x = dep_failed fs s0).
    { rewrite <- Hid. now apply dep_failed_id_eq. }
    assert (Hview : forall f,
      f s0 = (if dep_failed fs s0 then cascade_step s0
              else with_status s0 running) ->
      update_at (ex_steps st) i f
      = map (dview executor fs Pd (l1 ++ [x])) ss0).
    { intros f Hf. rewrite Hst.
      rewrite (update_at_map_id _ f ss0 i s0 ids_nodup Hs0).
      apply map_ext_in. intros s Hs. unfold dview.
      rewrite mem_snoc, Hid.
      destruct (String.eqb_spec (id s) x) as [E|Hne].
      - assert (s = s0) by (apply (step_unique ss0); auto; congruence).
        subst s. rewrite Hid, HxP, Hx1. simpl. exact Hf.
      - now rewrite orb_false_r. }
    assert (Hnd' : NoDup (Pd ++ (l1 ++ [x]) ++ l2)).
    { rewrite <- app_assoc. exact Hnd. }
    assert (Hids' : forall y, In y l2 -> In y (step_ids ss0))
      by (intros; apply Hids; now right).
    assert (Hdeps' : forall s d, In s ss0 -> In (id s) l2 ->
                                 In d (dependencies s) -> In d Pd)
      by (intros s d ? ? ?; apply (Hdeps s d); auto; now right).
    simpl dispatch_layer. rewrite Hget, Hcur, Hdf.
    destruct (dep_failed fs s0) eqn:Edf.
    + (* cascaded *)
      match goal with
      | |- context [dispatch_layer _ _ l2 ?s ?f] =>
          destruct (IH (l1 ++ [x]) s f) as [st' [infl' [E [A [B [C D]]]]]];
            [| | |exact Hnd'|exact Hids'|exact Hdeps'|]
      end.
      * simpl. apply Hview. reflexivity.
      * intros y. simpl. rewrite JSet_has_add, Hfs, mem_snoc.
        destruct (String.eqb_spec y x) as [->|Hne].
        -- rewrite Hdfi. simpl.
           destruct (JSet.has fs x), (mem x l1); reflexivity.
        -- now rewrite !orb_false_r.
      * destruct Hinf as [I1 I2]. split.
        -- intros e He. destruct (I1 e He) as [j [s [H1 [H2 [H3 H4]]]]].
           exists j, s. repeat split; auto. apply in_or_app. now left.
        -- intros s Hs Hl Hd. apply in_app_or in Hl as [Hl|[Hl|[]]]; auto.
           assert (s = s0) by (apply (step_unique ss0); auto; congruence).
           subst s. congruence.
      * exists st', infl'. rewrite <- app_assoc in A, B, C. simpl in *.
        split; [exact E|]. split; [exact A|]. split; [exact B|].
        split; [exact C|].
        rewrite D, <- app_assoc. simpl. now rewrite Hdfi.
    + (* the executor is called *)
      match goal with
      | |- context [dispatch_layer _ _ l2 ?s ?f] =>
          destruct (IH (l1 ++ [x]) s f) as [st' [infl' [E [A [B [C D]]]]]];
            [| | |exact Hnd'|exact Hids'|exact Hdeps'|]
      end.
      * simpl. apply Hview. reflexivity.
      * intros y. simpl. rewrite Hfs, mem_snoc.
        destruct (String.eqb_spec y x) as [->|Hne].
        -- rewrite Hdfi. now rewrite !andb_false_r.
        -- now rewrite !orb_false_r.
      * destruct Hinf as [I1 I2]. split.
        -- intros e He. apply in_app_or in He as [He|[<-|[]]].
           ++ destruct (I1 e He) as [j [s [H1 [H2 [H3 H4]]]]].
              exists j, s. repeat split; auto. apply in_or_app. now left.
           ++ exists i, s0. rewrite Hid. repeat split; auto.
              apply in_or_app. right. now left.
        -- intros s Hs Hl Hd. rewrite map_app. apply in_or_app.
           apply in_app_or in Hl as [Hl|[Hl|[]]].
           ++ left. now apply I2.
           ++ right. left. unfold entry_id. simpl. congruence.
      * exists st', infl'. rewrite <- app_assoc in A, B, C. simpl in *.
        split; [exact E|]. split; [exact A|]. split; [exact B|].
        split; [exact C|].
        rewrite D, <- app_assoc. simpl. now rewrite Hdfi.
Qed.


Lemma settle_call_converts i x o st :
  converts o ->
  settle_call (i, x, o) st
  = (mkExecState (update_at (ex_steps st) i (settle_step o))
       (if is_rejected o then JSet.add (failedStepIds st) x
        else failedStepIds st)
       (events st),
     None).
Proof. destruct o as [v|[m|m|r]]; simpl; intros H; tauto. Qed.

(** [settle_layer] goes through the whole layer exactly when [String]
    converts whatever was thrown. *)
Lemma settle_layer_through L : forall st st',
  settle_layer L st = (st', None) -> forall e, In e L -> converts (snd e).
Proof.
  induction L as [|[[i x] o] L IH]; intros st st' H e He; [destruct He|].
  simpl in H.
  destruct o as [v|[m|m|r]]; simpl in H; try discriminate;
    (destruct He as [<-|He]; [exact I|eapply IH; eauto]).
Qed.

Lemma settle_layer_raised L : forall st st' raised rest,
  settle_layer L st = (st', Some (raised, rest)) ->
  (exists i x, In (i, x, Rejected (ThrownUnconvertible raised)) L) /\
  (forall c, In c rest -> In c L).
Proof.
  induction L as [|[[i x] o] L IH]; intros st st' raised rest H;
    [discriminate|].
  simpl in H.
  destruct o as [v|[m|m|r]]; simpl in H;
    try (destruct (IH _ _ _ _ H) as [[j [y Hin]] Hrest];
         split; [exists j, y; now right|intros c Hc; right; now apply Hrest]).
  inversion H; subst. split; [exists i, x; now left|intros c Hc; now right].
Qed.

Lemma settle_layer_view : forall L st cur,
  ex_steps st = map cur ss0 ->
  (forall e, In e L ->
     exists i s0, nth_error ss0 i = Some s0 /\
                  e = (i, id s0, settlement_for executor s0)) ->
  (forall e, In e L -> converts (snd e)) ->
  exists st',
    settle_layer L st = (st', None) /\
    ex_steps st'
    = map (fun s0 => if mem (id s0) (map entry_id L)
                     then settle_step (settlement_for executor s0) (cur s0)
                     else cur s0) ss0 /\
    (forall y, JSet.has (failedStepIds st') y
               = JSet.has (failedStepIds st) y
                 || existsb (fun e => String.eqb y (entry_id e)
                                      && is_rejected (snd e)) L) /\
    events st' = events st.
Proof.
  induction L as [|e L IH]; intros st cur Hst HL Hc.
  - exists st. simpl. split; [reflexivity|]. split; [|split]; auto.
    intros y. now rewrite orb_false_r.
  - destruct (HL e (or_introl eq_refl)) as [i [s0 [Hnth ->]]].
    assert (Hin0 : In s0 ss0) by (eapply nth_error_In; eauto).
    assert (Hc0 : converts (settlement_for executor s0))
      by (apply (Hc _ (or_introl eq_refl))).
    cbn [settle_layer]. rewrite (settle_call_converts _ _ _ _ Hc0).
    match goal with
    | |- context [settle_layer L ?st1] =>
        destruct (IH st1
          (fun s => if String.eqb (id s) (id s0)
                    then settle_step (settlement_for executor s0) (cur s)
                    else cur s)) as [st' [E [A [B C]]]]
    end.
    + simpl. rewrite Hst. now apply update_at_map_id.
    + intros e He. apply HL. now right.
    + intros e He. apply Hc. now right.
    + exists st'. split; [exact E|]. split; [|split].
      * rewrite A. apply map_ext_in. intros s Hs.
        cbn [map entry_id fst snd]. rewrite mem_cons.
        destruct (String.eqb_spec (id s) (id s0)) as [Eq|Hne].
        -- assert (s = s0) by (apply (step_unique ss0); auto). subst s.
           simpl. destruct (mem _ _); [apply settle_step_idem|reflexivity].
        -- reflexivity.
      * intros y. rewrite B. cbn [failedStepIds existsb entry_id fst snd].
        destruct (is_rejected (settlement_for executor s0)).
        -- rewrite JSet_has_add, andb_true_r. now rewrite orb_assoc.
        -- now rewrite andb_false_r.
      * rewrite C. reflexivity.
Qed.

Lemma existsb_ext_in {A} (f g : A -> bool) l :
  (forall x, In x l -> f x = g x) -> existsb f l = existsb g l.
Proof.
  induction l as [|a l IH]; intros H; simpl; auto.
  rewrite (H a (or_introl eq_refl)), IH; auto.
  intros; apply H; now right.
Qed.

(** One round of the loop: the layer is dispatched, and then either all
    its promises settle and the invariant holds with the layer added, or
    [String] threw on what the executor rejected some step with. *)
Lemma layer_view (order : Settling) (Hfair : fair order) Pd l st :
  run_inv executor ss0 Pd st ->
  NoDup (Pd ++ l) ->
  (forall x, In x l -> In x (step_ids ss0)) ->
  (forall s0 d, In s0 ss0 -> In (id s0) l ->
                In d (dependencies s0) -> In d Pd) ->
  exists st1 infl,
    dispatch_layer executor refs l st [] = Normal (st1, infl) /\
    match settle_layer (settle_order order infl) st1 with
    | (st2, None) => run_inv executor ss0 (Pd ++ l) st2
    | (st2, Some (raised, unsettled)) =>
        forall n,
        exists s0, In s0 ss0 /\ In (id s0) l /\
          settlement_for executor s0 = Rejected (ThrownUnconvertible raised)
          /\ In (Invoked (id s0)) (events (settle_late n unsettled st2))
          /\ map event_step (events (settle_late n unsettled st2))
             = map event_step (events st) ++ l
          /\ (forall j s, nth_error ss0 j = Some s ->
                ~ In (id s) (Pd ++ l) ->
                nth_error (ex_steps (settle_late n unsettled st2)) j = Some s)
    end.
Proof.
  intros [Rs Rsub Rf Rd Re] Hnd Hids Hdeps.
  set (fs := failedStepIds st) in *.
  destruct (dispatch_layer_view fs Pd Rsub l [] st [])
    as [st1 [infl [E [A [B [[C1 C2] D]]]]]];
    [exact Rs| | |exact Hnd|exact Hids|exact Hdeps|].
  { intros y. simpl. now rewrite orb_false_r. }
  { split; [intros e []|intros s _ []]. }
  simpl in A, B, C1, C2.
  exists st1, infl. split; [exact E|].
  destruct (NoDup_app_parts _ _ Hnd) as [_ [_ Hdisj]].
  assert (Hperm : Permutation (settle_order order infl) infl) by apply Hfair.
  set (L := settle_order order infl) in *.
  (* the calls that settle are those made *)
  assert (L1 : forall e, In e L ->
            exists i s0, nth_error ss0 i = Some s0 /\ In s0 ss0 /\
              In (id s0) l /\ dep_failed fs s0 = false /\
              e = (i, id s0, settlement_for executor s0)).
  { intros e He. apply (Permutation_in _ Hperm) in He.
    destruct (C1 e He) as [i [s0 [H1 [H2 [H3 H4]]]]].
    exists i, s0. repeat split; auto. eapply nth_error_In; eauto. }
  assert (L2 : forall s0, In s0 ss0 -> In (id s0) l ->
            dep_failed fs s0 = false ->
            In (id s0) (map entry_id L)).
  { intros s0 H1 H2 H3.
    apply (Permutation_in _ (Permutation_map entry_id (Permutation_sym Hperm))).
    now apply C2. }
  destruct (settle_layer L st1) as [st2 [[raised rest]|]] eqn:ES.
  { intros n.
    destruct (settle_layer_raised _ _ _ _ _ ES) as [[i [x Hin]] Hrest].
    destruct (L1 _ Hin) as [j [s0 [Hj [Hs0 [Hl [Hd Heq]]]]]].
    assert (Hset : settlement_for executor s0
                   = Rejected (ThrownUnconvertible raised)) by congruence.
    destruct (settle_layer_frame L st1) as [F1 F2].
    rewrite ES in F1, F2. simpl in F1, F2.
    destruct (settle_late_frame n rest st2) as [G1 G2].
    assert (Hevs : events (settle_late n rest st2)
              = events st
                ++ map (fun x => event_for (dep_failed_id ss0 fs x) x) l)
      by (rewrite G1, F1; exact D).
    exists s0. split; auto. split; auto. split; auto. split; [|split].
    - rewrite Hevs. apply in_or_app. right. apply in_map_iff.
      exists (id s0). split; auto.
      rewrite (dep_failed_id_eq ss0 fs s0 ids_nodup Hs0), Hd. reflexivity.
    - rewrite Hevs, map_app, event_step_event_for. reflexivity.
    - intros k s Hk Hout.
      assert (Hidx : forall e, In e L -> fst (fst e) <> k).
      { intros e He Hek.
        destruct (L1 e He) as [i' [s' [H1 [_ [H3 [_ Hee]]]]]].
        subst e. simpl in Hek. subst i'.
        rewrite Hk in H1. inversion H1; subst s'.
        apply Hout. apply in_or_app. now right. }
      rewrite G2, F2.
      + rewrite A, nth_error_map, Hk. simpl. unfold dview.
        assert (M1 : mem (id s) Pd = false).
        { apply mem_false. intros X. apply Hout, in_or_app. now left. }
        assert (M2 : mem (id s) l = false).
        { apply mem_false. intros X. apply Hout, in_or_app. now right. }
        now rewrite M1, M2.
      + intros X. apply in_map_iff in X as [e [He1 He2]].
        now apply (Hidx e He2).
      + intros X. apply in_map_iff in X as [e [He1 He2]].
        now apply (Hidx e (Hrest _ He2)). }
  assert (Hconv := settle_layer_through _ _ _ ES).
  destruct (settle_layer_view L st1 _ A) as [st2' [ES' [A' [B' C']]]]; auto.
  { intros e He. destruct (L1 e He) as [i [s0 [H1 [_ [_ [_ H4]]]]]].
    now exists i, s0. }
  rewrite ES in ES'. inversion ES'; subst st2'. clear ES'.
  set (fs' := failedStepIds st2) in *.
  assert (Hmem : forall s, In s ss0 ->
            mem (id s) (map entry_id L)
            = mem (id s) l && negb (dep_failed fs s)).
  { intros s Hs.
    destruct (mem (id s) (map entry_id L)) eqn:M.
    - apply mem_In, in_map_iff in M as [e [He1 He2]].
      destruct (L1 e He2) as [i [s0 [H1 [H2 [H3 [H4 ->]]]]]].
      unfold entry_id in He1. simpl in He1.
      assert (s0 = s) by (apply (step_unique ss0); auto). subst s0.
      apply mem_In in H3. now rewrite H3, H4.
    - destruct (mem (id s) l) eqn:Ml; auto.
      destruct (dep_failed fs s) eqn:Ed; auto.
      apply mem_In in Ml. apply mem_false in M. exfalso. apply M.
      now apply L2. }
  assert (Hrej : forall y,
            existsb (fun e => String.eqb y (entry_id e)
                              && is_rejected (snd e)) L = true ->
            exists s0, In s0 ss0 /\ id s0 = y /\ In y l /\
                       dep_failed fs s0 = false /\
                       is_rejected (settlement_for executor s0) = true).
  { intros y Hy. apply existsb_exists in Hy as [e [He Hy]].
    apply andb_true_iff in Hy as [Hy1 Hy2]. apply String.eqb_eq in Hy1.
    destruct (L1 e He) as [i [s0 [H1 [H2 [H3 [H4 ->]]]]]].
    unfold entry_id in Hy1. simpl in Hy1, Hy2. subst y.
    exists s0. auto. }
  assert (Hfs' : forall y, JSet.has fs' y
            = JSet.has fs y || (mem y l && dep_failed_id ss0 fs y)
              || existsb (fun e => String.eqb y (entry_id e)
                                   && is_rejected (snd e)) L).
  { intros y. unfold fs'. rewrite B', B. reflexivity. }
  (* the failed set is unchanged on the layers already run *)
  assert (Hold : forall d, In d Pd -> JSet.has fs' d = JSet.has fs d).
  { intros d Hd. rewrite Hfs'.
    assert (Hl : mem d l = false).
    { apply mem_false. intros Hl. now apply (Hdisj d Hl). }
    rewrite Hl. simpl. rewrite orb_false_r.
    destruct (existsb _ L) eqn:X; [|now rewrite orb_false_r].
    destruct (Hrej d X) as [s0 [_ [_ [H3 _]]]].
    exfalso. now apply (Hdisj d H3). }
  assert (Hdp : forall s0 d, In s0 ss0 -> In (id s0) (Pd ++ l) ->
            In d (dependencies s0) -> In d Pd).
  { intros s0 d Hs Hi Hd. apply in_app_or in Hi as [Hi|Hi].
    - apply (Rd s0 d); auto.
    - apply (Hdeps s0 d); auto. }
  assert (Hdf : forall s0, In s0 ss0 -> In (id s0) (Pd ++ l) ->
            dep_failed fs' s0 = dep_failed fs s0).
  { intros s0 Hs Hi. apply dep_failed_ext. intros d Hd.
    apply Hold. apply (Hdp s0 d); auto. }
  assert (Hv : forall s0, In s0 ss0 -> In (id s0) (Pd ++ l) ->
            verdict executor fs' s0 = verdict executor fs s0).
  { intros s0 Hs Hi. unfold verdict. now rewrite Hdf. }
  constructor; fold fs'.
  - (* steps *)
    rewrite A'. apply map_ext_in. intros s Hs. rewrite (Hmem s Hs).
    unfold view, dview. rewrite mem_app.
    destruct (mem (id s) Pd) eqn:MP.
    + apply mem_In in MP.
      assert (Hl : mem (id s) l = false).
      { apply mem_false. intros Hl. now apply (Hdisj _ Hl). }
      rewrite Hl. simpl. symmetry. apply Hv; auto.
      apply in_or_app. now left.
    + destruct (mem (id s) l) eqn:Ml; simpl; auto.
      apply mem_In in Ml. rewrite Hv; auto;
        [|apply in_or_app; now right].
      unfold verdict. destruct (dep_failed fs s) eqn:Ed; simpl; auto.
  - (* the failed set holds steps that had their turn *)
    intros x Hx. rewrite Hfs' in Hx. apply in_or_app.
    apply orb_true_iff in Hx as [Hx|Hx].
    + apply orb_true_iff in Hx as [Hx|Hx]; [left; now apply Rsub|].
      apply andb_true_iff in Hx as [Hx _]. right. now apply mem_In.
    + destruct (Hrej x Hx) as [s0 [_ [_ [H3 _]]]]. now right.
  - (* and exactly those that ended failed *)
    intros s0 Hs Hi. rewrite (Hv s0 Hs Hi).
    apply in_app_or in Hi as [Hi|Hi].
    + rewrite (Hold _ Hi). now apply Rf.
    + assert (HP : JSet.has fs (id s0) = false).
      { destruct (JSet.has fs (id s0)) eqn:X; auto.
        exfalso. apply (Hdisj _ Hi). now apply Rsub. }
      rewrite Hfs', HP. apply mem_In in Hi. rewrite Hi.
      rewrite (dep_failed_id_eq ss0 fs s0 ids_nodup Hs). simpl.
      unfold verdict. destruct (dep_failed fs s0) eqn:Ed.
      * simpl. split; reflexivity.
      * simpl. rewrite status_settle_step. split.
        -- intros X. destruct (Hrej _ X) as [s [H1 [H2 [_ [_ H5]]]]].
           assert (s = s0) by (apply (step_unique ss0); auto). now subst s.
        -- intros X. apply existsb_exists.
           apply mem_In in Hi.
           pose proof (L2 s0 Hs Hi Ed) as Y.
           apply in_map_iff in Y as [e [He1 He2]].
           exists e. split; auto.
           destruct (L1 e He2) as [i [s [H1 [H2 [H3 [H4 ->]]]]]].
           unfold entry_id in He1. simpl in He1.
           assert (s = s0) by (apply (step_unique ss0); auto). subst s.
           unfold entry_id. simpl. now rewrite String.eqb_refl, X.
  - (* dependencies lie in earlier layers *)
    intros s0 d Hs Hi Hd. apply in_or_app. left. apply (Hdp s0 d); auto.
  - (* events *)
    rewrite C', D, Re, map_app.
    assert (Hev : forall P, (forall x, In x P -> In x (Pd ++ l)) ->
      map (fun x => event_for (dep_failed_id ss0 fs x) x) P
      = map (fun x => event_for (dep_failed_id ss0 fs' x) x) P).
    { intros P HP. apply map_ext_in. intros x Hx. f_equal.
      unfold dep_failed_id. apply existsb_ext_in. intros s Hs.
      destruct (String.eqb_spec (id s) x) as [Eq|]; auto. simpl.
      symmetry. apply Hdf; auto. rewrite Eq. now apply HP. }
    rewrite (Hev Pd), (Hev l); auto.
    + intros; apply in_or_app; now right.
    + intros; apply in_or_app; now left.
Qed.

End Verdicts.


Lemma run_inv_initial executor ss0 :
  run_inv executor ss0 [] (mkExecState ss0 JSet.empty []).
Proof.
  constructor; simpl.
  - symmetry. erewrite map_ext; [apply map_id|]. intros; reflexivity.
  - intros x H. discriminate.
  - intros s0 _ [].
  - intros s0 d _ [].
  - reflexivity.
Qed.

Lemma run_layers_view executor order ss0 refs :
  fair order -> NoDup (step_ids ss0) -> refs_for (step_ids ss0) refs ->
  forall rest Pd st,
    run_inv executor ss0 Pd st ->
    NoDup (Pd ++ concat rest) ->
    (forall x, In x (concat rest) -> In x (step_ids ss0)) ->
    (forall L1 l L2 s0 d, rest = L1 ++ l :: L2 -> In s0 ss0 ->
        In (id s0) l -> In d (dependencies s0) -> In d (Pd ++ concat L1)) ->
    match run_layers executor order refs rest st with
    | (Normal _, st') => run_inv executor ss0 (Pd ++ concat rest) st'
    | (Throw e, st') =>
        exists s0 raised P Q,
          e = Raised raised /\ In s0 ss0 /\
          settlement_for executor s0 = Rejected (ThrownUnconvertible raised)
          /\ In (Invoked (id s0)) (events st')
          /\ concat rest = P ++ Q
          /\ map event_step (events st') = Pd ++ P
          /\ (forall j s, nth_error ss0 j = Some s ->
                ~ In (id s) (Pd ++ P) ->
                nth_error (ex_steps st') j = Some s)
    | (NoFuel, _) => False
    end.
Proof.
  intros Hfair Hnd Hrefs.
  induction rest as [|l rest IH]; intros Pd st Hinv HndP Hids Hdeps.
  - simpl. now rewrite app_nil_r.
  - simpl in HndP, Hids.
    destruct (layer_view executor ss0 Hnd refs Hrefs order Hfair Pd l st Hinv)
      as [st1 [infl [E H]]].
    + rewrite app_assoc in HndP. apply (NoDup_app_parts _ _ HndP).
    + intros x Hx. apply Hids. apply in_or_app. now left.
    + intros s0 d Hs Hi Hd.
      specialize (Hdeps [] l rest s0 d eq_refl Hs Hi Hd). simpl in Hdeps.
      now rewrite app_nil_r in Hdeps.
    + cbn [run_layers concat]. rewrite E.
      destruct (settle_layer (settle_order order infl) st1)
        as [st2 [[raised unsettled]|]].
      * destruct (H (stragglers order))
          as [s0 [Hs0 [Hl [Hset [Hinv0 [Hev Hun]]]]]].
        exists s0, raised, l, (concat rest).
        split; [reflexivity|]. split; [assumption|]. split; [assumption|].
        split; [assumption|]. split; [reflexivity|]. split; [|assumption].
        rewrite Hev, (ri_events _ _ _ _ Hinv), event_step_event_for.
        reflexivity.
      * assert (Hids' : forall x, In x (concat rest) -> In x (step_ids ss0)).
        { intros x Hx. apply Hids. apply in_or_app. now right. }
        assert (Hdeps' : forall L1 l' L2 s0 d, rest = L1 ++ l' :: L2 ->
                  In s0 ss0 -> In (id s0) l' -> In d (dependencies s0) ->
                  In d ((Pd ++ l) ++ concat L1)).
        { intros L1 l' L2 s0 d Heq Hs Hi Hd.
          specialize (Hdeps (l :: L1) l' L2 s0 d). simpl in Hdeps.
          rewrite <- app_assoc. apply Hdeps; auto. now rewrite Heq. }
        assert (HndP' : NoDup ((Pd ++ l) ++ concat rest))
          by now rewrite <- app_assoc.
        specialize (IH (Pd ++ l) st2 H HndP' Hids' Hdeps').
        destruct (run_layers executor order refs rest st2) as [[u|e|] st'].
        -- now rewrite app_assoc.
        -- destruct IH as [s0 [r [P [Q [A1 [A2 [A3 [A4 [A5 [A6 A7]]]]]]]]]].
           exists s0, r, (l ++ P), Q.
           rewrite <- app_assoc in A6.
           split; [assumption|]. split; [assumption|].
           split; [assumption|]. split; [assumption|].
           split; [now rewrite A5, app_assoc|]. split; [assumption|].
           intros j s Hj Hout. apply (A7 j s Hj).
           now rewrite <- app_assoc.
        -- exact IH.
Qed.

(** What a call on a plan that [topologicalSort] accepts comes to: either
    every layer is run, or [String] threw on what the executor rejected a
    step with, and the loop stopped in that step's layer. *)
Lemma executePlan_run w planId plan executor order layers :
  fair order ->
  getPlan w planId = Some plan ->
  topologicalSort (steps plan) = Normal layers ->
  exists st,
    (executePlan planId executor order w
     = (Normal tt,
        store_plan w planId
          (mkExecutionPlan (plan_id plan) (ex_steps st)
             (final_status (ex_steps st) running) (createdAt plan)),
        events st) /\
     run_inv executor (steps plan) (concat layers) st) \/
    (exists s0 raised P Q,
       executePlan planId executor order w
       = (Throw (Raised raised),
          store_plan w planId
            (mkExecutionPlan (plan_id plan) (ex_steps st) running
               (createdAt plan)),
          events st) /\
       In s0 (steps plan) /\
       executor (handed_over s0) = Rejected (ThrownUnconvertible raised) /\
       In (Invoked (id s0)) (events st) /\
       concat layers = P ++ Q /\
       map event_step (events st) = P /\
       (forall j s, nth_error (steps plan) j = Some s -> ~ In (id s) P ->
          nth_error (ex_steps st) j = Some s)).
Proof.
  intros Hfair Hget Hts.
  destruct (topologicalSort_normal _ _ Hts) as [Hres [Hnd [Hperm Hlay]]].
  assert (H := run_layers_view executor order (steps plan)
              (index_by_id (steps plan) 0 JMap.empty) Hfair Hnd
              (index_by_id_refs _ Hnd) layers []
              (mkExecState (steps plan) JSet.empty [])
              (run_inv_initial _ _)).
  unfold executePlan. unfold getPlan in Hget. rewrite Hget, Hts.
  destruct (run_layers executor order _ layers _) as [[u|e|] st];
    exists st.
  - left. split; [reflexivity|]. apply H.
    + simpl. apply (Permutation_NoDup (Permutation_sym Hperm) Hnd).
    + intros x Hx. apply (Permutation_in _ Hperm Hx).
    + intros L1 l L2 s0 d Heq Hs Hi Hd. simpl.
      apply (Hlay L1 l L2 (id s0) d Heq Hi). apply in_edges. exists s0. auto.
  - right.
    destruct H as [s0 [r [P [Q [A1 [A2 [A3 [A4 [A5 [A6 A7]]]]]]]]]].
    + simpl. apply (Permutation_NoDup (Permutation_sym Hperm) Hnd).
    + intros x Hx. apply (Permutation_in _ Hperm Hx).
    + intros L1 l L2 s0 d Heq Hs Hi Hd. simpl.
      apply (Hlay L1 l L2 (id s0) d Heq Hi). apply in_edges. exists s0. auto.
    + subst e. exists s0, r, P, Q. simpl in A6, A7. auto 10.
  - exfalso. apply H.
    + simpl. apply (Permutation_NoDup (Permutation_sym Hperm) Hnd).
    + intros x Hx. apply (Permutation_in _ Hperm Hx).
    + intros L1 l L2 s0 d Heq Hs Hi Hd. simpl.
      apply (Hlay L1 l L2 (id s0) d Heq Hi). apply in_edges. exists s0. auto.
Qed.

Lemma verdict_id executor fs s0 : id (verdict executor fs s0) = id s0.
Proof.
  unfold verdict. destruct (dep_failed fs s0);
    [reflexivity|apply settle_step_id].
Qed.

Lemma outcome_id executor final s0 : id (outcome executor final s0) = id s0.
Proof.
  unfold outcome. destruct (has_failed_dependency final s0);
    [reflexivity|apply settle_step_id].
Qed.

Lemma ended_failed_map g ss0 d :
  (forall s, id (g s) = id s) ->
  ended_failed (map g ss0) d
  = existsb (fun s0 => String.eqb (id s0) d
                       && TaskStatus_eqb (status (g s0)) failed) ss0.
Proof.
  intros Hg. unfold ended_failed. induction ss0 as [|a l IH]; simpl; auto.
  now rewrite Hg, IH.
Qed.

(** The invariant after the last layer, without the set of failed ids. *)
Lemma run_inv_final executor ss0 Pd st :
  NoDup (step_ids ss0) -> deps_resolve ss0 ->
  (forall x, In x (step_ids ss0) -> In x Pd) ->
  run_inv executor ss0 Pd st ->
  ex_steps st = map (outcome executor (ex_steps st)) ss0 /\
  events st = map (fun x => event_for (cascaded_id ss0 (ex_steps st) x) x) Pd.
Proof.
  intros Hnd Hres Hall [Rs Rsub Rf Rd Re].
  set (fs := failedStepIds st) in *.
  assert (Hin : forall s, In s ss0 -> In (id s) Pd)
    by (intros; apply Hall; unfold step_ids; now apply in_map).
  assert (Hsteps : ex_steps st = map (verdict executor fs) ss0).
  { rewrite Rs. apply map_ext_in. intros s Hs. unfold view.
    apply Hin, mem_In in Hs. now rewrite Hs. }
  assert (Hend : forall d, In d (step_ids ss0) ->
            ended_failed (ex_steps st) d = JSet.has fs d).
  { intros d Hd. rewrite Hsteps, ended_failed_map by apply verdict_id.
    apply in_map_iff in Hd as [sd [Hid Hsd]]. subst d.
    apply Bool.eq_iff_eq_true. rewrite existsb_exists. split.
    - intros [s [Hs H]]. apply andb_true_iff in H as [H1 H2].
      apply String.eqb_eq in H1. apply TaskStatus_eqb_eq in H2.
      assert (s = sd) by (apply (step_unique ss0); auto). subst s.
      apply Rf; auto.
    - intros H. exists sd. split; auto. rewrite String.eqb_refl. simpl.
      apply TaskStatus_eqb_eq. apply Rf; auto. }
  assert (Hdf : forall s, In s ss0 ->
            has_failed_dependency (ex_steps st) s = dep_failed fs s).
  { intros s Hs. unfold has_failed_dependency, dep_failed.
    apply existsb_ext_in. intros d Hd. apply Hend. eapply Hres; eauto. }
  split.
  - transitivity (map (verdict executor fs) ss0); [exact Hsteps|].
    apply map_ext_in. intros s Hs. unfold outcome, verdict. now rewrite Hdf.
  - rewrite Re. apply map_ext. intros x. f_equal.
    unfold dep_failed_id, cascaded_id. apply existsb_ext_in.
    intros s Hs. now rewrite Hdf.
Qed.

(** The equation for the steps a run leaves has one solution. *)
Lemma outcome_unique executor ss0 layers f1 f2 :
  (forall x, In x (step_ids ss0) -> In x (concat layers)) ->
  layered (edges ss0) layers ->
  f1 = map (outcome executor f1) ss0 ->
  f2 = map (outcome executor f2) ss0 ->
  f1 = f2.
Proof.
  intros Hall Hlay Hf1 Hf2.
  assert (K : forall done rest, layers = done ++ rest ->
            forall s0, In s0 ss0 -> In (id s0) (concat done) ->
            outcome executor f1 s0 = outcome executor f2 s0).
  { induction done as [|l done IH] using rev_ind; intros rest Heq s0 Hs Hi.
    - destruct Hi.
    - rewrite concat_app in Hi. simpl in Hi. rewrite app_nil_r in Hi.
      rewrite <- app_assoc in Heq. simpl in Heq.
      apply in_app_or in Hi as [Hi|Hi]; [now apply (IH (l :: rest))|].
      unfold outcome.
      assert (Hh : has_failed_dependency f1 s0 = has_failed_dependency f2 s0).
      { unfold has_failed_dependency. apply existsb_ext_in. intros d Hd.
        assert (HdP : In d (concat done)).
        { apply (Hlay done l rest (id s0) d Heq Hi).
          apply in_edges. exists s0. auto. }
        replace (ended_failed f1 d)
          with (ended_failed (map (outcome executor f1) ss0) d)
          by (now rewrite <- Hf1).
        replace (ended_failed f2 d)
          with (ended_failed (map (outcome executor f2) ss0) d)
          by (now rewrite <- Hf2).
        rewrite !ended_failed_map by apply outcome_id.
        apply existsb_ext_in. intros s Hs'.
        destruct (String.eqb_spec (id s) d) as [E|]; auto. simpl.
        rewrite (IH (l :: rest) Heq s Hs'); auto. now rewrite E. }
      now rewrite Hh. }
  transitivity (map (outcome executor f1) ss0); [exact Hf1|].
  transitivity (map (outcome executor f2) ss0); [|now symmetry].
  apply map_ext_in. intros s Hs. apply (K layers []).
  - now rewrite app_nil_r.
  - assumption.
  - apply Hall. unfold step_ids. now apply in_map.
Qed.

(** The outcome, field by field. *)
Lemma outcome_spec executor final s0 :
  step_outcome executor final s0 (outcome executor final s0).
Proof.
  unfold step_outcome, outcome, settlement_for, settled_as.
  destruct (has_failed_dependency final s0); [reflexivity|].
  change (with_status s0 running) with (handed_over s0).
  destruct (executor (handed_over s0)) as [v|[m|m|r]]; reflexivity.
Qed.

Lemma outcome_Forall2 executor final ss0 :
  Forall2 (step_outcome executor final) ss0 (map (outcome executor final) ss0).
Proof.
  induction ss0 as [|a l IH]; simpl; constructor; auto using outcome_spec.
Qed.

(** A call that returns has run every layer. *)
Lemma executePlan_returned w planId plan executor order layers w' evs :
  fair order ->
  getPlan w planId = Some plan ->
  topologicalSort (steps plan) = Normal layers ->
  executePlan planId executor order w = (Normal tt, w', evs) ->
  exists final,
    w' = store_plan w planId
           (mkExecutionPlan (plan_id plan) final (final_status final running)
              (createdAt plan)) /\
    evs = map (fun x => event_for (cascaded_id (steps plan) final x) x)
            (concat layers) /\
    final = map (outcome executor final) (steps plan).
Proof.
  intros Hfair Hget Hts Hex.
  destruct (executePlan_run w planId plan executor order layers
              Hfair Hget Hts) as [st [[E Hinv]|[s0 [r [P [Q [E _]]]]]]];
    rewrite E in Hex; [|discriminate].
  destruct (topologicalSort_normal _ _ Hts) as [Hres [Hnd [Hperm Hlay]]].
  destruct (run_inv_final executor (steps plan) (concat layers) st Hnd Hres)
    as [A B]; auto.
  { intros x Hx. apply (Permutation_in _ (Permutation_sym Hperm) Hx). }
  exists (ex_steps st). inversion Hex; subst w' evs. rewrite B at 1. auto.
Qed.

(** The call returns when [String] can convert whatever is thrown. *)
Lemma executePlan_returns w planId plan executor order layers :
  fair order ->
  getPlan w planId = Some plan ->
  topologicalSort (steps plan) = Normal layers ->
  throws_messages executor (steps plan) ->
  exists w' evs, executePlan planId executor order w = (Normal tt, w', evs).
Proof.
  intros Hfair Hget Hts Hmsg.
  destruct (executePlan_run w planId plan executor order layers
              Hfair Hget Hts)
    as [st [[E Hinv]|[s0 [r [P [Q [E [Hs0 [Hrej _]]]]]]]]].
  - eauto.
  - now elim (Hmsg s0 r Hs0).
Qed.

(** The outcome of a successful call, in full. *)
Lemma executePlan_outcome_run w planId plan executor order layers :
  fair order ->
  getPlan w planId = Some plan ->
  topologicalSort (steps plan) = Normal layers ->
  throws_messages executor (steps plan) ->
  exists final,
    executePlan planId executor order w
    = (Normal tt,
       store_plan w planId
         (mkExecutionPlan (plan_id plan) final (final_status final running)
            (createdAt plan)),
       map (fun x => event_for (cascaded_id (steps plan) final x) x)
         (concat layers)) /\
    final = map (outcome executor final) (steps plan).
Proof.
  intros Hfair Hget Hts Hmsg.
  destruct (executePlan_returns w planId plan executor order layers
              Hfair Hget Hts Hmsg) as [w' [evs E]].
  destruct (executePlan_returned w planId plan executor order layers w' evs
              Hfair Hget Hts E) as [final [A [B C]]].
  exists final. split; [|exact C]. rewrite E. now subst.
Qed.

Lemma in_events_cascaded (c : string -> bool) P x :
  In (Cascaded x) (map (fun y => event_for (c y) y) P)
  <-> In x P /\ c x = true.
Proof.
  rewrite in_map_iff. split.
  - intros [y [E Hy]]. unfold event_for in E.
    destruct (c y) eqn:C; inversion E; subst; auto.
  - intros [H C]. exists x. unfold event_for. now rewrite C.
Qed.

Lemma in_events_invoked (c : string -> bool) P x :
  In (Invoked x) (map (fun y => event_for (c y) y) P)
  <-> In x P /\ c x = false.
Proof.
  rewrite in_map_iff. split.
  - intros [y [E Hy]]. unfold event_for in E.
    destruct (c y) eqn:C; inversion E; subst; auto.
  - intros [H C]. exists x. unfold event_for. now rewrite C.
Qed.

Lemma cascaded_id_eq ss0 final s0 :
  NoDup (step_ids ss0) -> In s0 ss0 ->
  cascaded_id ss0 final (id s0) = has_failed_dependency final s0.
Proof.
  intros Hnd Hs. unfold cascaded_id.
  destruct (has_failed_dependency final s0) eqn:E.
  - apply existsb_exists. exists s0. now rewrite String.eqb_refl, E.
  - destruct (existsb _ ss0) eqn:X; auto.
    apply existsb_exists in X as [s [Hs' H]].
    apply andb_true_iff in H as [H1 H2]. apply String.eqb_eq in H1.
    assert (s = s0) by (apply (step_unique ss0); auto). subst s. congruence.
Qed.

Lemma no_failure_no_cascade final :
  (forall s, In s final -> status s <> failed) ->
  (forall s0, has_failed_dependency final s0 = false) /\
  (forall ss0 x, cascaded_id ss0 final x = false).
Proof.
  intros H.
  assert (He : forall d, ended_failed final d = false).
  { intros d. unfold ended_failed.
    destruct (existsb _ final) eqn:X; auto.
    apply existsb_exists in X as [s [Hs X]].
    apply andb_true_iff in X as [_ X]. apply TaskStatus_eqb_eq in X.
    now elim (H s Hs). }
  assert (Hh : forall s0, has_failed_dependency final s0 = false).
  { intros s0. unfold has_failed_dependency.
    induction (dependencies s0) as [|d ds IH]; simpl; auto.
    now rewrite He. }
  split; auto.
  intros ss0 x. unfold cascaded_id.
  induction ss0 as [|a l IH]; simpl; auto.
  now rewrite Hh, andb_false_r.
Qed.

Lemma find_outcome executor final ss0 s0 planId st ca :
  final = map (outcome executor final) ss0 ->
  NoDup (step_ids ss0) -> In s0 ss0 ->
  find_step (mkExecutionPlan planId final st ca) (id s0)
  = Some (outcome executor final s0).
Proof.
  intros F Hnd Hs.
  set (plan' := mkExecutionPlan planId final st ca).
  assert (Hf : find_step plan' (id (outcome executor final s0))
               = Some (outcome executor final s0)).
  { apply find_step_NoDup; simpl.
    - replace (step_ids final) with (step_ids ss0); auto.
      rewrite F at 1. unfold step_ids. rewrite map_map.
      apply map_ext. intros s. now rewrite outcome_id.
    - rewrite F at 2. now apply in_map. }
  now rewrite outcome_id in Hf.
Qed.

(** What an event says about the stored step. *)
Lemma events_meaning executor final ss0 P s0 planId st ca :
  final = map (outcome executor final) ss0 ->
  NoDup (step_ids ss0) -> In s0 ss0 ->
  let evs := map (fun x => event_for (cascaded_id ss0 final x) x) P in
  let plan' := mkExecutionPlan planId final st ca in
  (In (Cascaded (id s0)) evs ->
     find_step plan' (id s0)
     = Some (failed_with s0 "Dependency step failed")) /\
  (In (Invoked (id s0)) evs ->
     find_step plan' (id s0)
     = Some (settled_as (executor (handed_over s0)) s0)).
Proof.
  intros F Hnd Hs evs plan'. unfold plan'.
  rewrite (find_outcome executor final ss0 s0 planId st ca F Hnd Hs).
  assert (O := outcome_spec executor final s0). unfold step_outcome in O.
  split; intros H.
  - apply in_events_cascaded in H as [_ H].
    rewrite (cascaded_id_eq _ _ _ Hnd Hs) in H. rewrite H in O.
    now rewrite O.
  - apply in_events_invoked in H as [_ H].
    rewrite (cascaded_id_eq _ _ _ Hnd Hs) in H. rewrite H in O.
    now rewrite O.
Qed.

(** X8.  The outcome of [executePlan] on a stored plan that
    [topologicalSort] accepts, for every order in which the promises of a
    layer settle and every executor that throws only values with a message
    (an [Error], or a value [String] converts): the call returns; the steps
    are visited in layer order; a step one of whose dependencies ended
    [failed] is not passed to the executor and becomes [failed] with result
    [{ error: 'Dependency step failed' }]; every other step is passed to the
    executor with status [running] and becomes [completed] with the value
    the promise resolves to as result, or [failed] with result
    [{ error: message }] for the message of what it rejects with.  Id, type,
    dependencies and parameters of every step stay as they were. *)
Theorem executePlan_step_outcomes w planId plan executor order layers :
  fair order ->
  getPlan w planId = Some plan ->
  topologicalSort (steps plan) = Normal layers ->
  throws_messages executor (steps plan) ->
  exists w' evs plan',
    executePlan planId executor order w = (Normal tt, w', evs) /\
    getPlan w' planId = Some plan' /\
    Forall2 (step_outcome executor (steps plan')) (steps plan) (steps plan') /\
    evs = map (fun x => event_for (cascaded_id (steps plan) (steps plan') x) x)
            (concat layers).
Proof.
  intros Hfair Hget Hts Hmsg.
  destruct (executePlan_outcome_run w planId plan executor order layers
              Hfair Hget Hts Hmsg) as [final [E F]].
  eexists _, _, _. split; [exact E|].
  split; [apply getPlan_store_plan|]. simpl. split; [|reflexivity].
  pose proof (outcome_Forall2 executor final (steps plan)) as G.
  rewrite <- F in G. exact G.
Qed.

Lemma executePlan_step_outcomes_witness :
  exists w' evs plan',
    executePlan "plan-1" fail_b in_reverse_order diamond_world
    = (Normal tt, w', evs) /\
    getPlan w' "plan-1" = Some plan' /\
    Forall2 (step_outcome fail_b (steps plan')) (steps diamond_plan)
      (steps plan') /\
    evs = map (fun x =>
                 event_for (cascaded_id (steps diamond_plan) (steps plan') x) x)
            (concat [["a"]; ["b"; "c"]; ["d"]]).
Proof.
  apply (executePlan_step_outcomes diamond_world "plan-1" diamond_plan fail_b
           in_reverse_order [["a"]; ["b"; "c"]; ["d"]]).
  - apply fair_in_reverse_order.
  - reflexivity.
  - vm_compute. reflexivity.
  - intros s0 raised _. unfold fail_b.
    destruct (String.eqb _ _); discriminate.
Defined.

(** X9.  For an executor that throws only values with a message, the
    order in which the promises of a layer settle has no effect on what
    [executePlan] does: the way the call ends, the plan it leaves in the
    store and the executor calls made are the same for any two orders. *)
Theorem executePlan_settling_order_irrelevant planId executor order1 order2 w :
  fair order1 -> fair order2 ->
  (forall plan, getPlan w planId = Some plan ->
                throws_messages executor (steps plan)) ->
  executePlan planId executor order1 w = executePlan planId executor order2 w.
Proof.
  intros H1 H2 Hmsg.
  destruct (getPlan w planId) as [plan|] eqn:Hget.
  2:{ unfold executePlan. unfold getPlan in Hget. now rewrite Hget. }
  specialize (Hmsg plan eq_refl).
  destruct (topologicalSort (steps plan)) as [layers|e|] eqn:Hts.
  - destruct (executePlan_outcome_run w planId plan executor order1 layers
                H1 Hget Hts Hmsg) as [f1 [E1 F1]].
    destruct (executePlan_outcome_run w planId plan executor order2 layers
                H2 Hget Hts Hmsg) as [f2 [E2 F2]].
    destruct (topologicalSort_normal _ _ Hts) as [Hres [Hnd [Hperm Hlay]]].
    assert (f1 = f2).
    { apply (outcome_unique executor (steps plan) layers); auto.
      intros x Hx. apply (Permutation_in _ (Permutation_sym Hperm) Hx). }
    subst f2. now rewrite E1, E2.
  - unfold executePlan. unfold getPlan in Hget. now rewrite Hget, Hts.
  - unfold executePlan. unfold getPlan in Hget. now rewrite Hget, Hts.
Qed.

Lemma executePlan_settling_order_irrelevant_witness :
  executePlan "plan-1" fail_b in_call_order diamond_world
  = executePlan "plan-1" fail_b in_reverse_order diamond_world.
Proof.
  apply (executePlan_settling_order_irrelevant "plan-1" fail_b in_call_order
           in_reverse_order diamond_world).
  - apply fair_in_call_order.
  - apply fair_in_reverse_order.
  - intros plan _ s0 raised _. unfold fail_b.
    destruct (String.eqb _ _); discriminate.
Defined.

(** Without that, the order shows: when [String] throws on what step "b"
    of the diamond was rejected with, step "c" of the same layer is still
    [running] when the call is rejected if the promise of "b" settled first,
    and [completed] if its own promise did. *)
Example settling_order_shows :
  let defeat_b s :=
    if String.eqb (id s) "b" then Rejected (ThrownUnconvertible type_error)
    else Resolved (VStr (id s)) in
  let status_of_c order :=
    match getPlan
            (snd (fst (executePlan "plan-1" defeat_b order diamond_world)))
            "plan-1" with
    | Some plan' => option_map status (find_step plan' "c")
    | None => None
    end in
  status_of_c in_call_order = Some running /\
  status_of_c in_reverse_order = Some completed.
Proof. vm_compute. split; reflexivity. Qed.

(** X10.  When the executor's promise resolves for every step of an
    accepted plan, [executePlan] calls the executor for every step, in layer
    order, every step ends [completed] with the value its promise resolved
    to as result and is otherwise as it was, and the plan ends
    [completed]. *)
Theorem executePlan_all_resolved w planId plan executor order layers :
  fair order ->
  getPlan w planId = Some plan ->
  topologicalSort (steps plan) = Normal layers ->
  (forall s0, In s0 (steps plan) ->
     exists v, executor (handed_over s0) = Resolved v) ->
  exists w' plan',
    executePlan planId executor order w
    = (Normal tt, w', map Invoked (concat layers)) /\
    getPlan w' planId = Some plan' /\
    plan_status plan' = completed /\
    Forall2 (fun s0 s =>
               exists v, executor (handed_over s0) = Resolved v /\
                         s = completed_with s0 v)
      (steps plan) (steps plan').
Proof.
  intros Hfair Hget Hts Hok.
  assert (Hmsg : throws_messages executor (steps plan)).
  { intros s0 raised Hs E. destruct (Hok s0 Hs) as [v Hv]. congruence. }
  destruct (executePlan_outcome_run w planId plan executor order layers
              Hfair Hget Hts Hmsg) as [final [E F]].
  destruct (topologicalSort_normal _ _ Hts) as [Hres [Hnd [Hperm Hlay]]].
  set (good := map (fun s0 => settle_step (settlement_for executor s0) s0)
                 (steps plan)).
  assert (Hgood : forall s, In s good -> status s = completed).
  { intros s Hs. apply in_map_iff in Hs as [s0 [<- Hs0]].
    destruct (Hok s0 Hs0) as [v Hv]. unfold settlement_for.
    change (with_status s0 running) with (handed_over s0). now rewrite Hv. }
  destruct (no_failure_no_cascade good) as [Hh Hc].
  { intros s Hs. rewrite (Hgood s Hs). discriminate. }
  assert (Hfinal : final = good).
  { apply (outcome_unique executor (steps plan) layers); auto.
    - intros x Hx. apply (Permutation_in _ (Permutation_sym Hperm) Hx).
    - apply map_ext. intros s0. unfold outcome. now rewrite Hh. }
  subst final.
  eexists _, _. split; [|split; [apply getPlan_store_plan|]].
  - rewrite E. f_equal. apply map_ext. intros x. now rewrite Hc.
  - simpl. split.
    + unfold final_status.
      replace (forallb _ good) with true; auto.
      symmetry. apply forallb_forall. intros s Hs.
      now apply TaskStatus_eqb_eq, Hgood.
    + unfold good. clear - Hok.
      induction (steps plan) as [|a l IH]; simpl; constructor.
      * destruct (Hok a (or_introl eq_refl)) as [v Hv]. exists v.
        split; [assumption|]. unfold settlement_for.
        change (with_status a running) with (handed_over a).
        now rewrite Hv.
      * apply IH. intros; apply Hok; now right.
Qed.

Lemma executePlan_all_resolved_witness :
  exists w' plan',
    executePlan "plan-1" (fun s => Resolved (VStr (id s))) in_reverse_order
      diamond_world
    = (Normal tt, w', map Invoked (concat [["a"]; ["b"; "c"]; ["d"]])) /\
    getPlan w' "plan-1" = Some plan' /\
    plan_status plan' = completed /\
    Forall2 (fun s0 s =>
               exists v, Resolved (VStr (id (handed_over s0))) = Resolved v /\
                         s = completed_with s0 v)
      (steps diamond_plan) (steps plan').
Proof.
  apply (executePlan_all_resolved diamond_world "plan-1" diamond_plan
           (fun s => Resolved (VStr (id s))) in_reverse_order
           [["a"]; ["b"; "c"]; ["d"]]).
  - apply fair_in_reverse_order.
  - reflexivity.
  - vm_compute. reflexivity.
  - intros s0 _. eexists. reflexivity.
Defined.

Section FailureOrigin.

Variable executor : StepExecutor.
Variable ss0 : list TaskStep.
Variable final : list TaskStep.
Hypothesis ids_nodup : NoDup (step_ids ss0).
Hypothesis final_eq : final = map (outcome executor final) ss0.

Lemma ended_failed_outcome d :
  ended_failed final d = true <->
  exists sd, In sd ss0 /\ id sd = d /\
             status (outcome executor final sd) = failed.
Proof.
  replace (ended_failed final d)
    with (ended_failed (map (outcome executor final) ss0) d)
    by (now rewrite <- final_eq).
  rewrite ended_failed_map by apply outcome_id.
  rewrite existsb_exists. split.
  - intros [s [Hs H]]. apply andb_true_iff in H as [H1 H2].
    apply String.eqb_eq in H1. apply TaskStatus_eqb_eq in H2. eauto.
  - intros [s [Hs [H1 H2]]]. exists s. split; auto.
    apply andb_true_iff. split; [now apply String.eqb_eq|].
    now apply TaskStatus_eqb_eq.
Qed.

(** Failure travels along dependency chains. *)
Lemma failure_propagates x d :
  clos_trans string (depends_on ss0) x d ->
  ended_failed final d = true ->
  ended_failed final x = true /\
  exists s0, In s0 ss0 /\ id s0 = x /\ has_failed_dependency final s0 = true.
Proof.
  induction 1 as [x d [s [Hs [Hid Hd]]]|x y z _ IH1 _ IH2]; intros Hf.
  - assert (Hh : has_failed_dependency final s = true).
    { apply existsb_exists. exists d. auto. }
    split; [|now exists s].
    apply ended_failed_outcome. exists s. split; auto. split; auto.
    unfold outcome. now rewrite Hh.
  - apply IH1. now apply IH2.
Qed.

(** A step is skipped only below a rejected executor call. *)
Lemma failure_origin layers :
  layered (edges ss0) layers ->
  forall done rest, layers = done ++ rest ->
  forall s0, In s0 ss0 -> In (id s0) (concat done) ->
    has_failed_dependency final s0 = true ->
    exists sd, In sd ss0 /\
      clos_trans string (depends_on ss0) (id s0) (id sd) /\
      has_failed_dependency final sd = false /\
      is_rejected (settlement_for executor sd) = true.
Proof.
  intros Hlay.
  induction done as [|l done IH] using rev_ind; intros rest Heq s0 Hs Hi Hh.
  - destruct Hi.
  - rewrite concat_app in Hi. simpl in Hi. rewrite app_nil_r in Hi.
    rewrite <- app_assoc in Heq. simpl in Heq.
    apply in_app_or in Hi as [Hi|Hi]; [now apply (IH (l :: rest))|].
    apply existsb_exists in Hh as [d [Hd Hf]].
    assert (HdP : In d (concat done)).
    { apply (Hlay done l rest (id s0) d Heq Hi).
      apply in_edges. exists s0. auto. }
    apply ended_failed_outcome in Hf as [s1 [Hs1 [Hid1 Hst]]].
    assert (Hstep : depends_on ss0 (id s0) (id s1)).
    { exists s0. rewrite Hid1. auto. }
    destruct (has_failed_dependency final s1) eqn:H1.
    + destruct (IH (l :: rest) Heq s1 Hs1) as [sd [A [B [C D]]]]; auto.
      { now rewrite Hid1. }
      exists sd. split; auto. split; auto.
      eapply t_trans; [apply t_step; exact Hstep|exact B].
    + exists s1. split; auto. split; [now apply t_step|]. split; auto.
      unfold outcome in Hst. rewrite H1 in Hst.
      now apply status_settle_step in Hst.
Qed.

End FailureOrigin.

(** X11.  Where the failures of a run come from.  After [executePlan] on
    an accepted plan, with an executor that throws only values with a
    message: the steps the executor was not called for are exactly those
    with, somewhere along their chains of dependencies, a step for which
    the executor was called and whose promise rejected; each of them is
    stored [failed] with result [{ error: 'Dependency step failed' }], and
    every other step is stored as the executor's promise settled. *)
Theorem executePlan_cascade_origin w planId plan executor order layers :
  fair order ->
  getPlan w planId = Some plan ->
  topologicalSort (steps plan) = Normal layers ->
  throws_messages executor (steps plan) ->
  exists w' evs plan',
    executePlan planId executor order w = (Normal tt, w', evs) /\
    getPlan w' planId = Some plan' /\
    (forall x,
       In (Cascaded x) evs <->
       exists sd t, In sd (steps plan) /\
         clos_trans string (depends_on (steps plan)) x (id sd) /\
         In (Invoked (id sd)) evs /\
         executor (handed_over sd) = Rejected t) /\
    (forall s0, In s0 (steps plan) ->
       (In (Cascaded (id s0)) evs ->
          find_step plan' (id s0)
          = Some (failed_with s0 "Dependency step failed")) /\
       (~ In (Cascaded (id s0)) evs ->
          In (Invoked (id s0)) evs /\
          find_step plan' (id s0)
          = Some (settled_as (executor (handed_over s0)) s0))).
Proof.
  intros Hfair Hget Hts Hmsg.
  destruct (executePlan_outcome_run w planId plan executor order layers
              Hfair Hget Hts Hmsg) as [final [E F]].
  destruct (topologicalSort_normal _ _ Hts) as [Hres [Hnd [Hperm Hlay]]].
  assert (Hall : forall s, In s (steps plan) -> In (id s) (concat layers)).
  { intros s Hs. apply (Permutation_in _ (Permutation_sym Hperm)).
    unfold step_ids. now apply in_map. }
  assert (Hrej : forall sd,
            is_rejected (settlement_for executor sd) = true <->
            exists t, executor (handed_over sd) = Rejected t).
  { intros sd. unfold settlement_for.
    change (with_status sd running) with (handed_over sd).
    destruct (executor (handed_over sd)) as [v|t]; simpl; split;
      try discriminate; eauto.
    intros [t' Ht]. discriminate. }
  eexists _, _, _. split; [exact E|].
  split; [apply getPlan_store_plan|]. split.
  - intros x. rewrite in_events_cascaded. split.
    + intros [Hx Hc].
      apply (Permutation_in _ Hperm), in_map_iff in Hx as [s0 [Hid Hs0]].
      subst x. rewrite (cascaded_id_eq _ _ _ Hnd Hs0) in Hc.
      destruct (failure_origin executor (steps plan) final F layers Hlay
                  layers [] (eq_sym (app_nil_r _)) s0 Hs0 (Hall _ Hs0) Hc)
        as [sd [A [B [C D]]]].
      apply Hrej in D as [t Ht].
      exists sd, t. split; auto. split; auto. split; auto.
      apply in_events_invoked. split; [now apply Hall|].
      now rewrite (cascaded_id_eq _ _ _ Hnd A).
    + intros [sd [t [A [B [C D]]]]].
      apply in_events_invoked in C as [_ C].
      rewrite (cascaded_id_eq _ _ _ Hnd A) in C.
      assert (Hf : ended_failed final (id sd) = true).
      { apply (ended_failed_outcome executor (steps plan) final F).
        exists sd. split; auto. split; auto.
        unfold outcome. rewrite C. apply status_settle_step.
        apply Hrej. eauto. }
      destruct (failure_propagates executor (steps plan) final F x (id sd)
                  B Hf) as [_ [s0 [Hs0 [Hid Hh]]]].
      subst x. split; [now apply Hall|].
      now rewrite (cascaded_id_eq _ _ _ Hnd Hs0).
  - intros s0 Hs0.
    destruct (events_meaning executor final (steps plan) (concat layers) s0
                (plan_id plan) (final_status final running) (createdAt plan)
                F Hnd Hs0) as [M1 M2].
    split; [exact M1|]. intros Hno.
    assert (Hinv : In (Invoked (id s0))
              (map (fun x => event_for (cascaded_id (steps plan) final x) x)
                 (concat layers))).
    { apply in_events_invoked. split; [now apply Hall|].
      destruct (cascaded_id (steps plan) final (id s0)) eqn:C; auto.
      elim Hno. apply in_events_cascaded. split; [now apply Hall|exact C]. }
    split; [exact Hinv|]. now apply M2.
Qed.

Lemma executePlan_cascade_origin_witness :
  exists w' evs plan',
    executePlan "plan-1" fail_b in_reverse_order diamond_world
    = (Normal tt, w', evs) /\
    getPlan w' "plan-1" = Some plan' /\
    (forall x,
       In (Cascaded x) evs <->
       exists sd t, In sd (steps diamond_plan) /\
         clos_trans string (depends_on (steps diamond_plan)) x (id sd) /\
         In (Invoked (id sd)) evs /\
         fail_b (handed_over sd) = Rejected t) /\
    (forall s0, In s0 (steps diamond_plan) ->
       (In (Cascaded (id s0)) evs ->
          find_step plan' (id s0)
          = Some (failed_with s0 "Dependency step failed")) /\
       (~ In (Cascaded (id s0)) evs ->
          In (Invoked (id s0)) evs /\
          find_step plan' (id s0)
          = Some (settled_as (fail_b (handed_over s0)) s0))).
Proof.
  apply (executePlan_cascade_origin diamond_world "plan-1" diamond_plan fail_b
           in_reverse_order [["a"]; ["b"; "c"]; ["d"]]).
  - apply fair_in_reverse_order.
  - reflexivity.
  - vm_compute. reflexivity.
  - intros s0 raised _. unfold fail_b.
    destruct (String.eqb _ _); discriminate.
Defined.

(** X14.  How a call of [executePlan] on a plan that [topologicalSort]
    accepts can end, for every executor.  Either it returns: then every
    step has been visited, in layer order, and is stored with its outcome.
    Or it is rejected with what [String] threw on the value the executor
    rejected some step with: then the executor had been called for that
    step, the steps visited are an initial part of the layers in order (up
    to the end of that step's layer), every step not visited is stored
    exactly as it was, and the plan is left [running]. *)
Theorem executePlan_ends w planId plan executor order layers :
  fair order ->
  getPlan w planId = Some plan ->
  topologicalSort (steps plan) = Normal layers ->
  exists w' evs plan',
    getPlan w' planId = Some plan' /\
    ((executePlan planId executor order w = (Normal tt, w', evs) /\
      map event_step evs = concat layers /\
      Forall2 (step_outcome executor (steps plan')) (steps plan)
        (steps plan'))
     \/
     (exists s0 raised later,
        executePlan planId executor order w
        = (Throw (Raised raised), w', evs) /\
        In s0 (steps plan) /\
        executor (handed_over s0) = Rejected (ThrownUnconvertible raised) /\
        In (Invoked (id s0)) evs /\
        concat layers = map event_step evs ++ later /\
        plan_status plan' = running /\
        forall j s, nth_error (steps plan) j = Some s ->
          In (id s) later -> nth_error (steps plan') j = Some s)).
Proof.
  intros Hfair Hget Hts.
  destruct (topologicalSort_normal _ _ Hts) as [Hres [Hnd [Hperm Hlay]]].
  destruct (executePlan_run w planId plan executor order layers
              Hfair Hget Hts)
    as [st [[E Hinv]|[s0 [r [P [Q [E [A1 [A2 [A3 [A4 [A5 A6]]]]]]]]]]]].
  - destruct (executePlan_returned w planId plan executor order layers _ _
                Hfair Hget Hts E) as [final [W [V F]]].
    eexists _, _, _. split; [apply getPlan_store_plan|]. left.
    split; [exact E|]. simpl. split.
    + rewrite V. apply event_step_event_for.
    + assert (Hf : ex_steps st = final).
      { apply (f_equal (fun w => option_map steps (getPlan w planId))) in W.
        rewrite !getPlan_store_plan in W. simpl in W. congruence. }
      rewrite Hf.
      pose proof (outcome_Forall2 executor final (steps plan)) as G.
      rewrite <- F in G. exact G.
  - eexists _, _, _. split; [apply getPlan_store_plan|]. right.
    exists s0, r, Q. split; [exact E|]. simpl.
    split; [assumption|]. split; [assumption|]. split; [assumption|].
    split; [now rewrite A5|]. split; [reflexivity|].
    intros j s Hj HQ. apply (A6 j s Hj). intros HP.
    assert (HndP : NoDup (P ++ Q)).
    { rewrite <- A4. apply (Permutation_NoDup (Permutation_sym Hperm) Hnd). }
    destruct (NoDup_app_parts _ _ HndP) as [_ [_ Hdisj]].
    now apply (Hdisj (id s) HQ).
Qed.

Lemma executePlan_ends_witness :
  exists w' evs plan',
    getPlan w' "plan-1" = Some plan' /\
    ((executePlan "plan-1" defeat_a in_call_order diamond_world
      = (Normal tt, w', evs) /\
      map event_step evs = concat [["a"]; ["b"; "c"]; ["d"]] /\
      Forall2 (step_outcome defeat_a (steps plan')) (steps diamond_plan)
        (steps plan'))
     \/
     (exists s0 raised later,
        executePlan "plan-1" defeat_a in_call_order diamond_world
        = (Throw (Raised raised), w', evs) /\
        In s0 (steps diamond_plan) /\
        defeat_a (handed_over s0) = Rejected (ThrownUnconvertible raised) /\
        In (Invoked (id s0)) evs /\
        concat [["a"]; ["b"; "c"]; ["d"]] = map event_step evs ++ later /\
        plan_status plan' = running /\
        forall j s, nth_error (steps diamond_plan) j = Some s ->
          In (id s) later -> nth_error (steps plan') j = Some s)).
Proof.
  apply (executePlan_ends diamond_world "plan-1" diamond_plan defeat_a
           in_call_order [["a"]; ["b"; "c"]; ["d"]]).
  - apply fair_in_call_order.
  - reflexivity.
  - vm_compute. reflexivity.
Defined.

(* ------------------------------------------------------------------ *)
(** *** Built plans can always be run *)
(* ------------------------------------------------------------------ *)

Lemma createPlan_dependencies Date_now intent w plan w' :
  createPlan Date_now intent w = (Some plan, w') ->
  forall k s, nth_error (steps plan) k = Some s ->
    resolve_indices (step_ids (steps plan))
      (lookup_index
         (PlanTemplate.dependencies (getPlanTemplate (taskType intent))) k)
    = Some (dependencies s).
Proof.
  intros H. unfold createPlan, buildSteps in H.
  set (tpl := getPlanTemplate (taskType intent)) in *.
  assert (C := create_steps_ids Date_now intent (PlanTemplate.steps tpl)
                 [] [] w eq_refl).
  destruct (create_steps Date_now intent (PlanTemplate.steps tpl) [] [] w)
    as [[ids ss] w1].
  destruct C as [C1 _].
  destruct (fill_dependencies (PlanTemplate.dependencies tpl) ids 0 ss)
    as [ss'|] eqn:F; [|discriminate].
  unfold generatePlanId in H. inversion H; subst plan w'. clear H. simpl.
  intros k s Hk.
  destruct (fill_dependencies_ids _ _ _ _ _ F) as [F1 _].
  rewrite F1, C1.
  apply (fill_dependencies_nth _ _ _ 0 ss' k s F Hk).
Qed.

(** Every template lists, for a step, only steps before it. *)
Lemma getPlanTemplate_forward t k j :
  In j (lookup_index (PlanTemplate.dependencies (getPlanTemplate t)) k) ->
  j < k.
Proof.
  unfold getPlanTemplate.
  destruct (String.eqb t "strategy_generation");
  [|destruct (String.eqb t "content_publish");
  [|destruct (String.eqb t "operation_summary")]];
  do 4 (destruct k as [|k]; [simpl; intuition lia|]); simpl; tauto.
Qed.

Lemma resolve_indices_in ids : forall l deps d,
  resolve_indices ids l = Some deps -> In d deps ->
  exists j, In j l /\ nth_error ids j = Some d.
Proof.
  induction l as [|i l IH]; intros deps d H Hd; simpl in H.
  - inversion H; subst. destruct Hd.
  - destruct (nth_error ids i) as [x|] eqn:E; [|discriminate].
    destruct (resolve_indices ids l) as [r|]; [|discriminate].
    inversion H; subst deps. destruct Hd as [<-|Hd].
    + exists i. split; [now left|assumption].
    + destruct (IH r d eq_refl Hd) as [j [Hj1 Hj2]].
      exists j. split; [now right|assumption].
Qed.

(** Dependencies that point backwards in the list resolve and cannot form a
    cycle. *)
Lemma forward_acyclic ss :
  NoDup (step_ids ss) ->
  (forall k s d, nth_error ss k = Some s -> In d (dependencies s) ->
     exists j, j < k /\ nth_error (step_ids ss) j = Some d) ->
  deps_resolve ss /\ acyclic ss.
Proof.
  intros Hnd Hfw. split.
  - intros s d Hs Hd. apply In_nth_error in Hs as [k Hk].
    destruct (Hfw k s d Hk Hd) as [j [_ Hj]]. eapply nth_error_In; eauto.
  - assert (Hpos : forall x d, clos_trans string (depends_on ss) x d ->
              exists k j, nth_error (step_ids ss) k = Some x /\
                          nth_error (step_ids ss) j = Some d /\ j < k).
    { induction 1 as [x d [s [Hs [Hid Hd]]]|x y z _ IH1 _ IH2].
      - apply In_nth_error in Hs as [k Hk].
        destruct (Hfw k s d Hk Hd) as [j [Hlt Hj]].
        exists k, j. split; auto.
        unfold step_ids. rewrite nth_error_map, Hk. simpl. now rewrite Hid.
      - destruct IH1 as [k1 [j1 [A1 [B1 C1]]]].
        destruct IH2 as [k2 [j2 [A2 [B2 C2]]]].
        assert (j1 = k2).
        { apply (proj1 (NoDup_nth_error (step_ids ss)) Hnd); [|congruence].
          apply nth_error_Some. congruence. }
        exists k1, j2. split; auto. split; auto. lia. }
    intros x Hx. destruct (Hpos x x Hx) as [k [j [A [B C]]]].
    assert (k = j).
    { apply (proj1 (NoDup_nth_error (step_ids ss)) Hnd); [|congruence].
      apply nth_error_Some. congruence. }
    lia.
Qed.

Lemma createPlan_layers Date_now intent w plan w' :
  createPlan Date_now intent w = (Some plan, w') ->
  exists layers, topologicalSort (steps plan) = Normal layers.
Proof.
  intros H.
  destruct (createPlan_some _ _ _ _ _ H) as [_ [_ [Hnd _]]].
  destruct (forward_acyclic (steps plan) Hnd) as [Hres Hac].
  - intros k s d Hk Hd.
    destruct (resolve_indices_in _ _ _ d
                (createPlan_dependencies _ _ _ _ _ H k s Hk) Hd)
      as [j [Hj1 Hj2]].
    exists j. split; auto. now apply getPlanTemplate_forward in Hj1.
  - now apply topologicalSort_complete.
Qed.

(** X12.  [createPlan] followed by [executePlan] on the new plan, for
    every intent, store and settling order, and every executor that throws
    only values with a message: the plan is built, the run accepts it and
    returns, the executor loop visits every step of the plan once, every
    step is stored with its outcome, and [getTaskStatus] then reports the
    status of the stored step, which is [completed] or [failed]. *)
Theorem createPlan_then_executePlan Date_now intent w executor order :
  fair order ->
  (forall s raised, executor s <> Rejected (ThrownUnconvertible raised)) ->
  exists plan w1 w2 evs plan',
    createPlan Date_now intent w = (Some plan, w1) /\
    executePlan (plan_id plan) executor order w1 = (Normal tt, w2, evs) /\
    getPlan w2 (plan_id plan) = Some plan' /\
    Forall2 (step_outcome executor (steps plan')) (steps plan) (steps plan') /\
    Permutation (map event_step evs) (step_ids (steps plan)) /\
    forall s0, In s0 (steps plan) ->
      exists s,
        find_step plan' (id s0) = Some s /\
        getTaskStatus w2 (id s0) = Normal (status s) /\
        (status s = completed \/ status s = failed).
Proof.
  intros Hfair Hexec.
  destruct (createPlan_returns Date_now intent w) as [plan [w1 H]].
  destruct (createPlan_layers _ _ _ _ _ H) as [layers Hts].
  destruct (createPlan_some _ _ _ _ _ H)
    as [_ [_ [Hnd [_ [Hstore [Hidx _]]]]]].
  assert (Hget : getPlan w1 (plan_id plan) = Some plan).
  { unfold getPlan. rewrite Hstore. apply get_set_same. }
  assert (Hmsg : throws_messages executor (steps plan)).
  { intros s0 raised _. apply Hexec. }
  destruct (executePlan_outcome_run w1 (plan_id plan) plan executor order
              layers Hfair Hget Hts Hmsg) as [final [E F]].
  destruct (topologicalSort_normal _ _ Hts) as [_ [_ [Hperm _]]].
  eexists plan, w1, _, _, _. split; [exact H|]. split; [exact E|].
  split; [apply getPlan_store_plan|]. simpl.
  split; [|split; [now rewrite event_step_event_for|]].
  { pose proof (outcome_Forall2 executor final (steps plan)) as G.
    rewrite <- F in G. exact G. }
  intros s0 Hs0. exists (outcome executor final s0).
  assert (Hf := find_outcome executor final (steps plan) s0 (plan_id plan)
                  (final_status final running) (createdAt plan) F Hnd Hs0).
  split; [exact Hf|]. split.
  - unfold getTaskStatus. simpl. rewrite Hidx, index_steps_get.
    assert (Hm : mem (id s0) (step_ids (steps plan)) = true).
    { apply mem_In. unfold step_ids. now apply in_map. }
    rewrite Hm, get_set_same. now rewrite Hf.
  - unfold outcome. destruct (has_failed_dependency final s0); simpl; auto.
    destruct (settlement_for executor s0) as [v|[m|m|r]]; simpl; auto.
Qed.

Lemma createPlan_then_executePlan_witness :
  exists plan w1 w2 evs plan',
    createPlan frozen_clock (test_intent "strategy_generation") initial_world
    = (Some plan, w1) /\
    executePlan (plan_id plan) fail_b in_reverse_order w1
    = (Normal tt, w2, evs) /\
    getPlan w2 (plan_id plan) = Some plan' /\
    Forall2 (step_outcome fail_b (steps plan')) (steps plan) (steps plan') /\
    Permutation (map event_step evs) (step_ids (steps plan)) /\
    forall s0, In s0 (steps plan) ->
      exists s,
        find_step plan' (id s0) = Some s /\
        getTaskStatus w2 (id s0) = Normal (status s) /\
        (status s = completed \/ status s = failed).
Proof.
  apply (createPlan_then_executePlan frozen_clock
           (test_intent "strategy_generation") initial_world fail_b
           in_reverse_order).
  - apply fair_in_reverse_order.
  - intros s raised. unfold fail_b. destruct (String.eqb _ _); discriminate.
Defined.

(* ------------------------------------------------------------------ *)
(** *** The three ways [topologicalSort] ends *)
(* ------------------------------------------------------------------ *)

(** X13.  [topologicalSort] decides the shape of its input: it returns
    layers exactly for the lists with pairwise distinct ids whose
    dependencies resolve and are acyclic; it throws the not-found error
    exactly when some dependency id names no step, whatever else is wrong;
    and it throws the circular-dependency error exactly when all
    dependencies resolve but the ids repeat or the dependencies form a
    cycle. *)
Theorem topologicalSort_decides ss :
  ((exists layers, topologicalSort ss = Normal layers) <->
     NoDup (step_ids ss) /\ deps_resolve ss /\ acyclic ss) /\
  ((exists d, topologicalSort ss = Throw (DependencyNotFound d)) <->
     ~ deps_resolve ss) /\
  (topologicalSort ss = Throw CircularDependency <->
     deps_resolve ss /\ ~ (NoDup (step_ids ss) /\ acyclic ss)).
Proof.
  assert (Hn : (exists layers, topologicalSort ss = Normal layers) ->
               NoDup (step_ids ss) /\ deps_resolve ss /\ acyclic ss).
  { intros [layers E].
    destruct (topologicalSort_normal _ _ E) as [Hres [Hnd _]].
    split; auto. split; auto. apply (topologicalSort_normal_acyclic _ _ E). }
  assert (Hu : ~ deps_resolve ss ->
               exists d, topologicalSort ss = Throw (DependencyNotFound d)).
  { intros Hno. destruct (deps_resolve_dec ss) as [Hres|Hbad]; [tauto|].
    destruct (build_graph_not_found ss Hbad) as [d [E _]].
    exists d. unfold topologicalSort. now rewrite E. }
  assert (Hr : deps_resolve ss ->
               forall d, topologicalSort ss <> Throw (DependencyNotFound d)).
  { intros Hres d E. destruct (build_graph_ok ss Hres) as [K [g [Hb _]]].
    unfold topologicalSort, layering in E. rewrite Hb in E.
    destruct (bfs _ _ _ _ _ _) as [[l pc]|]; [|discriminate].
    destruct (Nat.eqb pc (length ss)); discriminate. }
  split; [|split].
  - split; auto. intros [Hnd [Hres Hac]]. now apply topologicalSort_complete.
  - split; auto. intros [d E] Hres. now apply (Hr Hres d).
  - split.
    + intros E. split.
      * destruct (deps_resolve_dec ss) as [Hres|Hbad]; auto.
        destruct (build_graph_not_found ss Hbad) as [d [Eb _]].
        unfold topologicalSort in E. rewrite Eb in E. discriminate.
      * intros [Hnd Hac].
        destruct (deps_resolve_dec ss) as [Hres|Hbad].
        -- destruct (topologicalSort_complete ss Hnd Hres Hac) as [l El].
           congruence.
        -- destruct (build_graph_not_found ss Hbad) as [d [Eb _]].
           unfold topologicalSort in E. rewrite Eb in E. discriminate.
    + intros [Hres Hno].
      destruct (topologicalSort_outcomes ss) as [Hl|[E|[d E]]]; auto.
      * elim Hno. destruct (Hn Hl) as [A [_ B]]. auto.
      * now elim (Hr Hres d).
Qed.

(* ================================================================== *)
(** ** Claims about the executor loop *)
(* ================================================================== *)

Lemma outcome_terminal executor final s0 :
  terminal (outcome executor final s0).
Proof.
  unfold outcome, terminal.
  destruct (has_failed_dependency final s0); simpl; auto.
  destruct (settlement_for executor s0) as [v|[m|m|r]]; simpl; auto.
Qed.

(** C3.  For a stored plan whose dependencies resolve and are acyclic, and
    every executor: whenever [executePlan] returns normally, the stored
    plan has the same step ids, no step is [pending] or [running], the plan
    status is [completed] exactly when every step is [completed], and
    [failed] exactly when some step is [failed].  And the call does return
    normally when the step ids are pairwise distinct and the executor throws
    only values with a message. *)
Theorem executePlan_final_statuses w planId plan executor order :
  fair order ->
  getPlan w planId = Some plan ->
  deps_resolve (steps plan) -> acyclic (steps plan) ->
  (NoDup (step_ids (steps plan)) ->
   throws_messages executor (steps plan) ->
     exists w' evs,
       executePlan planId executor order w = (Normal tt, w', evs)) /\
  (forall w' evs,
     executePlan planId executor order w = (Normal tt, w', evs) ->
     exists plan',
       getPlan w' planId = Some plan' /\
       step_ids (steps plan') = step_ids (steps plan) /\
       (forall s, In s (steps plan') ->
                  status s <> pending /\ status s <> running) /\
       (plan_status plan' = completed <->
          forall s, In s (steps plan') -> status s = completed) /\
       (plan_status plan' = failed <->
          exists s, In s (steps plan') /\ status s = failed)).
Proof.
  intros Hfair Hget Hres Hac. split.
  - intros Hnd Hmsg.
    destruct (topologicalSort_complete _ Hnd Hres Hac) as [layers Hts].
    apply (executePlan_returns w planId plan executor order layers); auto.
  - intros w' evs Hex.
    destruct (executePlan_normal_inv _ _ _ _ _ _ _ Hget Hex) as [layers Hts].
    destruct (executePlan_returned w planId plan executor order layers w' evs
                Hfair Hget Hts Hex) as [final [W [_ F]]].
    subst w'.
    assert (Hterm : forall s, In s final -> terminal s).
    { intros s Hs. rewrite F in Hs. apply in_map_iff in Hs as [s0 [<- _]].
      apply outcome_terminal. }
    eexists. split; [apply getPlan_store_plan|]. simpl.
    split; [|split].
    + rewrite F at 1. unfold step_ids. rewrite map_map.
      apply map_ext. intros s. apply outcome_id.
    + intros s Hs. destruct (Hterm s Hs) as [H|H]; rewrite H;
        split; discriminate.
    + now apply final_status_spec.
Qed.

Lemma executePlan_final_statuses_witness :
  (NoDup (step_ids (steps diamond_plan)) ->
   throws_messages fail_b (steps diamond_plan) ->
     exists w' evs,
       executePlan "plan-1" fail_b in_reverse_order diamond_world
       = (Normal tt, w', evs)) /\
  (forall w' evs,
     executePlan "plan-1" fail_b in_reverse_order diamond_world
     = (Normal tt, w', evs) ->
     exists plan',
       getPlan w' "plan-1" = Some plan' /\
       step_ids (steps plan') = step_ids (steps diamond_plan) /\
       (forall s, In s (steps plan') ->
                  status s <> pending /\ status s <> running) /\
       (plan_status plan' = completed <->
          forall s, In s (steps plan') -> status s = completed) /\
       (plan_status plan' = failed <->
          exists s, In s (steps plan') /\ status s = failed)).
Proof.
  assert (E : topologicalSort diamond_steps
              = Normal [["a"]; ["b"; "c"]; ["d"]]) by reflexivity.
  apply (executePlan_final_statuses diamond_world "plan-1" diamond_plan
           fail_b in_reverse_order).
  - apply fair_in_reverse_order.
  - reflexivity.
  - apply (topologicalSort_normal _ _ E).
  - apply (topologicalSort_normal_acyclic _ _ E).
Defined.








(* ================================================================== *)
(** ** Step identifiers across operations *)
(* ================================================================== *)

Lemma generate_ids_bounds Date_now n : forall w i,
  In i (fst (generate_ids Date_now n w)) ->
  exists t c, i = step_id_text t c /\ stepCounter w < c <= stepCounter w + n.
Proof.
  induction n as [|n IH]; intros w i; [simpl; tauto|].
  cbn [generate_ids]. rewrite generateStepId_eq.
  destruct (generate_ids Date_now n _) as [l w2] eqn:E. simpl.
  intros [<-|Hi].
  - exists (Date_now (clockReads w)), (S (stepCounter w)). split; auto. lia.
  - assert (Hl : In i (fst (generate_ids Date_now n
                  (mkWorld (planStore w) (stepIndex w) (planCounter w)
                     (S (stepCounter w)) (S (clockReads w))))))
      by now rewrite E.
    apply IH in Hl as [t [c [-> Hc]]]. simpl in Hc.
    exists t, c. split; auto. lia.
Qed.

(** The step ids of a new plan carry the counter values that [createPlan]
    has used up. *)
Lemma createPlan_ids_range Date_now intent w plan w' :
  createPlan Date_now intent w = (Some plan, w') ->
  forall x, In x (step_ids (steps plan)) ->
    exists t c, x = step_id_text t c /\ stepCounter w < c <= stepCounter w'.
Proof.
  intros H. unfold createPlan, buildSteps in H.
  set (tpl := getPlanTemplate (taskType intent)) in *.
  assert (C := create_steps_ids Date_now intent (PlanTemplate.steps tpl)
                 [] [] w eq_refl).
  assert (W := create_steps_world Date_now intent (PlanTemplate.steps tpl)
                 [] [] w).
  destruct (create_steps Date_now intent (PlanTemplate.steps tpl) [] [] w)
    as [[ids ss] w1].
  destruct C as [C1 [C2 _]]. destruct W as [_ [_ [_ [W4 _]]]].
  destruct (fill_dependencies (PlanTemplate.dependencies tpl) ids 0 ss)
    as [ss'|] eqn:F; [|discriminate].
  unfold generatePlanId in H. inversion H; subst plan w'. clear H. simpl.
  destruct (fill_dependencies_ids _ _ _ _ _ F) as [F1 _].
  rewrite F1, C1, C2. simpl.
  intros x Hx. apply generate_ids_bounds in Hx as [t [c [-> Hc]]].
  exists t, c. split; auto. lia.
Qed.

(** No operation but [clearAllPlans] lowers the step counter. *)
Lemma advances_stepCounter Date_now w w' :
  advances Date_now w w' -> stepCounter w <= stepCounter w'.
Proof.
  induction 1 as [|w' intent _ IH|w' planId executor order _ IH
                  |w' _ IH|w' _ IH].
  - apply Nat.le_refl.
  - destruct (createPlan_returns Date_now intent w') as [plan [w2 E]].
    rewrite E. simpl.
    destruct (createPlan_some _ _ _ _ _ E) as [_ [_ [_ [_ [_ [_ [_ Hc]]]]]]].
    lia.
  - assert (H := executePlan_effect planId executor order w').
    destruct (executePlan planId executor order w') as [[c w2] evs].
    simpl. destruct H as [_ [_ [Hc _]]]. lia.
  - simpl. assumption.
  - simpl. lia.
Qed.

(** C9 (amended).  The step ids of every plan returned by [createPlan] are
    pairwise distinct; the ids of any number of successive [generateStepId]
    calls are pairwise distinct; two calls made at different counter values
    never give the same id, whatever the clock says; no operation other
    than [clearAllPlans] lowers the counter; hence, as long as
    [clearAllPlans] is not called, a later call of [generateStepId] never
    repeats the id of an earlier one, whatever else is called in between,
    and two plans built by [createPlan] have no step id in common. *)
Theorem step_ids_unique Date_now :
  (forall intent w plan w',
     createPlan Date_now intent w = (Some plan, w') ->
     NoDup (step_ids (steps plan))) /\
  (forall n w, NoDup (fst (generate_ids Date_now n w))) /\
  (forall w1 w2,
     stepCounter w1 <> stepCounter w2 ->
     fst (generateStepId Date_now w1) <> fst (generateStepId Date_now w2)) /\
  (forall w w', advances Date_now w w' -> stepCounter w <= stepCounter w') /\
  (forall w1 w2,
     advances Date_now (snd (generateStepId Date_now w1)) w2 ->
     fst (generateStepId Date_now w1) <> fst (generateStepId Date_now w2)) /\
  (forall intent1 intent2 w w1 w2 w3 plan1 plan2,
     createPlan Date_now intent1 w = (Some plan1, w1) ->
     advances Date_now w1 w2 ->
     createPlan Date_now intent2 w2 = (Some plan2, w3) ->
     forall x, In x (step_ids (steps plan1)) ->
               ~ In x (step_ids (steps plan2))).
Proof.
  split; [|split; [|split; [|split; [|split]]]].
  - intros intent w plan w' H.
    now destruct (createPlan_some _ _ _ _ _ H) as [_ [_ [Hnd _]]].
  - intros n w. apply generate_ids_NoDup.
  - intros w1 w2 Hne. rewrite !generateStepId_eq. simpl.
    apply step_id_text_neq. congruence.
  - apply advances_stepCounter.
  - intros w1 w2 Hadv. apply advances_stepCounter in Hadv. simpl in Hadv.
    rewrite !generateStepId_eq. simpl. apply step_id_text_neq. lia.
  - intros intent1 intent2 w w1 w2 w3 plan1 plan2 H1 Hadv H2 x Hx1 Hx2.
    apply advances_stepCounter in Hadv.
    destruct (createPlan_ids_range _ _ _ _ _ H1 x Hx1) as [t1 [c1 [E1 B1]]].
    destruct (createPlan_ids_range _ _ _ _ _ H2 x Hx2) as [t2 [c2 [E2 B2]]].
    rewrite E1 in E2. apply step_id_text_inj in E2. lia.
Qed.

Lemma step_ids_unique_witness :
  fst (generateStepId frozen_clock initial_world)
  <> fst (generateStepId frozen_clock
            (snd (createPlan frozen_clock (test_intent "content_publish")
                    (snd (generateStepId frozen_clock initial_world))))).
Proof.
  apply (proj1 (proj2 (proj2 (proj2 (proj2 (step_ids_unique frozen_clock)))))).
  apply adv_createPlan. apply adv_here.
Defined.
